(** * The canvas particle animations of the portfolio site

    A shallow embedding of the two particle animation loops of the site:

    - the class [ParticleSystem] of [src/script.js], and its enhanced copy in
      [src/unnamed/part_001] (mouse repulsion, hue, radial gradients);
    - the closure-based loop [initializeParticles] of [src/unnamed/part_000].

    Reading of the host.  JavaScript numbers are read as real numbers: no
    rounding, no NaN, no infinities.  Where a bound or the outcome of a
    comparison turns on rounding (the opacity pulse, the connection test and
    the line opacity, the counters), the expression is modelled once more
    with every operation rounded to binary64 (module [Double]), and the
    property is stated of that.  Pixel sizes that the DOM exposes as
    integers ([canvas.width], [offsetWidth], [innerWidth]) are naturals.  The
    browser is a record of what the scripts ask of it, a queue of requested
    animation frames named by their handles, and a list of events it may
    deliver.  [Math.random()] is a stream of reals, [Date.now()] is an input
    of every call that reads the clock.  Canvas calls are recorded in a log
    and are taken not to throw, so the [catch] branches are not reached. *)

From Stdlib Require Import Reals Lra List Bool Arith ZArith Lia String Ascii.
From Stdlib Require Floats.
Import ListNotations.

Open Scope R_scope.

(** ** JavaScript and host primitives *)

(** [a || d] on numbers: the default [d] replaces a falsy [a], which for a
    real number means zero. *)
Definition js_or (a d : R) : R := if Req_dec_T a 0 then d else a.

(** [Math.min]. *)
Definition js_min (a b : R) : R := if Rle_dec a b then a else b.

(** [Math.atan2(y, x)], by quadrant. *)
Definition atan2 (b a : R) : R :=
  if Rlt_dec 0 a then atan (b / a)
  else if Rlt_dec a 0 then
         (if Rle_dec 0 b then atan (b / a) + PI else atan (b / a) - PI)
  else if Rlt_dec 0 b then PI / 2
  else if Rlt_dec b 0 then - (PI / 2)
  else 0.

(** [Math.hypot(a, b)]. *)
Definition hypot (a b : R) : R := sqrt (a * a + b * b).

(** A handle stored in a field is truthy when it is a non-zero number;
    [None] is [null]. *)
Definition truthy (h : option nat) : bool :=
  match h with
  | Some n => negb (Nat.eqb n 0)
  | None => false
  end.

(** *** The user-agent test of [getParticleCount]

    [/Android|webOS|iPhone|iPad|iPod|BlackBerry|IEMobile|Opera Mini/i.test(ua)]:
    some alternative occurs in [ua], letters compared without case. *)

Definition lower (c : ascii) : ascii :=
  let n := nat_of_ascii c in
  if (Nat.leb 65 n && Nat.leb n 90)%bool then ascii_of_nat (n + 32) else c.

Fixpoint lowercase (s : string) : string :=
  match s with
  | EmptyString => EmptyString
  | String c r => String (lower c) (lowercase r)
  end.

Fixpoint contains (needle hay : string) : bool :=
  (String.prefix needle hay
   || match hay with
      | EmptyString => false
      | String _ r => contains needle r
      end)%bool.

Definition lowPerformancePatterns : list string :=
  ["Android"; "webOS"; "iPhone"; "iPad"; "iPod"; "BlackBerry"; "IEMobile";
   "Opera Mini"]%string.

Definition isLowPerformanceDevice (userAgent : string) : bool :=
  existsb (fun pat => contains (lowercase pat) (lowercase userAgent))
          lowPerformancePatterns.

(** ** Binary64 arithmetic

    A JavaScript number is an IEEE 754 binary64 value.  The finite ones are
    the reals [m * 2^e] with [|m| < 2^53] and [-1074 <= e <= 971]; an
    operation returns the real result rounded to the nearest of them, ties
    to the one with an even significand.  Overflow is not modelled: [round]
    is that rounding for reals below [2^1023] in absolute value, which is
    where every quantity of this file lives. *)

Module Double.

Definition bpow (e : Z) : R := powerRZ 2 e.

(** The finite binary64 values. *)
Definition double (x : R) : Prop :=
  exists m e : Z,
    (Z.abs m < 2 ^ 53)%Z /\ (-1074 <= e <= 971)%Z /\ x = IZR m * bpow e.

(** [floor (log2 |x|)], for [x] other than 0. *)
Definition mag (x : R) : Z := Int_part (ln (Rabs x) / ln 2).

(** The exponent of the last place of [x]: 52 below its magnitude, and
    never below that of the subnormal numbers. *)
Definition exponent (x : R) : Z := Z.max (mag x - 52) (-1074).

(** The nearest integer, the even one of two equally near. *)
Definition nearestEven (r : R) : Z :=
  let f := Int_part r in
  if Rlt_dec (r - IZR f) (1 / 2) then f
  else if Rlt_dec (1 / 2) (r - IZR f) then (f + 1)%Z
  else if Z.even f then f else (f + 1)%Z.

Definition round (x : R) : R :=
  IZR (nearestEven (x / bpow (exponent x))) * bpow (exponent x).

(** The operators of the scripts. *)
Definition add (x y : R) : R := round (x + y).
Definition sub (x y : R) : R := round (x - y).
Definition mul (x y : R) : R := round (x * y).
Definition div (x y : R) : R := round (x / y).

(** [Math.sqrt], correctly rounded. *)
Definition sqrt (x : R) : R := round (R_sqrt.sqrt x).

(** A decimal literal of the source text. *)
Definition lit (x : R) : R := round x.

End Double.

(** The nested loops [for i] / [for j = i + 1] over one array: the calls
    [f ps[i] ps[j]], [i < j], in loop order, their results concatenated.
    [particles.forEach((p1, i) => particles.slice(i + 1).forEach(...))] is
    the same iteration. *)
Fixpoint forEachPair {A B : Type} (f : A -> A -> list B) (ps : list A)
  : list B :=
  match ps with
  | [] => []
  | p :: rest => flat_map (f p) rest ++ forEachPair f rest
  end.

(** What the page and the browser offer when a script starts. *)
Record Host := mkHost {
  userAgent : string;            (* navigator.userAgent *)
  innerWidth : nat;              (* window.innerWidth *)
  innerHeight : nat;             (* window.innerHeight *)
  webgl : bool;                  (* getContext('webgl') is truthy *)
  experimentalWebgl : bool;      (* getContext('experimental-webgl') is truthy *)
  reducedMotion : bool;          (* matchMedia('(prefers-reduced-motion: reduce)').matches *)
  canvasPresent : bool;          (* the canvas element exists *)
  contextPresent : bool;         (* canvas.getContext('2d') is truthy *)
  canvasWidth : nat;             (* canvas.width as the markup leaves it *)
  canvasHeight : nat;            (* canvas.height as the markup leaves it *)
  offsetWidth : nat;             (* canvas.offsetWidth *)
  offsetHeight : nat;            (* canvas.offsetHeight *)
  random : nat -> R              (* the successive values of Math.random() *)
}.

(** What a script draws on the canvas. *)
Inductive DrawOp : Type :=
| FillRect (w h : R)                       (* fade: translucent fill of the whole surface *)
| ClearRect (w h : R)
| Circle (cx cy r alpha : R)               (* arc, flat rgba fill *)
| GradientCircle (cx cy r hueval alpha : R) (* arc, radial gradient fill *)
| Line (x1 y1 x2 y2 alpha : R).            (* moveTo, lineTo, stroke *)

(** The methods whose invocation is recorded. *)
Inductive Method : Type :=
| GetParticleCount | CheckWebGLSupport | Resize | Init | Animate
| SetupEventListeners | DrawConnections | Destroy.

(** The observable trace of a script. *)
Inductive Effect : Type :=
| Call (m : Method)
| Draw (op : DrawOp)
| RequestFrame (h : nat)      (* requestAnimationFrame returned [h] *)
| CancelFrame (h : nat).      (* cancelAnimationFrame(h) *)

Definition isLine (e : Effect) : bool :=
  match e with Draw (Line _ _ _ _ _) => true | _ => false end.

Definition isDisc (e : Effect) : bool :=
  match e with
  | Draw (Circle _ _ _ _) | Draw (GradientCircle _ _ _ _ _) => true
  | _ => false
  end.

Definition isRequestFrame (e : Effect) : bool :=
  match e with RequestFrame _ => true | _ => false end.

Definition isCall (m : Method) (e : Effect) : bool :=
  match e, m with
  | Call GetParticleCount, GetParticleCount
  | Call CheckWebGLSupport, CheckWebGLSupport
  | Call Resize, Resize
  | Call Init, Init
  | Call Animate, Animate
  | Call SetupEventListeners, SetupEventListeners
  | Call DrawConnections, DrawConnections
  | Call Destroy, Destroy => true
  | _, _ => false
  end.

(** ** The class [ParticleSystem] ([src/script.js], [src/unnamed/part_001]) *)

Module ParticleSystem.

(** The two copies of the class.  They share every method; where the enhanced
    copy adds behaviour the definitions below branch on the variant. *)
Inductive Variant : Type :=
| Basic       (* src/script.js *)
| Enhanced.   (* src/unnamed/part_001 *)

(** The object literal pushed by [init].  [baseVx], [baseVy] and [hue] exist
    in the enhanced copy only; the basic copy never reads them. *)
Record Particle := mkParticle {
  x : R; y : R;
  vx : R; vy : R;
  baseVx : R; baseVy : R;
  radius : R;
  opacity : R;
  pulseSpeed : R;
  hue : R
}.

(** The fields of [this].  [mouseX], [mouseY], [mouseRadius] are
    [this.mouse.{x,y,radius}]; they and [interactionEnabled] exist in the
    enhanced copy only. *)
Record System := mkSystem {
  hasCanvas : bool;            (* this.canvas is truthy *)
  hasCtx : bool;               (* this.ctx is truthy *)
  width : nat; height : nat;   (* this.canvas.width, this.canvas.height *)
  particles : list Particle;
  particleCount : nat;
  animationId : option nat;
  isVisible : bool;
  frameCount : nat;
  lastFrame : R;
  mouseX : R; mouseY : R; mouseRadius : R;
  interactionEnabled : bool
}.

(** The object together with the part of the browser it talks to. *)
Record World := mkWorld {
  sys : System;
  pending : list nat;   (* requested frames not yet run; each runs [this.animate()] *)
  nextHandle : nat;     (* the handle the next requestAnimationFrame returns *)
  listening : bool;     (* setupEventListeners has registered its handlers *)
  log : list Effect     (* oldest first *)
}.

Definition set_size (wd ht : nat) (s : System) : System :=
  mkSystem (hasCanvas s) (hasCtx s) wd ht (particles s) (particleCount s)
           (animationId s) (isVisible s) (frameCount s) (lastFrame s)
           (mouseX s) (mouseY s) (mouseRadius s) (interactionEnabled s).

Definition set_particles (ps : list Particle) (s : System) : System :=
  mkSystem (hasCanvas s) (hasCtx s) (width s) (height s) ps (particleCount s)
           (animationId s) (isVisible s) (frameCount s) (lastFrame s)
           (mouseX s) (mouseY s) (mouseRadius s) (interactionEnabled s).

Definition set_particleCount (n : nat) (s : System) : System :=
  mkSystem (hasCanvas s) (hasCtx s) (width s) (height s) (particles s) n
           (animationId s) (isVisible s) (frameCount s) (lastFrame s)
           (mouseX s) (mouseY s) (mouseRadius s) (interactionEnabled s).

Definition set_animationId (a : option nat) (s : System) : System :=
  mkSystem (hasCanvas s) (hasCtx s) (width s) (height s) (particles s)
           (particleCount s) a (isVisible s) (frameCount s) (lastFrame s)
           (mouseX s) (mouseY s) (mouseRadius s) (interactionEnabled s).

Definition set_isVisible (b : bool) (s : System) : System :=
  mkSystem (hasCanvas s) (hasCtx s) (width s) (height s) (particles s)
           (particleCount s) (animationId s) b (frameCount s) (lastFrame s)
           (mouseX s) (mouseY s) (mouseRadius s) (interactionEnabled s).

Definition set_frameCount (n : nat) (s : System) : System :=
  mkSystem (hasCanvas s) (hasCtx s) (width s) (height s) (particles s)
           (particleCount s) (animationId s) (isVisible s) n (lastFrame s)
           (mouseX s) (mouseY s) (mouseRadius s) (interactionEnabled s).

Definition set_lastFrame (t : R) (s : System) : System :=
  mkSystem (hasCanvas s) (hasCtx s) (width s) (height s) (particles s)
           (particleCount s) (animationId s) (isVisible s) (frameCount s) t
           (mouseX s) (mouseY s) (mouseRadius s) (interactionEnabled s).

Definition set_mouse (mx my : R) (s : System) : System :=
  mkSystem (hasCanvas s) (hasCtx s) (width s) (height s) (particles s)
           (particleCount s) (animationId s) (isVisible s) (frameCount s)
           (lastFrame s) mx my (mouseRadius s) (interactionEnabled s).

Definition set_interactionEnabled (b : bool) (s : System) : System :=
  mkSystem (hasCanvas s) (hasCtx s) (width s) (height s) (particles s)
           (particleCount s) (animationId s) (isVisible s) (frameCount s)
           (lastFrame s) (mouseX s) (mouseY s) (mouseRadius s) b.

Definition with_sys (s : System) (w : World) : World :=
  mkWorld s (pending w) (nextHandle w) (listening w) (log w).

Definition emits (es : list Effect) (w : World) : World :=
  mkWorld (sys w) (pending w) (nextHandle w) (listening w) (log w ++ es).

Definition emit (e : Effect) (w : World) : World := emits [e] w.

(** [requestAnimationFrame(() => this.animate())], the handle stored in
    [this.animationId]. *)
Definition requestAnimationFrame (w : World) : World :=
  let h := nextHandle w in
  mkWorld (set_animationId (Some h) (sys w)) (pending w ++ [h]) (S h)
          (listening w) (log w ++ [RequestFrame h]).

(** [cancelAnimationFrame(h)]. *)
Definition cancelAnimationFrame (h : nat) (w : World) : World :=
  mkWorld (sys w) (filter (fun k => negb (Nat.eqb k h)) (pending w))
          (nextHandle w) (listening w) (log w ++ [CancelFrame h]).

(** *** [checkWebGLSupport], [getParticleCount], [resize] *)

Definition checkWebGLSupport (h : Host) : bool :=
  (webgl h || experimentalWebgl h)%bool.

Definition getParticleCount (h : Host) : nat :=
  if (isLowPerformanceDevice (userAgent h) || Nat.ltb (innerWidth h) 768)%bool
  then 15%nat
  else if Nat.ltb (innerWidth h) 1200 then 25%nat
  else if (webgl h || experimentalWebgl h)%bool then 40%nat else 30%nat.

(** [resize], given the canvas' current [offsetWidth] and [offsetHeight]. *)
Definition resize (ow oh : nat) (w : World) : World :=
  with_sys (set_size ow oh (sys w)) (emit (Call Resize) w).

(** *** [init] *)

(** The number of [Math.random()] calls in one pushed object literal. *)
Definition draws (v : Variant) : nat :=
  match v with Basic => 7%nat | Enhanced => 10%nat end.

(** The object literal of [init], its properties evaluated in source order
    from the random values [rnd k], [rnd (k+1)], ... *)
Definition newParticle (v : Variant) (wd ht : nat) (rnd : nat -> R) (k : nat)
  : Particle :=
  match v with
  | Basic =>
      {| x := rnd k * INR wd;
         y := rnd (k + 1)%nat * INR ht;
         vx := (rnd (k + 2)%nat - 0.5) * 0.5;
         vy := (rnd (k + 3)%nat - 0.5) * 0.5;
         baseVx := 0; baseVy := 0;
         radius := rnd (k + 4)%nat * 2 + 1;
         opacity := rnd (k + 5)%nat * 0.6 + 0.2;
         pulseSpeed := rnd (k + 6)%nat * 0.02 + 0.01;
         hue := 0 |}
  | Enhanced =>
      {| x := rnd k * INR wd;
         y := rnd (k + 1)%nat * INR ht;
         vx := (rnd (k + 2)%nat - 0.5) * 0.5;
         vy := (rnd (k + 3)%nat - 0.5) * 0.5;
         baseVx := (rnd (k + 4)%nat - 0.5) * 0.5;
         baseVy := (rnd (k + 5)%nat - 0.5) * 0.5;
         radius := rnd (k + 6)%nat * 2 + 1;
         opacity := rnd (k + 7)%nat * 0.6 + 0.2;
         pulseSpeed := rnd (k + 8)%nat * 0.02 + 0.01;
         hue := rnd (k + 9)%nat * 60 + 190 |}
  end.

(** The [for] loop of [init]: [count] iterations from random index [k]. *)
Fixpoint initLoop (v : Variant) (wd ht : nat) (rnd : nat -> R) (k count : nat)
  : list Particle :=
  match count with
  | O => []
  | S c => newParticle v wd ht rnd k :: initLoop v wd ht rnd (k + draws v) c
  end.

Definition init (v : Variant) (h : Host) (w : World) : World :=
  let w := emit (Call Init) w in
  let s := sys w in
  with_sys
    (set_particles
       (particles s
        ++ initLoop v (width s) (height s) (random h) 0 (particleCount s)) s)
    w.

(** *** [animate] *)

(** One axis of "wrap around edges": coordinate [c] of a particle of radius
    [r] on a surface of extent [limit]. *)
Definition wrap (limit r c : R) : R :=
  if Rlt_dec c (- r) then limit + r
  else if Rgt_dec c (limit + r) then - r
  else c.

Definition set_velocity (a b : R) (p : Particle) : Particle :=
  mkParticle (x p) (y p) a b (baseVx p) (baseVy p) (radius p) (opacity p)
             (pulseSpeed p) (hue p).

(** The "mouse interaction" block of the enhanced copy. *)
Definition mouseInteraction (s : System) (p : Particle) : Particle :=
  let dx := mouseX s - x p in
  let dy := mouseY s - y p in
  let distance := sqrt (dx * dx + dy * dy) in
  if Rlt_dec distance (mouseRadius s) then
    let force := (mouseRadius s - distance) / mouseRadius s in
    let angle := atan2 dy dx in
    set_velocity (vx p - cos angle * force * 0.2)
                 (vy p - sin angle * force * 0.2) p
  else
    set_velocity (vx p + (baseVx p - vx p) * 0.05)
                 (vy p + (baseVy p - vy p) * 0.05) p.

(** The value of [Math.sin(now * (particle.pulseSpeed || 0.01))]. *)
Definition pulse (now : R) (p : Particle) : R :=
  sin (now * js_or (pulseSpeed p) 0.01).

(** The particle after the "mouse interaction" block, which only the
    enhanced copy has, guarded by [this.interactionEnabled]. *)
Definition interact (v : Variant) (s : System) (p : Particle) : Particle :=
  match v with
  | Basic => p
  | Enhanced => if interactionEnabled s then mouseInteraction s p else p
  end.

(** [const deltaTime = Math.min(frameTime * 0.016, 1)]. *)
Definition deltaTime (frameTime : R) : R := js_min (frameTime * 0.016) 1.

(** The body of the [forEach] callback up to the drawing: the particle as the
    callback leaves it. *)
Definition stepParticle (v : Variant) (s : System) (now frameTime : R)
           (p : Particle) : Particle :=
  let p := interact v s p in
  let x1 := x p + js_or (vx p) 0 * deltaTime frameTime in
  let y1 := y p + js_or (vy p) 0 * deltaTime frameTime in
  let o1 :=
    match v with
    | Basic => 0.3 + 0.2 * pulse now p
    | Enhanced => 0.3 + 0.3 * pulse now p
    end in
  mkParticle (wrap (INR (width s)) (radius p) x1)
             (wrap (INR (height s)) (radius p) y1)
             (vx p) (vy p) (baseVx p) (baseVy p) (radius p) o1
             (pulseSpeed p) (hue p).

(** The drawing at the end of the callback, of the particle [q] it has just
    updated. *)
Definition drawParticle (v : Variant) (now : R) (q : Particle) : DrawOp :=
  match v with
  | Basic => Circle (x q) (y q) (js_or (radius q) 1) (js_or (opacity q) 0.5)
  | Enhanced =>
      GradientCircle (x q) (y q) (js_or (radius q) 1)
                     (hue q + 20 * pulse now q) (opacity q)
  end.

(** [drawConnections]: [connect] is the body of the inner loop. *)
Definition maxDistance : R := 80.
Definition maxDistanceSquared : R := maxDistance * maxDistance.

Definition connect (particle otherParticle : Particle) : list DrawOp :=
  let dx := x particle - x otherParticle in
  let dy := y particle - y otherParticle in
  let distanceSquared := dx * dx + dy * dy in
  if Rlt_dec distanceSquared maxDistanceSquared then
    let distance := sqrt distanceSquared in
    let opacity := (1 - distance / maxDistance) * 0.15 in
    [Line (x particle) (y particle) (x otherParticle) (y otherParticle) opacity]
  else [].

Definition drawConnections (ps : list Particle) : list DrawOp :=
  forEachPair connect ps.

Definition animate (v : Variant) (now : R) (w : World) : World :=
  let w := emit (Call Animate) w in
  let s := sys w in
  if (negb (isVisible s) || negb (hasCtx s) || negb (hasCanvas s))%bool then
    with_sys (set_animationId None s) w
  else
    let w := emit (Draw (FillRect (INR (width s)) (INR (height s)))) w in
    let frameTime := now - js_or (lastFrame s) now in
    let s := set_lastFrame now s in
    let ps := map (stepParticle v s now frameTime) (particles s) in
    let s := set_particles ps s in
    let w := emits (map (fun q => Draw (drawParticle v now q)) ps) w in
    let w :=
      if Nat.eqb (frameCount s mod 2) 0
      then emits (Call DrawConnections :: map Draw (drawConnections ps)) w
      else w in
    let s := set_frameCount (frameCount s + 1) s in
    requestAnimationFrame (with_sys s w).

(** *** [destroy] *)

Definition destroy (w : World) : World :=
  let w := emit (Call Destroy) w in
  if truthy (animationId (sys w)) then
    match animationId (sys w) with
    | Some h =>
        let w := cancelAnimationFrame h w in
        with_sys (set_animationId None (sys w)) w
    | None => w
    end
  else w.

(** *** [setupEventListeners] and its handlers *)

Definition setupEventListeners (w : World) : World :=
  let w := emit (Call SetupEventListeners) w in
  mkWorld (sys w) (pending w) (nextHandle w) true (log w).

(** The [visibilitychange] handler, [hidden] being [document.hidden]. *)
Definition onVisibilityChange (v : Variant) (now : R) (hidden : bool)
           (w : World) : World :=
  let w := with_sys (set_isVisible (negb hidden) (sys w)) w in
  if (isVisible (sys w) && negb (truthy (animationId (sys w))))%bool
  then animate v now w
  else w.

(** The [mousemove] handler of the enhanced copy. *)
Definition onMouseMove (clientX clientY rectLeft rectTop : R) (w : World)
  : World :=
  with_sys (set_mouse (clientX - rectLeft) (clientY - rectTop) (sys w)) w.

(** The [mouseleave] handler of the enhanced copy. *)
Definition onMouseLeave (w : World) : World :=
  with_sys (set_mouse (-1000) (-1000) (sys w)) w.

(** *** The constructor *)

Definition constructor (v : Variant) (h : Host) (now : R) : World :=
  let s :=
    {| hasCanvas := canvasPresent h;
       hasCtx := (canvasPresent h && contextPresent h)%bool;
       width := canvasWidth h; height := canvasHeight h;
       particles := [];
       particleCount := getParticleCount h;
       animationId := None;
       isVisible := true;
       frameCount := 0;
       lastFrame := 0;
       mouseX := 0; mouseY := 0; mouseRadius := 150;
       interactionEnabled := true |} in
  let w := mkWorld s [] 1 false [Call GetParticleCount] in
  if (negb (hasCanvas s) || negb (hasCtx s))%bool then w
  else if reducedMotion h then w
  else
    let w := emit (Call CheckWebGLSupport) w in
    let w :=
      if negb (checkWebGLSupport h) then
        let s := set_particleCount (Nat.min (particleCount (sys w)) 15) (sys w) in
        with_sys (match v with
                  | Basic => s
                  | Enhanced => set_interactionEnabled false s
                  end) w
      else w in
    let w := resize (offsetWidth h) (offsetHeight h) w in
    let w := init v h w in
    let w := animate v now w in
    setupEventListeners w.

(** *** The events the browser delivers *)

Inductive Event : Type :=
| AnimationFrame (now : R)                  (* the requested frames run *)
| VisibilityChange (now : R) (hidden : bool)
| ResizeTimeout (ow oh : nat)               (* the 150 ms resize timer fires *)
| MouseMove (clientX clientY rectLeft rectTop : R)
| MouseLeave
| BeforeUnload.                             (* cleanup, which calls destroy *)

(** The browser empties its list of frame callbacks and runs each of them. *)
Definition runFrames (v : Variant) (now : R) (w : World) : World :=
  fold_left (fun w _ => animate v now w) (pending w)
            (mkWorld (sys w) [] (nextHandle w) (listening w) (log w)).

(** The mouse handlers are registered when [interactionEnabled] holds at
    registration; the field is not written after the constructor. *)
Definition step (v : Variant) (w : World) (e : Event) : World :=
  match e with
  | AnimationFrame now => runFrames v now w
  | VisibilityChange now hidden =>
      if listening w then onVisibilityChange v now hidden w else w
  | ResizeTimeout ow oh =>
      if listening w then resize ow oh w else w
  | MouseMove cx cy rl rt =>
      match v with
      | Enhanced =>
          if (listening w && interactionEnabled (sys w))%bool
          then onMouseMove cx cy rl rt w else w
      | Basic => w
      end
  | MouseLeave =>
      match v with
      | Enhanced =>
          if (listening w && interactionEnabled (sys w))%bool
          then onMouseLeave w else w
      | Basic => w
      end
  | BeforeUnload => destroy w
  end.

Definition run (v : Variant) (w : World) (es : list Event) : World :=
  fold_left (step v) es w.

End ParticleSystem.

(** ** The function [initializeParticles] ([src/unnamed/part_000]) *)

Module InitializeParticles.

(** The fields set by the constructor of the local class [Particle]. *)
Record Particle := mkParticle {
  x : R; y : R;
  vx : R; vy : R;
  radius : R;
  opacity : R
}.

Definition particleCount : nat := 50.
Definition connectionDistance : R := 150.

(** The variables the closures [animate] and the resize handler share, and
    the browser's frame queue. *)
Record State := mkState {
  width : nat; height : nat;   (* canvas.width, canvas.height *)
  particles : list Particle;
  pending : list nat;
  nextHandle : nat;
  log : list Effect
}.

(** [new Particle()], from the random values [rnd k], [rnd (k+1)], ... *)
Definition newParticle (wd ht : nat) (rnd : nat -> R) (k : nat) : Particle :=
  {| x := rnd k * INR wd;
     y := rnd (k + 1)%nat * INR ht;
     vx := (rnd (k + 2)%nat - 0.5) * 0.5;
     vy := (rnd (k + 3)%nat - 0.5) * 0.5;
     radius := rnd (k + 4)%nat * 2 + 1;
     opacity := rnd (k + 5)%nat * 0.5 + 0.2 |}.

(** The loop "create particles". *)
Fixpoint createParticles (wd ht : nat) (rnd : nat -> R) (k count : nat)
  : list Particle :=
  match count with
  | O => []
  | S c => newParticle wd ht rnd k :: createParticles wd ht rnd (k + 6) c
  end.

(** [Particle.update]: the velocity is reversed past an edge. *)
Definition update (wd ht : nat) (p : Particle) : Particle :=
  let x1 := x p + vx p in
  let y1 := y p + vy p in
  let vx1 :=
    if Rlt_dec x1 0 then - vx p
    else if Rgt_dec x1 (INR wd) then - vx p else vx p in
  let vy1 :=
    if Rlt_dec y1 0 then - vy p
    else if Rgt_dec y1 (INR ht) then - vy p else vy p in
  mkParticle x1 y1 vx1 vy1 (radius p) (opacity p).

(** [Particle.draw]. *)
Definition draw (p : Particle) : DrawOp :=
  Circle (x p) (y p) (radius p) (opacity p).

(** The inner callback of "draw connections". *)
Definition connect (p1 p2 : Particle) : list DrawOp :=
  let distance := hypot (x p1 - x p2) (y p1 - y p2) in
  if Rlt_dec distance connectionDistance then
    [Line (x p1) (y p1) (x p2) (y p2)
          (0.1 * (1 - distance / connectionDistance))]
  else [].

(** The block "draw connections". *)
Definition connections (ps : list Particle) : list DrawOp :=
  forEachPair connect ps.

(** The closure [animate]. *)
Definition animate (s : State) : State :=
  let ps := map (update (width s) (height s)) (particles s) in
  let h := nextHandle s in
  mkState (width s) (height s) ps (pending s ++ [h]) (S h)
          (log s
           ++ [Call Animate; Draw (ClearRect (INR (width s)) (INR (height s)))]
           ++ map (fun p => Draw (draw p)) ps
           ++ map Draw (connections ps)
           ++ [RequestFrame h]).

(** [initializeParticles()]: nothing when the canvas is missing.  Without a
    2d context the first [animate()] throws at [ctx.clearRect], after the
    particles were created and before anything is requested. *)
Definition initializeParticles (h : Host) : option State :=
  if negb (canvasPresent h) then None
  else
    let s :=
      mkState (innerWidth h) (innerHeight h)
              (createParticles (innerWidth h) (innerHeight h) (random h) 0
                               particleCount)
              [] 1 [] in
    if contextPresent h then Some (animate s) else Some s.

Inductive Event : Type :=
| AnimationFrame                   (* the requested frames run *)
| WindowResize (iw ih : nat).      (* resize, with the new inner size *)

Definition runFrames (s : State) : State :=
  fold_left (fun s _ => animate s) (pending s)
            (mkState (width s) (height s) (particles s) [] (nextHandle s)
                     (log s)).

Definition step (s : State) (e : Event) : State :=
  match e with
  | AnimationFrame => runFrames s
  | WindowResize iw ih =>
      mkState iw ih (particles s) (pending s) (nextHandle s) (log s)
  end.

Definition run (s : State) (es : list Event) : State := fold_left step es s.

End InitializeParticles.

(** ** Vocabulary of the properties *)

Module PS := ParticleSystem.
Module IP := InitializeParticles.

(** The Euclidean distance between the points [(a, b)] and [(c, d)]. *)
Definition euclid (a b c d : R) : R :=
  sqrt ((a - c) * (a - c) + (b - d) * (b - d)).

(** Linear decay of a line's opacity with the distance [d]. *)
Definition lineOpacity (threshold factor d : R) : R :=
  (1 - d / threshold) * factor.

Definition distancePS (p q : PS.Particle) : R :=
  euclid (PS.x p) (PS.y p) (PS.x q) (PS.y q).

Definition distanceIP (p q : IP.Particle) : R :=
  euclid (IP.x p) (IP.y p) (IP.x q) (IP.y q).

(** Sample particles at a given position, at rest, for the worked examples. *)
Definition dotPS (a b : R) : PS.Particle :=
  PS.mkParticle a b 0 0 0 0 1 0.5 0.01 0.

Definition dotIP (a b : R) : IP.Particle :=
  IP.mkParticle a b 0 0 1 0.5.

(** *** Positions *)

(** The coordinates of a particle right after [x += vx * deltaTime],
    [y += vy * deltaTime], before the edges are looked at. *)
Definition movedX (v : PS.Variant) (s : PS.System) (frameTime : R)
           (p : PS.Particle) : R :=
  PS.x (PS.interact v s p)
  + js_or (PS.vx (PS.interact v s p)) 0 * PS.deltaTime frameTime.

Definition movedY (v : PS.Variant) (s : PS.System) (frameTime : R)
           (p : PS.Particle) : R :=
  PS.y (PS.interact v s p)
  + js_or (PS.vy (PS.interact v s p)) 0 * PS.deltaTime frameTime.

(** The viewport expanded by the particle's radius. *)
Definition inBoundsPS (wd ht : nat) (p : PS.Particle) : Prop :=
  - PS.radius p <= PS.x p <= INR wd + PS.radius p
  /\ - PS.radius p <= PS.y p <= INR ht + PS.radius p.

Definition inBoundsIP (wd ht : nat) (p : IP.Particle) : Prop :=
  - IP.radius p <= IP.x p <= INR wd + IP.radius p
  /\ - IP.radius p <= IP.y p <= INR ht + IP.radius p.

(** A particle as the scripts create it: inside the canvas, each velocity
    component in [[-0.25, 0.25]], the radius in [[1, 3]]. *)
Definition initialisedPS (wd ht : nat) (p : PS.Particle) : Prop :=
  0 <= PS.x p <= INR wd /\ 0 <= PS.y p <= INR ht
  /\ -0.25 <= PS.vx p <= 0.25 /\ -0.25 <= PS.vy p <= 0.25
  /\ 1 <= PS.radius p <= 3.

Definition initialisedIP (wd ht : nat) (p : IP.Particle) : Prop :=
  0 <= IP.x p <= INR wd /\ 0 <= IP.y p <= INR ht
  /\ -0.25 <= IP.vx p <= 0.25 /\ -0.25 <= IP.vy p <= 0.25
  /\ 1 <= IP.radius p <= 3.

(** [Math.random()] returns a number in [[0, 1)]. *)
Definition unitStream (rnd : nat -> R) : Prop := forall k, 0 <= rnd k < 1.

(** Successive frames of the class, the clock reading [now] at each. *)
Definition framesPS (v : PS.Variant) (nows : list R) (w : PS.World)
  : PS.World :=
  fold_left (fun w now => PS.animate v now w) nows w.

(** [n] successive frames of [initializeParticles]. *)
Definition framesIP (n : nat) (s : IP.State) : IP.State :=
  Nat.iter n IP.animate s.

(** One coordinate of the bouncing particles of [initializeParticles], over a
    fixed extent [limit]: within a step's reach of the canvas, and heading
    back inside when outside. *)
Definition bouncing (limit c vel : R) : Prop :=
  -0.25 <= vel <= 0.25
  /\ -0.25 <= c <= limit + 0.25
  /\ (c < 0 -> 0 <= c + vel)
  /\ (limit < c -> c + vel <= limit).

(** What a frame of the class keeps true of every particle. *)
Definition keptPS (wd ht : nat) (p : PS.Particle) : Prop :=
  0 <= PS.radius p /\ inBoundsPS wd ht p.

(** What a frame of [initializeParticles] keeps true of every particle, the
    canvas keeping its size. *)
Definition keptIP (wd ht : nat) (p : IP.Particle) : Prop :=
  bouncing (INR wd) (IP.x p) (IP.vx p)
  /\ bouncing (INR ht) (IP.y p) (IP.vy p)
  /\ 1 <= IP.radius p.

(** A running system on an 800 x 600 canvas holding the particles [ps], and
    a state of [initializeParticles] on the same canvas, for the worked
    examples. *)
Definition sampleWorld (ps : list PS.Particle) : PS.World :=
  PS.mkWorld
    (PS.mkSystem true true 800 600 ps (List.length ps) None true 0 0 0 0 150 true)
    [] 1 false [].

Definition sampleState (ps : list IP.Particle) : IP.State :=
  IP.mkState 800 600 ps [] 1 [].

(** *** The loop and its frame handle *)

(** The guard of [animate] lets the frame run. *)
Definition running (s : PS.System) : bool :=
  (PS.isVisible s && PS.hasCtx s && PS.hasCanvas s)%bool.

(** The particles after a frame that runs at clock reading [now]. *)
Definition frameParticles (v : PS.Variant) (now : R) (s : PS.System)
  : list PS.Particle :=
  map (PS.stepParticle v (PS.set_lastFrame now s) now
                       (now - js_or (PS.lastFrame s) now))
      (PS.particles s).

(** The stored handle names the one requested frame, or there is none, and
    handles are positive. *)
Definition handleConsistent (w : PS.World) : Prop :=
  (1 <= PS.nextHandle w)%nat
  /\ match PS.animationId (PS.sys w) with
     | Some id => id <> 0%nat /\ PS.pending w = [id]
     | None => PS.pending w = []
     end.

(** Handlers are registered only on a system that has its canvas and
    context. *)
Definition listenerConsistent (w : PS.World) : Prop :=
  PS.listening w = true ->
  PS.hasCanvas (PS.sys w) = true /\ PS.hasCtx (PS.sys w) = true.

(** A system that never started: nothing requested, nothing registered, no
    particle, the particle count [count] stored, and a log that holds the
    particle count computation of the constructor followed by calls of
    [destroy] only. *)
Definition dormant (count : nat) (w : PS.World) : Prop :=
  PS.listening w = false
  /\ PS.particleCount (PS.sys w) = count
  /\ PS.pending w = []
  /\ PS.animationId (PS.sys w) = None
  /\ PS.particles (PS.sys w) = []
  /\ exists n, PS.log w = Call GetParticleCount :: repeat (Call Destroy) n.

Definition isCancelFrame (e : Effect) : bool :=
  match e with CancelFrame _ => true | _ => false end.

(** Hosts for the worked examples: a desktop browser with WebGL, and the
    same with the reduced-motion preference set. *)
Definition desktopHost : Host :=
  {| userAgent := "Mozilla/5.0 (X11; Linux x86_64) Gecko/20100101 Firefox/128.0";
     innerWidth := 1920; innerHeight := 1080;
     webgl := true; experimentalWebgl := false;
     reducedMotion := false;
     canvasPresent := true; contextPresent := true;
     canvasWidth := 300; canvasHeight := 150;
     offsetWidth := 800; offsetHeight := 600;
     random := fun _ => 0.5 |}.

Definition reducedMotionHost : Host :=
  {| userAgent := userAgent desktopHost;
     innerWidth := 1920; innerHeight := 1080;
     webgl := true; experimentalWebgl := false;
     reducedMotion := true;
     canvasPresent := true; contextPresent := true;
     canvasWidth := 300; canvasHeight := 150;
     offsetWidth := 800; offsetHeight := 600;
     random := fun _ => 0.5 |}.

(** The particle [p] with another opacity. *)
Definition withOpacity (o : R) (p : PS.Particle) : PS.Particle :=
  PS.mkParticle (PS.x p) (PS.y p) (PS.vx p) (PS.vy p) (PS.baseVx p)
                (PS.baseVy p) (PS.radius p) o (PS.pulseSpeed p) (PS.hue p).

(** *** On the machine

    Expressions of the scripts evaluated with the machine's own binary64
    arithmetic, to run them on particular values: the opacity pulse of
    [src/script.js], [0.3 + 0.2 * s] for a value [s] of [Math.sin], and the
    counter of [src/unnamed/part_000]. *)
Module Binary64.
Import Floats.

Definition pulseOpacity64 (s : float) : float :=
  (0x1.3333333333333p-2 + 0x1.999999999999ap-3 * s)%float.

(** The counter of [src/unnamed/part_000] run on the machine: the number of
    the tick at which [current >= target] first holds, within [fuel]
    ticks. *)
Fixpoint ticks64 (fuel : nat) (target increment current : float) (n : nat)
  : nat :=
  match fuel with
  | O => n
  | S f =>
      let c := (current + increment)%float in
      if PrimFloat.leb target c then S n
      else ticks64 f target increment c (S n)
  end.

(** The double of a natural number below [2^63]. *)
Definition ofZ (z : Z) : float := PrimFloat.of_uint63 (Uint63.of_Z z).

Definition counterStops (target : Z) : nat :=
  ticks64 1000 (ofZ target) (ofZ target / (2000 / 16))%float 0%float 0.

End Binary64.

(** *** The connection pass and the pulse in binary64

    [connect] and [drawConnections] of the class once more, every operation
    rounded; the fields of the particles are doubles. *)

Module ParticleSystem64.
Import Double.

(** [0.3 + 0.2 * Math.sin(...)], for the value [s] that [Math.sin]
    returned. *)
Definition pulseOpacity (s : R) : R := add (lit 0.3) (mul (lit 0.2) s).

(** [Math.random() * 2 + 1] and [Math.random() * 60 + 190] of [init], for
    the value [r] of [Math.random()]. *)
Definition radius (r : R) : R := add (mul r 2) 1.
Definition hue (r : R) : R := add (mul r 60) 190.

Definition maxDistance : R := 80.
Definition maxDistanceSquared : R := mul maxDistance maxDistance.

(** [dx * dx + dy * dy]. *)
Definition distanceSquared (particle otherParticle : PS.Particle) : R :=
  let dx := sub (PS.x particle) (PS.x otherParticle) in
  let dy := sub (PS.y particle) (PS.y otherParticle) in
  add (mul dx dx) (mul dy dy).

(** [(1 - distance / maxDistance) * 0.15], of the squared distance. *)
Definition lineOpacity (distanceSquared : R) : R :=
  let distance := Double.sqrt distanceSquared in
  mul (sub 1 (div distance maxDistance)) (lit 0.15).

Definition connect (particle otherParticle : PS.Particle) : list DrawOp :=
  let distanceSquared := distanceSquared particle otherParticle in
  if Rlt_dec distanceSquared maxDistanceSquared then
    [Line (PS.x particle) (PS.y particle)
          (PS.x otherParticle) (PS.y otherParticle)
          (lineOpacity distanceSquared)]
  else [].

Definition drawConnections (ps : list PS.Particle) : list DrawOp :=
  forEachPair connect ps.

End ParticleSystem64.

(** The block "draw connections" of [initializeParticles] once more.
    [Math.hypot] is implementation-approximated: [hypot a b] stands for the
    double it returns. *)

Module InitializeParticles64.
Import Double.

Section Hypot.
Variable hypot : R -> R -> R.

Definition distance (p1 p2 : IP.Particle) : R :=
  hypot (sub (IP.x p1) (IP.x p2)) (sub (IP.y p1) (IP.y p2)).

(** [0.1 * (1 - distance / connectionDistance)]. *)
Definition lineOpacity (distance : R) : R :=
  mul (lit 0.1) (sub 1 (div distance IP.connectionDistance)).

Definition connect (p1 p2 : IP.Particle) : list DrawOp :=
  let distance := distance p1 p2 in
  if Rlt_dec distance IP.connectionDistance then
    [Line (IP.x p1) (IP.y p1) (IP.x p2) (IP.y p2) (lineOpacity distance)]
  else [].

Definition connections (ps : list IP.Particle) : list DrawOp :=
  forEachPair connect ps.

End Hypot.

(** A [Math.hypot] that is correctly rounded, for the worked examples. *)
Definition hypotRounded (a b : R) : R :=
  Double.round (R_sqrt.sqrt (a * a + b * b)).

End InitializeParticles64.

Module PS64 := ParticleSystem64.
Module IP64 := InitializeParticles64.

(** The least value of the opacity pulse of [src/script.js] in binary64:
    [0.3 - 0.2] evaluated there, [0.09999999999999998]. *)
Definition pulseFloor : R := IZR 900719925474099 * Double.bpow (-53).

(** The range of the opacity pulse of [src/script.js]. *)
Definition pulsed (q : PS.Particle) : Prop :=
  pulseFloor <= PS.opacity q <= 0.5.

(** ** Vocabulary of the further properties *)

(** The constructor gets past its early exits. *)
Definition started (h : Host) : bool :=
  (canvasPresent h && contextPresent h && negb (reducedMotion h))%bool.

Definition isDraw (e : Effect) : bool :=
  match e with Draw _ => true | _ => false end.

(** The event tells the page became visible. *)
Definition showsPage (e : PS.Event) : bool :=
  match e with PS.VisibilityChange _ false => true | _ => false end.

(** The ranges in which [init] draws the fields of a particle.  The upper
    ends of the radius, the pulse speed and the hue are closed: in binary64
    the largest values of [Math.random()] reach them. *)
Definition initRanges (v : PS.Variant) (wd ht : nat) (p : PS.Particle) : Prop :=
  0 <= PS.x p <= INR wd /\ 0 <= PS.y p <= INR ht
  /\ -0.25 <= PS.vx p < 0.25 /\ -0.25 <= PS.vy p < 0.25
  /\ 1 <= PS.radius p <= 3
  /\ 0.2 <= PS.opacity p < 0.8
  /\ 0.01 <= PS.pulseSpeed p <= 0.03
  /\ match v with
     | PS.Basic => True
     | PS.Enhanced =>
         -0.25 <= PS.baseVx p < 0.25 /\ -0.25 <= PS.baseVy p < 0.25
         /\ 190 <= PS.hue p <= 250
     end.

(** The ranges in which [new Particle()] of [initializeParticles] draws. *)
Definition createRanges (wd ht : nat) (p : IP.Particle) : Prop :=
  0 <= IP.x p <= INR wd /\ 0 <= IP.y p <= INR ht
  /\ -0.25 <= IP.vx p < 0.25 /\ -0.25 <= IP.vy p < 0.25
  /\ 1 <= IP.radius p <= 3
  /\ 0.2 <= IP.opacity p <= 0.7.

(** The opacity of a drawn line, [None] for the other drawings. *)
Definition lineAlpha (op : DrawOp) : option R :=
  match op with Line _ _ _ _ alpha => Some alpha | _ => None end.

(** The loop is stopped: no frame requested, no handle stored. *)
Definition halted (w : PS.World) : Prop :=
  PS.pending w = [] /\ PS.animationId (PS.sys w) = None.

(** Events that do not tell that the page became visible. *)
Definition quiet (es : list PS.Event) : bool :=
  forallb (fun e => negb (showsPage e)) es.

Definition isFrameEvent (e : IP.Event) : bool :=
  match e with IP.AnimationFrame => true | IP.WindowResize _ _ => false end.

(** What the bounce of [initializeParticles] leaves of a particle: its speed
    along each axis, its radius and its opacity. *)
Definition gait (p : IP.Particle) : R * R * R * R :=
  (Rabs (IP.vx p), Rabs (IP.vy p), IP.radius p, IP.opacity p).

(** * The page scripts around the particle loops *)

(** ** Mobile navigation of [src/script.js] (and of [src/unnamed/part_001])

    The three click handlers registered when [.nav-toggle] and [.nav-menu]
    both exist.  The state is what they read and write: the class [active]
    of the toggle and of the menu, and the attribute [aria-expanded] of the
    toggle ([None] while the attribute is absent). *)

Module MobileNav.

Record Nav := mkNav {
  toggleActive : bool;            (* navToggle.classList.contains('active') *)
  menuActive : bool;              (* navMenu.classList.contains('active') *)
  ariaExpanded : option string    (* navToggle.getAttribute('aria-expanded') *)
}.

(** [setAttribute] of a boolean stores its string. *)
Definition boolString (b : bool) : string :=
  if b then "true"%string else "false"%string.

(** The [click] handler of the toggle. *)
Definition onToggleClick (n : Nav) : Nav :=
  let isActive := toggleActive n in
  mkNav (negb (toggleActive n)) (negb (menuActive n))
        (Some (boolString (negb isActive))).

(** What the other two handlers do when their guard passes. *)
Definition closeMenu (n : Nav) : Nav :=
  mkNav false false (Some (boolString false)).

(** The [click] handler of the menu; [isAnchor] is [e.target.tagName === 'A']. *)
Definition onMenuClick (isAnchor : bool) (n : Nav) : Nav :=
  if isAnchor then closeMenu n else n.

(** The [click] handler of the document; [inToggle] and [inMenu] are
    [navToggle.contains(e.target)] and [navMenu.contains(e.target)]. *)
Definition onDocumentClick (inToggle inMenu : bool) (n : Nav) : Nav :=
  if (negb inToggle && negb inMenu)%bool then closeMenu n else n.

(** One invocation of a handler. *)
Inductive Handler : Type :=
| ToggleClick
| MenuClick (isAnchor : bool)
| DocumentClick (inToggle inMenu : bool).

Definition handle (n : Nav) (h : Handler) : Nav :=
  match h with
  | ToggleClick => onToggleClick n
  | MenuClick isAnchor => onMenuClick isAnchor n
  | DocumentClick inToggle inMenu => onDocumentClick inToggle inMenu n
  end.

(** The handlers a click runs as it bubbles, for a toggle and a menu that do
    not contain each other: the element's handler, then the document's. *)
Definition click (inToggle inMenu isAnchor : bool) : list Handler :=
  (if inToggle then [ToggleClick] else [])
  ++ (if inMenu then [MenuClick isAnchor] else [])
  ++ [DocumentClick inToggle inMenu].

Definition run (n : Nav) (hs : list Handler) : Nav := fold_left handle hs n.

(** The toggle and the menu agree and [aria-expanded] says so. *)
Definition synced (n : Nav) : Prop :=
  menuActive n = toggleActive n
  /\ ariaExpanded n = Some (boolString (toggleActive n)).

End MobileNav.

(** ** Navigation of [src/unnamed/part_000] ([initializeNavigation])

    The menu toggle, the click handler of the menu links and the scroll
    handler of the navbar. *)

Module EditorialNav.

Record Nav := mkNav {
  menuActive : bool;              (* navMenu.classList.contains('active') *)
  ariaExpanded : option string;   (* navToggle.getAttribute('aria-expanded') *)
  navbarSolid : bool;             (* the opaque background and the shadow are set *)
  navbarHidden : bool;            (* transform is translateY(-100%) *)
  lastScroll : R
}.

Definition isTrue (a : option string) : bool :=
  match a with
  | Some s => String.eqb s "true"
  | None => false
  end.

(** The [click] handler of the toggle. *)
Definition onToggleClick (n : Nav) : Nav :=
  mkNav (negb (menuActive n))
        (Some (if isTrue (ariaExpanded n) then "false" else "true")%string)
        (navbarSolid n) (navbarHidden n) (lastScroll n).

(** The [click] handler of a menu link: [hash] is [href.startsWith('#')],
    [found] tells whether [document.querySelector(href)] finds the target. *)
Definition onLinkClick (hash found : bool) (n : Nav) : Nav :=
  if (hash && found)%bool
  then mkNav false (ariaExpanded n) (navbarSolid n) (navbarHidden n)
             (lastScroll n)
  else n.

(** The [scroll] handler, [currentScroll] being [window.scrollY]. *)
Definition onScroll (currentScroll : R) (n : Nav) : Nav :=
  mkNav (menuActive n) (ariaExpanded n)
        (if Rgt_dec currentScroll 100 then true else false)
        (if Rgt_dec currentScroll (lastScroll n)
         then (if Rgt_dec currentScroll 200 then true else false)
         else false)
        currentScroll.

Inductive Event : Type :=
| ToggleClick
| LinkClick (hash found : bool)
| Scroll (currentScroll : R).

Definition step (n : Nav) (e : Event) : Nav :=
  match e with
  | ToggleClick => onToggleClick n
  | LinkClick hash found => onLinkClick hash found n
  | Scroll c => onScroll c n
  end.

Definition run (n : Nav) (es : list Event) : Nav := fold_left step es n.

Definition isToggleClick (e : Event) : bool :=
  match e with ToggleClick => true | _ => false end.

End EditorialNav.

Module MN := MobileNav.
Module EN := EditorialNav.

(** ** The subtitle typewriter of [src/unnamed/part_000]
       ([initializeTypeWriter]) *)

Module TypeWriter.

Definition subtitles : list string :=
  ["AI Researcher at KAIST"; "Machine Learning Engineer";
   "Computer Science Student"; "Innovation Through Research"]%string.

(** The variables of the closure, and the text of [.hero-subtitle]. *)
Record State := mkState {
  subtitleIndex : nat;
  charIndex : Z;
  isDeleting : bool;
  typeSpeed : Z;           (* the delay of the next [setTimeout(type, ...)] *)
  textContent : string
}.

(** [s.substring(0, e)]: an end below 0 counts as 0, one beyond the length
    as the length. *)
Definition substring0 (s : string) (e : Z) : string :=
  String.substring 0 (Z.to_nat e) s.

(** The function [type], over the array [subs] it reads as [subtitles]. *)
Definition type (subs : list string) (st : State) : State :=
  let currentSubtitle := nth (subtitleIndex st) subs EmptyString in
  let st1 :=
    if isDeleting st then
      mkState (subtitleIndex st) (charIndex st - 1) (isDeleting st) 50
              (substring0 currentSubtitle (charIndex st - 1))
    else
      mkState (subtitleIndex st) (charIndex st + 1) (isDeleting st) 100
              (substring0 currentSubtitle (charIndex st + 1)) in
  if (negb (isDeleting st1)
      && Z.eqb (charIndex st1) (Z.of_nat (String.length currentSubtitle)))%bool
  then mkState (subtitleIndex st1) (charIndex st1) true 2000 (textContent st1)
  else if (isDeleting st1 && Z.eqb (charIndex st1) 0)%bool
  then mkState ((subtitleIndex st1 + 1) mod List.length subs) (charIndex st1)
               false 500 (textContent st1)
  else st1.

(** The closure as [initializeTypeWriter] leaves it, the element still
    holding the text [markup] of the page. *)
Definition start (markup : string) : State := mkState 0 0 false 100 markup.

(** The subtitle being typed or erased. *)
Definition current (subs : list string) (st : State) : string :=
  nth (subtitleIndex st) subs EmptyString.

(** What every call of [type] keeps. *)
Definition wellFormed (subs : list string) (st : State) : Prop :=
  (subtitleIndex st < List.length subs)%nat
  /\ (0 <= charIndex st <= Z.of_nat (String.length (current subs st)))%Z
  /\ (isDeleting st = false ->
      (charIndex st < Z.of_nat (String.length (current subs st)))%Z)
  /\ (isDeleting st = true -> (0 < charIndex st)%Z).

(** The element shows the first [charIndex] characters of the subtitle. *)
Definition showsPrefix (subs : list string) (st : State) : Prop :=
  textContent st = substring0 (current subs st) (charIndex st).

End TypeWriter.

Module TW := TypeWriter.

(** ** The hero title typewriter of [src/script.js] (and of
       [src/unnamed/part_001]) *)

Module HeroTitle.

(** The children of [.hero h1] that the script deals with: text nodes, and
    the [span] it creates for the blinking cursor, whose text is ["|"]. *)
Inductive Node : Type :=
| TextNode (data : string)
| CursorSpan.

Definition nodeText (n : Node) : string :=
  match n with
  | TextNode data => data
  | CursorSpan => "|"%string
  end.

(** The getter of [textContent]: the text of all descendants, in order. *)
Definition getTextContent (children : list Node) : string :=
  fold_right String.append EmptyString (map nodeText children).

(** The setter of [textContent]: every child is removed and, unless the
    string is empty, one text node is put in their place. *)
Definition setTextContent (s : string) : list Node :=
  match s with
  | EmptyString => []
  | _ => [TextNode s]
  end.

(** [text.charAt(i)]: the character as a string, empty out of range. *)
Definition charAt (s : string) (i : nat) : string :=
  match String.get i s with
  | Some c => String c EmptyString
  | None => EmptyString
  end.

Record State := mkState {
  children : list Node;    (* of heroTitle *)
  i : nat;
  typing : bool            (* a [setTimeout(typeWriter, 150)] is outstanding *)
}.

(** The set-up: [heroTitle.textContent = ''], then
    [heroTitle.appendChild(cursor)], then [setTimeout(typeWriter, 1500)]. *)
Definition setup : State :=
  mkState (setTextContent EmptyString ++ [CursorSpan]) 0 true.

(** One run of [typeWriter], [text] being the title read at set-up. *)
Definition typeWriter (text : string) (st : State) : State :=
  if negb (typing st) then st
  else if Nat.ltb (i st) (String.length text) then
    mkState (setTextContent (getTextContent (children st) ++ charAt text (i st)))
            (i st + 1) true
  else mkState (children st) (i st) false.

End HeroTitle.

Module HT := HeroTitle.

(** ** The counters of [src/unnamed/part_000] ([initializeScrollAnimations])

    [target] is the integer that [parseInt] read, below [2^53] in absolute
    value. *)

Module Counter.

(** [Math.floor]. *)
Definition floor (r : R) : Z := Int_part r.

Definition duration : R := 2000.

(** [const increment = target / (duration / 16)].  The counters run in
    binary64: the sum of 125 increments is not the target in general. *)
Definition increment (target : Z) : R :=
  Double.div (IZR target) (Double.div duration 16).

Record State := mkState {
  current : R;
  active : bool;            (* the interval has not been cleared *)
  textContent : option Z    (* the number shown, [None] before the first tick *)
}.

Definition start : State := mkState 0 true None.

(** The callback of [setInterval]. *)
Definition tick (target : Z) (st : State) : State :=
  if negb (active st) then st
  else
    let c := Double.add (current st) (increment target) in
    if Rge_dec c (IZR target)
    then mkState (IZR target) false (Some (floor (IZR target)))
    else mkState c true (Some (floor c)).

End Counter.

(** ** The custom cursor of [src/unnamed/part_000] ([initializeCustomCursor]) *)

Module CustomCursor.

Record State := mkState {
  mouseX : R; mouseY : R;
  cursorX : R; cursorY : R;
  dotX : R; dotY : R
}.

Definition start : State := mkState 0 0 0 0 0 0.

(** The [mousemove] handler. *)
Definition onMouseMove (clientX clientY : R) (st : State) : State :=
  mkState clientX clientY (cursorX st) (cursorY st) (dotX st) (dotY st).

(** [animateCursor], which requests itself for the next frame. *)
Definition animateCursor (st : State) : State :=
  mkState (mouseX st) (mouseY st)
          (cursorX st + (mouseX st - cursorX st) * 0.1)
          (cursorY st + (mouseY st - cursorY st) * 0.1)
          (dotX st + (mouseX st - dotX st) * 0.9)
          (dotY st + (mouseY st - dotY st) * 0.9).

(** [cursor.style.left] and [cursor.style.top], in pixels. *)
Definition cursorLeft (st : State) : R := cursorX st - 20.
Definition cursorTop (st : State) : R := cursorY st - 20.

End CustomCursor.

Module CC := CustomCursor.

(** ** [requestTick] of [src/unnamed/part_000] *)

Module RequestTick.

Record State := mkState {
  ticking : bool;
  requested : nat     (* callbacks handed to requestAnimationFrame, not yet run *)
}.

Definition start : State := mkState false 0.

(** [requestTick(callback)]. *)
Definition requestTick (st : State) : State :=
  if negb (ticking st) then mkState true (requested st + 1) else st.

(** The callback that [performanceOptimizedScroll] passes: [ticking = false]. *)
Definition callback (st : State) : State := mkState false (requested st).

Inductive Event : Type :=
| Scroll            (* the scroll handler calls requestTick *)
| Frame.            (* the browser runs the requested callbacks *)

Definition step (st : State) (e : Event) : State :=
  match e with
  | Scroll => requestTick st
  | Frame => Nat.iter (requested st) callback (mkState (ticking st) 0)
  end.

Definition run (st : State) (es : list Event) : State := fold_left step es st.

End RequestTick.

Module RT := RequestTick.

(** ** The particle trail of [src/unnamed/part_001] ([initParticleTrail]) *)

Module ParticleTrail.

(** A trail element, with the clock reading at which it was appended. *)
Record Trail := mkTrail { born : Z; left : R; top : R }.

Record State := mkState {
  enabled : bool;          (* the handler was registered: innerWidth > 768 *)
  lastTrailTime : Z;
  trails : list Trail      (* appended elements, oldest first *)
}.

Definition initParticleTrail (innerWidth : nat) : State :=
  mkState (negb (Nat.leb innerWidth 768)) 0 [].

(** The [mousemove] handler: [now] is [Date.now()], [rnd] the value of
    [Math.random()] should the handler reach it. *)
Definition onMouseMove (now : Z) (rnd clientX clientY : R) (st : State)
  : State :=
  if negb (enabled st) then st
  else if Z.ltb (now - lastTrailTime st) 50 then st
  else if Rgt_dec rnd 0.7
       then mkState (enabled st) now
                    (trails st ++ [mkTrail now clientX clientY])
       else mkState (enabled st) now (trails st).

Record Move := mkMove { at_ : Z; rnd : R; clientX : R; clientY : R }.

Definition run (st : State) (ms : list Move) : State :=
  fold_left (fun s m => onMouseMove (at_ m) (rnd m) (clientX m) (clientY m) s)
            ms st.

(** Successive elements of [l] are at least 50 ms apart, the first one at
    least 50 ms after [t]. *)
Fixpoint spaced (t : Z) (l : list Z) : Prop :=
  match l with
  | [] => True
  | a :: rest => (t + 50 <= a)%Z /\ spaced a rest
  end.

End ParticleTrail.

Module PT := ParticleTrail.

(** What the throttle keeps: the trail elements are spaced and none is newer
    than [lastTrailTime]. *)
Definition throttled (st : PT.State) : Prop :=
  (0 <= PT.lastTrailTime st)%Z
  /\ PT.spaced 0 (map PT.born (PT.trails st))
  /\ Forall (fun t => (PT.born t <= PT.lastTrailTime st)%Z) (PT.trails st).

(** ** The card tilt of [src/unnamed/part_001] ([init3DCards]) *)

Module Tilt.

(** What the [mousemove] handler of a card sets, for a pointer at
    [(clientX, clientY)] over a card whose bounding rectangle has its corner
    at [(left, top)] and the size [width] x [height]: [--rotate-x] and
    [--rotate-y] in degrees, [--mouse-x] and [--mouse-y] in percent. *)
Record Style := mkStyle { rotateX : R; rotateY : R; mouseX : R; mouseY : R }.

Definition onMouseMove (clientX clientY left top width height : R) : Style :=
  let x := clientX - left in
  let y := clientY - top in
  let centerX := width / 2 in
  let centerY := height / 2 in
  mkStyle (((y - centerY) / centerY) * -10)
          (((x - centerX) / centerX) * 10)
          ((x / width) * 100)
          ((y / height) * 100).

End Tilt.
(** * Binary64 rounding

    [Double.round] is monotone, leaves the doubles as they are, is within
    half a unit in the last place of its argument, and returns a double
    than which none is nearer. *)

Module DoubleFacts.
Import Double.

Lemma bpow_pos e : 0 < bpow e.
Proof. apply powerRZ_lt. lra. Qed.

Lemma bpow_plus a b : bpow (a + b) = bpow a * bpow b.
Proof. apply powerRZ_add. lra. Qed.

Lemma bpow_IZR e : (0 <= e)%Z -> bpow e = IZR (2 ^ e).
Proof.
  intro He. unfold bpow. destruct e as [|p|p]; [reflexivity| |lia].
  change (2 ^ Z.pos p)%Z with (Z.pow_pos 2 p).
  rewrite Zpower_pos_powerRZ. reflexivity.
Qed.

Lemma bpow_ge_1 e : (0 <= e)%Z -> 1 <= bpow e.
Proof.
  intro He. rewrite bpow_IZR by exact He. apply IZR_le.
  pose proof (Z.pow_pos_nonneg 2 e). lia.
Qed.

Lemma bpow_le a b : (a <= b)%Z -> bpow a <= bpow b.
Proof.
  intro H. replace b with (a + (b - a))%Z by lia. rewrite bpow_plus.
  pose proof (bpow_pos a). pose proof (bpow_ge_1 (b - a) ltac:(lia)). nra.
Qed.

Lemma bpow_lt a b : (a < b)%Z -> bpow a < bpow b.
Proof.
  intro H. replace b with (a + 1 + (b - a - 1))%Z by lia.
  rewrite !bpow_plus. change (bpow 1) with (powerRZ 2 1). rewrite powerRZ_1.
  pose proof (bpow_pos a). pose proof (bpow_ge_1 (b - a - 1) ltac:(lia)). nra.
Qed.

Lemma bpow_lt_inv a b : bpow a < bpow b -> (a < b)%Z.
Proof.
  intro H. destruct (Z_lt_le_dec a b) as [Hlt|Hle]; [exact Hlt|].
  pose proof (bpow_le b a Hle). lra.
Qed.

Lemma bpow_opp e : bpow (- e) = / bpow e.
Proof. apply powerRZ_neg'. Qed.

Lemma bpow_cancel e : bpow e * bpow (- e) = 1.
Proof. rewrite <- bpow_plus. replace (e + - e)%Z with 0%Z by lia. reflexivity. Qed.

(** Floor. *)

Lemma floor_bounds r : IZR (Int_part r) <= r < IZR (Int_part r) + 1.
Proof. pose proof (base_Int_part r). lra. Qed.

Lemma Int_part_IZR n : Int_part (IZR n) = n.
Proof. symmetry. apply Int_part_spec. lra. Qed.

Lemma floor_le r r' : r <= r' -> (Int_part r <= Int_part r')%Z.
Proof.
  intro H. pose proof (floor_bounds r). pose proof (floor_bounds r').
  assert (IZR (Int_part r) < IZR (Int_part r' + 1)) by (rewrite plus_IZR; lra).
  apply lt_IZR in H2. lia.
Qed.

(** Rounding to the nearest integer. *)

Lemma nearestEven_floor r :
  nearestEven r = Int_part r \/ nearestEven r = (Int_part r + 1)%Z.
Proof.
  unfold nearestEven.
  destruct (Rlt_dec _ _); [left; reflexivity|].
  destruct (Rlt_dec _ _); [right; reflexivity|].
  destruct (Z.even _); [left | right]; reflexivity.
Qed.

Lemma nearestEven_error r : Rabs (IZR (nearestEven r) - r) <= 1 / 2.
Proof.
  pose proof (floor_bounds r) as Hf. unfold nearestEven.
  destruct (Rlt_dec _ _) as [H1|H1].
  - apply Rabs_le. lra.
  - destruct (Rlt_dec _ _) as [H2|H2].
    + rewrite plus_IZR. apply Rabs_le. lra.
    + destruct (Z.even _); [|rewrite plus_IZR]; apply Rabs_le; lra.
Qed.

Lemma nearestEven_pin r n : Rabs (r - IZR n) < 1 / 2 -> nearestEven r = n.
Proof.
  intro H. apply Rabs_def2 in H.
  pose proof (floor_bounds r) as Hf.
  assert (Hc : (Int_part r = n \/ Int_part r = n - 1)%Z).
  { assert (IZR (n - 1) < IZR (Int_part r + 1)) by (rewrite plus_IZR, minus_IZR; lra).
    assert (IZR (Int_part r) < IZR (n + 1)) by (rewrite plus_IZR; lra).
    apply lt_IZR in H0, H1. lia. }
  unfold nearestEven. destruct Hc as [Hc|Hc]; rewrite Hc in *.
  - destruct (Rlt_dec _ _) as [H1|H1]; [reflexivity|]. exfalso. lra.
  - rewrite minus_IZR in *.
    destruct (Rlt_dec _ _) as [H1|H1]; [exfalso; lra|].
    destruct (Rlt_dec _ _) as [H2|H2]; [lia|]. exfalso. lra.
Qed.

Lemma nearestEven_IZR n : nearestEven (IZR n) = n.
Proof. apply nearestEven_pin. rewrite Rminus_diag, Rabs_R0. lra. Qed.

Lemma nearestEven_tie n :
  nearestEven (IZR n + 1 / 2) = if Z.even n then n else (n + 1)%Z.
Proof.
  assert (Hf : Int_part (IZR n + 1 / 2) = n)
    by (symmetry; apply Int_part_spec; lra).
  unfold nearestEven. rewrite Hf.
  destruct (Rlt_dec _ _) as [H1|H1]; [exfalso; lra|].
  destruct (Rlt_dec _ _) as [H2|H2]; [exfalso; lra|]. reflexivity.
Qed.

Lemma nearestEven_le r r' : r <= r' -> (nearestEven r <= nearestEven r')%Z.
Proof.
  intro H. pose proof (floor_le r r' H) as Hf.
  destruct (Z.eq_dec (Int_part r) (Int_part r')) as [He|Hne].
  - unfold nearestEven. rewrite <- He.
    destruct (Rlt_dec (r - _) _) as [H1|H1].
    + destruct (Rlt_dec (r' - _) _); [lia|].
      destruct (Rlt_dec _ (r' - _)); [lia|]. destruct (Z.even _); lia.
    + destruct (Rlt_dec _ (r - _)) as [H2|H2].
      * destruct (Rlt_dec (r' - _) _); [exfalso; lra|].
        destruct (Rlt_dec _ (r' - _)); [lia|]. exfalso. lra.
      * destruct (Rlt_dec (r' - _) _); [exfalso; lra|].
        destruct (Rlt_dec _ (r' - _)); [|lia]. destruct (Z.even _); lia.
  - destruct (nearestEven_floor r), (nearestEven_floor r'); lia.
Qed.

(** The exponent. *)

Lemma mag_spec x : x <> 0 -> bpow (mag x) <= Rabs x < bpow (mag x + 1).
Proof.
  intro Hx. assert (Ha : 0 < Rabs x) by (apply Rabs_pos_lt; exact Hx).
  assert (Hl2 : 0 < ln 2) by (rewrite <- ln_1; apply ln_increasing; lra).
  unfold mag. set (t := ln (Rabs x) / ln 2).
  pose proof (floor_bounds t) as Hf.
  assert (Et : Rabs x = exp (t * ln 2)).
  { unfold t. replace (ln (Rabs x) / ln 2 * ln 2) with (ln (Rabs x))
      by (field; lra). symmetry. apply exp_ln. exact Ha. }
  unfold bpow. rewrite !powerRZ_Rpower by lra. unfold Rpower.
  rewrite Et, plus_IZR. split.
  - destruct (Req_dec (IZR (Int_part t)) t) as [E|N].
    + rewrite E. lra.
    + left. apply exp_increasing. nra.
  - apply exp_increasing. nra.
Qed.

Lemma mag_unique x k : bpow k <= Rabs x < bpow (k + 1) -> mag x = k.
Proof.
  intros [H1 H2].
  assert (Hx : x <> 0).
  { intro E. rewrite E, Rabs_R0 in H1. pose proof (bpow_pos k). lra. }
  destruct (mag_spec x Hx) as [M1 M2].
  assert (mag x < k + 1)%Z by (apply bpow_lt_inv; lra).
  assert (k < mag x + 1)%Z by (apply bpow_lt_inv; lra).
  lia.
Qed.

Lemma mag_le x y : x <> 0 -> Rabs x <= Rabs y -> (mag x <= mag y)%Z.
Proof.
  intros Hx H.
  assert (Hy : y <> 0).
  { intro E. rewrite E, Rabs_R0 in H. pose proof (Rabs_pos_lt x Hx). lra. }
  destruct (mag_spec x Hx) as [M1 _]. destruct (mag_spec y Hy) as [_ N2].
  assert (mag x < mag y + 1)%Z by (apply bpow_lt_inv; lra). lia.
Qed.

(** Rounding. *)

Lemma scaled_back c b : b <> 0 -> c * b / b = c.
Proof. intro H. field. exact H. Qed.

Lemma mult_assoc_left a b c : a * (b * c) = a * b * c.
Proof. ring. Qed.

Lemma round_0 : round 0 = 0.
Proof.
  unfold round. replace (0 / bpow (exponent 0)) with (IZR 0)
    by (unfold Rdiv; rewrite Rmult_0_l; reflexivity).
  rewrite nearestEven_IZR. lra.
Qed.

Lemma round_le_multiple x n :
  x <= IZR n * bpow (exponent x) -> round x <= IZR n * bpow (exponent x).
Proof.
  intro H. unfold round. pose proof (bpow_pos (exponent x)) as Hp.
  apply Rmult_le_compat_r; [lra|]. apply IZR_le.
  rewrite <- (nearestEven_IZR n). apply nearestEven_le.
  apply Rmult_le_reg_r with (bpow (exponent x)); [exact Hp|].
  unfold Rdiv. rewrite Rmult_assoc, Rinv_l by lra. lra.
Qed.

Lemma round_ge_multiple x n :
  IZR n * bpow (exponent x) <= x -> IZR n * bpow (exponent x) <= round x.
Proof.
  intro H. unfold round. pose proof (bpow_pos (exponent x)) as Hp.
  apply Rmult_le_compat_r; [lra|]. apply IZR_le.
  rewrite <- (nearestEven_IZR n) at 1. apply nearestEven_le.
  apply Rmult_le_reg_r with (bpow (exponent x)); [exact Hp|].
  unfold Rdiv. rewrite Rmult_assoc, Rinv_l by lra. lra.
Qed.

Lemma bpow_multiple k e : (e <= k)%Z -> bpow k = IZR (2 ^ (k - e)) * bpow e.
Proof.
  intro H. rewrite <- bpow_IZR by lia. rewrite <- bpow_plus. f_equal. lia.
Qed.

Lemma exponent_le_mag x : (-1074 < exponent x)%Z -> (exponent x <= mag x)%Z.
Proof. unfold exponent. lia. Qed.

Lemma round_le x y : x <= y -> round x <= round y.
Proof.
  intro H.
  destruct (Z.eq_dec (exponent x) (exponent y)) as [E|N].
  - unfold round. rewrite E. pose proof (bpow_pos (exponent y)) as Hp.
    apply Rmult_le_compat_r; [lra|]. apply IZR_le, nearestEven_le.
    unfold Rdiv. apply Rmult_le_compat_r; [|exact H].
    left. apply Rinv_0_lt_compat. exact Hp.
  - destruct (Rle_dec x 0) as [Hx0|Hx0]; [destruct (Rle_dec 0 y) as [Hy0|Hy0]|].
    + (* x <= 0 <= y *)
      apply Rle_trans with 0.
      * replace 0 with (IZR 0 * bpow (exponent x)) by lra.
        apply round_le_multiple. lra.
      * replace 0 with (IZR 0 * bpow (exponent y)) by lra.
        apply round_ge_multiple. lra.
    + (* x <= y < 0 *)
      assert (Hy : y <> 0) by lra. assert (Hx : x <> 0) by lra.
      assert (Hm : (mag y <= mag x)%Z).
      { apply mag_le; [exact Hy|]. rewrite !Rabs_left by lra. lra. }
      assert (Hlt : (mag y < mag x)%Z).
      { destruct (Z.eq_dec (mag y) (mag x)) as [Em|]; [|lia].
        exfalso. apply N. unfold exponent. rewrite Em. reflexivity. }
      assert (Hex : (exponent y <= exponent x)%Z) by (unfold exponent; lia).
      assert (Hex' : (exponent x <= mag x)%Z) by (unfold exponent in *; lia).
      destruct (mag_spec x Hx) as [M1 _]. destruct (mag_spec y Hy) as [_ N2].
      rewrite Rabs_left in M1, N2 by lra.
      assert (Hb : bpow (mag y + 1) <= bpow (mag x)) by (apply bpow_le; lia).
      apply Rle_trans with (- bpow (mag x)).
      * assert (Ec : - bpow (mag x)
                     = IZR (- 2 ^ (mag x - exponent x)) * bpow (exponent x)).
        { rewrite opp_IZR, (bpow_multiple (mag x) (exponent x)) at 1 by lia.
          ring. }
        rewrite Ec. apply round_le_multiple. rewrite <- Ec. lra.
      * assert (Ec : - bpow (mag x)
                     = IZR (- 2 ^ (mag x - exponent y)) * bpow (exponent y)).
        { rewrite opp_IZR, (bpow_multiple (mag x) (exponent y)) at 1 by lia.
          ring. }
        rewrite Ec. apply round_ge_multiple. rewrite <- Ec. lra.
    + (* 0 < x <= y *)
      assert (Hy : y <> 0) by lra. assert (Hx : x <> 0) by lra.
      assert (Hm : (mag x <= mag y)%Z).
      { apply mag_le; [exact Hx|]. rewrite !Rabs_right by lra. lra. }
      assert (Hlt : (mag x < mag y)%Z).
      { destruct (Z.eq_dec (mag x) (mag y)) as [Em|]; [|lia].
        exfalso. apply N. unfold exponent. rewrite Em. reflexivity. }
      assert (Hex : (exponent x <= exponent y)%Z) by (unfold exponent; lia).
      assert (Hex' : (exponent y <= mag y)%Z) by (unfold exponent in *; lia).
      destruct (mag_spec x Hx) as [_ M2]. destruct (mag_spec y Hy) as [N1 _].
      rewrite Rabs_right in M2, N1 by lra.
      assert (Hb : bpow (mag x + 1) <= bpow (mag y)) by (apply bpow_le; lia).
      apply Rle_trans with (bpow (mag y)).
      * pose proof (bpow_multiple (mag y) (exponent x) ltac:(lia)) as Ec.
        rewrite Ec. apply round_le_multiple. rewrite <- Ec. lra.
      * pose proof (bpow_multiple (mag y) (exponent y) ltac:(lia)) as Ec.
        rewrite Ec. apply round_ge_multiple. rewrite <- Ec. lra.
Qed.

Lemma round_exact x : double x -> round x = x.
Proof.
  intros (m & e & Hm & He & ->).
  destruct (Z.eq_dec m 0) as [->|Hm0].
  { rewrite Rmult_0_l. apply round_0. }
  set (x := IZR m * bpow e).
  assert (Hx : x <> 0).
  { unfold x. pose proof (bpow_pos e). apply Rmult_integral_contrapositive.
    split; [|lra]. intro E. apply eq_IZR in E. lia. }
  assert (Hlt : Rabs x < bpow (53 + e)).
  { unfold x. rewrite Rabs_mult, (Rabs_right (bpow e))
      by (left; apply bpow_pos).
    rewrite bpow_plus, (bpow_IZR 53) by lia.
    apply Rmult_lt_compat_r; [apply bpow_pos|].
    rewrite <- abs_IZR. apply IZR_lt. exact Hm. }
  destruct (mag_spec x Hx) as [M1 _].
  assert (Hmag : (mag x < 53 + e)%Z) by (apply bpow_lt_inv; lra).
  assert (Hex : (exponent x <= e)%Z) by (unfold exponent; lia).
  set (ex := exponent x) in *.
  assert (Ex : x = IZR (m * 2 ^ (e - ex)) * bpow ex).
  { unfold x. rewrite mult_IZR, (bpow_multiple e ex) by lia. apply mult_assoc_left. }
  unfold round. fold ex.
  assert (Es : x / bpow ex = IZR (m * 2 ^ (e - ex))).
  { rewrite Ex at 1. apply scaled_back. pose proof (bpow_pos ex). lra. }
  rewrite Es, nearestEven_IZR. symmetry. exact Ex.
Qed.

Lemma round_error x : Rabs (round x - x) <= bpow (exponent x) / 2.
Proof.
  pose proof (bpow_pos (exponent x)) as Hp.
  pose proof (nearestEven_error (x / bpow (exponent x))) as H.
  unfold round.
  replace (IZR (nearestEven (x / bpow (exponent x))) * bpow (exponent x) - x)
    with ((IZR (nearestEven (x / bpow (exponent x))) - x / bpow (exponent x))
          * bpow (exponent x)) by (field; lra).
  rewrite Rabs_mult, (Rabs_right (bpow _)) by lra. nra.
Qed.

Lemma round_pin x k n :
  bpow k <= Rabs x < bpow (k + 1) -> (-1022 <= k)%Z ->
  Rabs (x - IZR n * bpow (k - 52)) < bpow (k - 52) / 2 ->
  round x = IZR n * bpow (k - 52).
Proof.
  intros Hk Hn H. pose proof (mag_unique x k Hk) as Hm.
  assert (He : exponent x = (k - 52)%Z) by (unfold exponent; lia).
  unfold round. rewrite He. f_equal. f_equal. apply nearestEven_pin.
  pose proof (bpow_pos (k - 52)) as Hp.
  replace (x / bpow (k - 52) - IZR n)
    with ((x - IZR n * bpow (k - 52)) * / bpow (k - 52)) by (field; lra).
  rewrite Rabs_mult, (Rabs_right (/ _))
    by (left; apply Rinv_0_lt_compat; exact Hp).
  apply Rmult_lt_reg_r with (bpow (k - 52)); [exact Hp|].
  rewrite Rmult_assoc, Rinv_l by lra. lra.
Qed.

Lemma bpow_neg_pos p : bpow (Z.neg p) = / IZR (Z.pow_pos 2 p).
Proof.
  change (Z.neg p) with (- Z.pos p)%Z. rewrite bpow_opp. f_equal.
  apply (bpow_IZR (Z.pos p)). lia.
Qed.

Lemma bpow_pos_pos p : bpow (Z.pos p) = IZR (Z.pow_pos 2 p).
Proof. apply (bpow_IZR (Z.pos p)). lia. Qed.

Lemma bpow_0 : bpow 0 = 1.
Proof. reflexivity. Qed.

Ltac bpow_num :=
  repeat match goal with
  | |- context [bpow (Z.neg ?p)] =>
      let v := eval vm_compute in (Z.pow_pos 2 p) in
      rewrite (bpow_neg_pos p); change (Z.pow_pos 2 p) with v
  | |- context [bpow (Z.pos ?p)] =>
      let v := eval vm_compute in (Z.pow_pos 2 p) in
      rewrite (bpow_pos_pos p); change (Z.pow_pos 2 p) with v
  | |- context [bpow 0] => rewrite bpow_0
  end.

Ltac round_lit k n :=
  apply (round_pin _ k n);
  [ simpl Z.add; bpow_num; rewrite Rabs_pos_eq by lra; lra
  | lia
  | simpl Z.sub; bpow_num; apply Rabs_def1; lra ].

Lemma round_tie x k n :
  bpow k <= Rabs x < bpow (k + 1) -> (-1022 <= k)%Z ->
  x = (IZR n + 1 / 2) * bpow (k - 52) ->
  round x = IZR (if Z.even n then n else n + 1) * bpow (k - 52).
Proof.
  intros Hk Hn H. pose proof (mag_unique x k Hk) as Hm.
  assert (He : exponent x = (k - 52)%Z) by (unfold exponent; lia).
  unfold round. rewrite He. f_equal. f_equal.
  rewrite <- nearestEven_tie. f_equal. rewrite H.
  apply scaled_back. pose proof (bpow_pos (k - 52)). lra.
Qed.

Lemma round_nonneg x : 0 <= x -> 0 <= round x.
Proof. intro H. rewrite <- round_0. apply round_le. exact H. Qed.

Lemma double_IZR n : (Z.abs n < 2 ^ 53)%Z -> double (IZR n).
Proof.
  intro H. exists n, 0%Z. split; [exact H|]. split; [lia|].
  rewrite bpow_0. ring.
Qed.

Lemma round_IZR n : (Z.abs n < 2 ^ 53)%Z -> round (IZR n) = IZR n.
Proof. intro H. apply round_exact, double_IZR, H. Qed.

Lemma double_opp x : double x -> double (- x).
Proof.
  intros (m & e & Hm & He & ->). exists (- m)%Z, e.
  split; [lia|]. split; [exact He|]. rewrite opp_IZR. ring.
Qed.

(** The error of one rounding: relative [2^-53], or half the spacing of the
    subnormal numbers. *)
Lemma round_error_abs x :
  Rabs (round x - x) <= Rabs x * bpow (-53) + bpow (-1075).
Proof.
  pose proof (round_error x) as He.
  pose proof (bpow_pos (-53)) as H53. pose proof (bpow_pos (-1075)) as Hs.
  pose proof (Rabs_pos x) as Hx.
  destruct (Z_le_gt_dec (mag x - 52) (-1074)) as [Hsub|Hnorm].
  - assert (E : exponent x = (-1074)%Z) by (unfold exponent; lia).
    rewrite E in He.
    replace (bpow (-1074) / 2) with (bpow (-1075)) in He.
    + nra.
    + replace (-1074)%Z with (-1075 + 1)%Z by lia. rewrite bpow_plus.
      change (bpow 1) with (powerRZ 2 1). rewrite powerRZ_1. field.
  - assert (E : exponent x = (mag x - 52)%Z) by (unfold exponent; lia).
    rewrite E in He.
    destruct (Req_dec x 0) as [->|Hx0].
    + rewrite round_0, Rminus_diag, Rabs_R0. nra.
    + destruct (mag_spec x Hx0) as [M _].
      replace (bpow (mag x - 52) / 2) with (bpow (mag x) * bpow (-53)) in He.
      * nra.
      * replace (mag x - 52)%Z with (mag x + (-53) + 1)%Z by lia.
        rewrite !bpow_plus. change (bpow 1) with (powerRZ 2 1).
        rewrite powerRZ_1. field.
Qed.

Lemma Rabs_bound x a : Rabs x <= a -> - a <= x <= a.
Proof. unfold Rabs. destruct (Rcase_abs x); lra. Qed.

(** The same with plain numbers: [2^53] and, for the subnormal term,
    [2^60]. *)
Lemma round_error_le (x B : R) :
  Rabs x <= B ->
  Rabs (round x - x)
  <= B / 9007199254740992 + / 1152921504606846976.
Proof.
  intro H. pose proof (round_error_abs x) as He.
  assert (E53 : bpow (-53) = / 9007199254740992)
    by (bpow_num; reflexivity).
  assert (E60 : bpow (-60) = / 1152921504606846976)
    by (bpow_num; reflexivity).
  pose proof (bpow_le (-1075) (-60) ltac:(lia)) as Hs.
  rewrite E53 in He. rewrite E60 in Hs.
  pose proof (Rabs_pos x). nra.
Qed.

(** Rounding stays among the doubles. *)
Lemma round_double x : Rabs x < bpow 1023 -> double (round x).
Proof.
  intro Hx.
  destruct (Req_dec x 0) as [->|Hx0].
  { rewrite round_0. exists 0%Z, 0%Z. split; [lia|]. split; [lia|]. ring. }
  set (e := exponent x).
  assert (He : (-1074 <= e <= 970)%Z).
  { unfold e, exponent. split; [lia|].
    destruct (mag_spec x Hx0) as [M _].
    assert (mag x < 1023)%Z by (apply bpow_lt_inv; lra). lia. }
  assert (Hs : Rabs (x / bpow e) <= IZR (2 ^ 53)).
  { pose proof (bpow_pos e) as Hp.
    unfold Rdiv. rewrite Rabs_mult, (Rabs_right (/ bpow e))
      by (left; apply Rinv_0_lt_compat; exact Hp).
    apply Rmult_le_reg_r with (bpow e); [exact Hp|].
    rewrite Rmult_assoc, Rinv_l, Rmult_1_r by lra.
    rewrite <- (bpow_IZR 53), <- bpow_plus by lia.
    destruct (mag_spec x Hx0) as [_ M].
    apply Rle_trans with (bpow (mag x + 1)); [lra|].
    apply bpow_le. unfold e, exponent. lia. }
  apply Rabs_bound in Hs. destruct Hs as [Hs1 Hs2].
  assert (HN : (- 2 ^ 53 <= nearestEven (x / bpow e) <= 2 ^ 53)%Z).
  { split.
    - rewrite <- (nearestEven_IZR (- 2 ^ 53)). apply nearestEven_le.
      rewrite opp_IZR. exact Hs1.
    - rewrite <- (nearestEven_IZR (2 ^ 53)). apply nearestEven_le. exact Hs2. }
  unfold round. fold e. set (N := nearestEven (x / bpow e)) in *.
  assert (Hb1 : bpow (e + 1) = 2 * bpow e).
  { rewrite bpow_plus. change (bpow 1) with (powerRZ 2 1).
    rewrite powerRZ_1. apply Rmult_comm. }
  destruct (Z.eq_dec (Z.abs N) (2 ^ 53)) as [Htop|Hin].
  - assert (HNN : N = (2 ^ 53)%Z \/ N = (- 2 ^ 53)%Z) by lia.
    destruct HNN as [EN|EN]; rewrite EN.
    + exists (2 ^ 52)%Z, (e + 1)%Z. split; [reflexivity|]. split; [lia|].
      rewrite Hb1. change (2 ^ 53)%Z with (2 * 2 ^ 52)%Z.
      rewrite mult_IZR. generalize (bpow e). intro b. ring.
    + exists (- 2 ^ 52)%Z, (e + 1)%Z. split; [reflexivity|]. split; [lia|].
      rewrite Hb1. change (- 2 ^ 53)%Z with (2 * - 2 ^ 52)%Z.
      rewrite mult_IZR. generalize (bpow e). intro b. ring.
  - exists N, e. split; [lia|]. split; [lia|]. reflexivity.
Qed.

Lemma round_idem x : Rabs x < bpow 1023 -> round (round x) = round x.
Proof. intro H. apply round_exact, round_double, H. Qed.

Lemma nearestEven_best r n :
  Rabs (IZR (nearestEven r) - r) <= Rabs (IZR n - r).
Proof.
  pose proof (floor_bounds r) as Hf.
  assert (Hn : (n <= Int_part r)%Z \/ (Int_part r + 1 <= n)%Z) by lia.
  assert (Hc : IZR n <= IZR (Int_part r) \/ IZR (Int_part r) + 1 <= IZR n).
  { destruct Hn as [H|H]; [left | right].
    - apply IZR_le, H.
    - rewrite <- plus_IZR. apply IZR_le, H. }
  unfold nearestEven.
  destruct (Rlt_dec _ _) as [H1|H1].
  - destruct Hc; rewrite Rabs_left1 by lra;
      [rewrite Rabs_left1 by lra | rewrite Rabs_right by lra]; lra.
  - destruct (Rlt_dec _ _) as [H2|H2].
    + rewrite plus_IZR.
      destruct Hc; rewrite Rabs_right by lra;
        [rewrite Rabs_left1 by lra | rewrite Rabs_right by lra]; lra.
    + destruct (Z.even _); [|rewrite plus_IZR].
      * destruct Hc; rewrite Rabs_left1 by lra;
          [rewrite Rabs_left1 by lra | rewrite Rabs_right by lra]; lra.
      * destruct Hc; rewrite Rabs_right by lra;
          [rewrite Rabs_left1 by lra | rewrite Rabs_right by lra]; lra.
Qed.

(** [round] is rounding to nearest: no double is nearer to [x] than
    [round x]. *)
Lemma round_nearest x d :
  double d -> Rabs (round x - x) <= Rabs (d - x).
Proof.
  intros (m & k & Hm & Hk & ->).
  set (e := exponent x). set (g := bpow e).
  assert (Hg : 0 < g) by apply bpow_pos.
  set (s := x / g). set (f := Int_part s).
  pose proof (floor_bounds s) as Hf. fold f in Hf.
  assert (Ex : x = s * g) by (unfold s; field; lra).
  assert (Er : forall n, Rabs (IZR n * g - x) = Rabs (IZR n - s) * g).
  { intro n. rewrite Ex at 1.
    replace (IZR n * g - s * g) with ((IZR n - s) * g) by ring.
    rewrite Rabs_mult, (Rabs_right g) by lra. reflexivity. }
  assert (Hbest : forall n, Rabs (round x - x) <= Rabs (IZR n * g - x)).
  { intro n. unfold round. fold e g s. rewrite !Er.
    apply Rmult_le_compat_r; [lra|]. apply nearestEven_best. }
  destruct (Req_dec s (IZR f)) as [Eint|Hnint].
  { apply Rle_trans with (Rabs (IZR f * g - x)); [apply Hbest|].
    rewrite Er, <- Eint, Rminus_diag, Rabs_R0, Rmult_0_l. apply Rabs_pos. }
  assert (Hlo : IZR f * g < x) by (rewrite Ex; nra).
  assert (Hhi : x < IZR (f + 1) * g) by (rewrite plus_IZR, Ex; nra).
  set (d := IZR m * bpow k).
  assert (Hgap : d <= IZR f * g \/ IZR (f + 1) * g <= d).
  { destruct (Rle_dec d (IZR f * g)) as [|Hd1]; [left; assumption|].
    destruct (Rle_dec (IZR (f + 1) * g) d) as [|Hd2]; [right; assumption|].
    exfalso. apply Rnot_le_lt in Hd1, Hd2.
    destruct (Z_le_gt_dec e k) as [Hek|Hek].
    - (* [d] is a multiple of [g] *)
      assert (Ed : d = IZR (m * 2 ^ (k - e)) * g).
      { unfold d, g. rewrite (bpow_multiple k e) by lia.
        rewrite mult_IZR. apply mult_assoc_left. }
      rewrite Ed in Hd1, Hd2.
      assert (IZR f < IZR (m * 2 ^ (k - e))) by nra.
      assert (IZR (m * 2 ^ (k - e)) < IZR (f + 1)) by nra.
      apply lt_IZR in H, H0. lia.
    - (* [d] is below the binade of [x] *)
      assert (Ee : e = (mag x - 52)%Z) by (unfold e, exponent in *; lia).
      assert (Hx0 : x <> 0).
      { intro E. apply Hnint. unfold f, s. rewrite E.
        unfold Rdiv. rewrite Rmult_0_l. rewrite (Int_part_IZR 0). reflexivity. }
      destruct (mag_spec x Hx0) as [M _].
      assert (Hd : Rabs d < bpow (mag x)).
      { unfold d. rewrite Rabs_mult, (Rabs_right (bpow k))
          by (left; apply bpow_pos).
        apply Rlt_le_trans with (bpow (53 + k)).
        - rewrite bpow_plus, (bpow_IZR 53) by lia.
          apply Rmult_lt_compat_r; [apply bpow_pos|].
          rewrite <- abs_IZR. apply IZR_lt. exact Hm.
        - apply bpow_le. lia. }
      assert (Eb : bpow (mag x) = IZR (2 ^ 52) * g).
      { unfold g. rewrite (bpow_multiple (mag x) e) by lia.
        replace (mag x - e)%Z with 52%Z by lia. reflexivity. }
      apply Rabs_def2 in Hd. destruct Hd as [Hd3 Hd4].
      destruct (Rle_dec 0 x) as [Hpos|Hneg].
      + rewrite Rabs_right in M by lra. rewrite Eb in M, Hd3.
        assert (Hs : IZR (2 ^ 52) <= s) by (rewrite Ex in M; nra).
        assert (Hff : (2 ^ 52 <= f)%Z).
        { rewrite <- (Int_part_IZR (2 ^ 52)). apply floor_le. exact Hs. }
        apply IZR_le in Hff. nra.
      + rewrite Rabs_left in M by lra. rewrite Eb in M, Hd4.
        assert (Hs : s <= - IZR (2 ^ 52)) by (rewrite Ex in M; nra).
        assert (Hff : (f < - 2 ^ 52)%Z).
        { apply lt_IZR. rewrite opp_IZR. lra. }
        assert (Hf1 : IZR (f + 1) <= - IZR (2 ^ 52)).
        { rewrite <- opp_IZR. apply IZR_le. lia. }
        nra. }
  destruct Hgap as [Hl|Hh].
  - apply Rle_trans with (Rabs (IZR f * g - x)); [apply Hbest|].
    rewrite !Rabs_left1 by lra. lra.
  - apply Rle_trans with (Rabs (IZR (f + 1) * g - x)); [apply Hbest|].
    rewrite !Rabs_right by lra. lra.
Qed.

(** The doubles of the decimal literals of the scripts. *)

Lemma lit_03 : lit 0.3 = IZR 5404319552844595 * bpow (-54).
Proof. unfold lit. round_lit (-2)%Z 5404319552844595%Z. Qed.

Lemma lit_02 : lit 0.2 = IZR 7205759403792794 * bpow (-55).
Proof. unfold lit. round_lit (-3)%Z 7205759403792794%Z. Qed.

Lemma lit_015 : lit 0.15 = IZR 5404319552844595 * bpow (-55).
Proof. unfold lit. round_lit (-3)%Z 5404319552844595%Z. Qed.

Lemma lit_01 : lit 0.1 = IZR 7205759403792794 * bpow (-56).
Proof. unfold lit. round_lit (-4)%Z 7205759403792794%Z. Qed.

End DoubleFacts.

(** [INR] of a canvas size and the parity test of the frame counter stay
    folded under [simpl]. *)
#[local] Arguments INR _ : simpl never.
#[local] Arguments Nat.modulo _ _ : simpl never.

(** ** The model runs *)

Example lowPerformance_iPhone :
  isLowPerformanceDevice
    "Mozilla/5.0 (iPhone; CPU iPhone OS 17_5 like Mac OS X) AppleWebKit/605.1.15"
  = true.
Proof. reflexivity. Qed.

Example lowPerformance_any_case :
  isLowPerformanceDevice "opera mini/7.1" = true.
Proof. reflexivity. Qed.

Example lowPerformance_desktop :
  isLowPerformanceDevice (userAgent desktopHost) = false.
Proof. reflexivity. Qed.

Example getParticleCount_desktop : PS.getParticleCount desktopHost = 40%nat.
Proof. reflexivity. Qed.

Example getParticleCount_tablet :
  PS.getParticleCount
    (mkHost (userAgent desktopHost) 1024 768 true false false true true
            300 150 1024 400 (random desktopHost))
  = 25%nat.
Proof. reflexivity. Qed.

Example getParticleCount_no_webgl :
  PS.getParticleCount
    (mkHost (userAgent desktopHost) 1920 1080 false false false true true
            300 150 1024 400 (random desktopHost))
  = 30%nat.
Proof. reflexivity. Qed.

(** The constructor on a desktop browser: 40 particles on the resized
    canvas, the first frame run and the next requested under handle 1,
    handlers registered. *)
Example constructor_desktop :
  let w := PS.constructor PS.Basic desktopHost 1000 in
  List.length (PS.particles (PS.sys w)) = 40%nat
  /\ PS.animationId (PS.sys w) = Some 1%nat
  /\ PS.pending w = [1%nat]
  /\ PS.listening w = true
  /\ PS.frameCount (PS.sys w) = 1%nat
  /\ PS.width (PS.sys w) = 800%nat
  /\ PS.height (PS.sys w) = 600%nat.
Proof. repeat split; reflexivity. Qed.

(** ** Pairwise connections *)

Lemma in_forEachPair {A B : Type} (f : A -> A -> list B) (ps : list A) (b : B) :
  In b (forEachPair f ps) <->
  exists i j p q,
    (i < j)%nat /\ nth_error ps i = Some p /\ nth_error ps j = Some q
    /\ In b (f p q).
Proof.
  induction ps as [|a rest IH]; simpl.
  - split; [contradiction|].
    intros (i & j & p & q & _ & Hi & _). destruct i; discriminate.
  - rewrite in_app_iff, in_flat_map, IH. split.
    + intros [(q & Hq & Hb) | (i & j & p & q & Hij & Hi & Hj & Hb)].
      * apply In_nth_error in Hq. destruct Hq as [j Hj].
        exists 0%nat, (S j), a, q. repeat split; auto. lia.
      * exists (S i), (S j), p, q. repeat split; auto. lia.
    + intros (i & j & p & q & Hij & Hi & Hj & Hb).
      destruct j as [|j]; [lia|]. simpl in Hj.
      destruct i as [|i]; simpl in Hi.
      * left. injection Hi as ->. exists q. split; auto.
        eapply nth_error_In; eauto.
      * right. exists i, j, p, q. repeat split; auto. lia.
Qed.

Lemma sum_squares_nonneg (a b : R) : 0 <= a * a + b * b.
Proof. nra. Qed.

Lemma sqrt_lt_threshold (t d2 : R) :
  0 <= t -> 0 <= d2 -> (sqrt d2 < t <-> d2 < t * t).
Proof.
  intros Ht Hd. split; intro H.
  - pose proof (sqrt_pos d2) as Hp.
    rewrite <- (sqrt_sqrt d2 Hd). nra.
  - rewrite <- (sqrt_square t Ht). apply sqrt_lt_1_alt. lra.
Qed.

(** What one execution of the inner loop body of [drawConnections] draws. *)
Lemma connect_near (p q : PS.Particle) :
  distancePS p q < 80 ->
  PS.connect p q =
  [Line (PS.x p) (PS.y p) (PS.x q) (PS.y q)
        (lineOpacity 80 0.15 (distancePS p q))].
Proof.
  unfold PS.connect, distancePS, euclid, lineOpacity, PS.maxDistanceSquared,
    PS.maxDistance.
  set (d2 := (PS.x p - PS.x q) * (PS.x p - PS.x q)
             + (PS.y p - PS.y q) * (PS.y p - PS.y q)).
  intro H. destruct (Rlt_dec d2 (80 * 80)) as [_ | Hge]; [reflexivity|].
  exfalso. apply Hge.
  apply (sqrt_lt_threshold 80 d2); [lra | apply sum_squares_nonneg | exact H].
Qed.

Lemma connect_far (p q : PS.Particle) :
  ~ distancePS p q < 80 -> PS.connect p q = [].
Proof.
  unfold PS.connect, distancePS, euclid, PS.maxDistanceSquared, PS.maxDistance.
  set (d2 := (PS.x p - PS.x q) * (PS.x p - PS.x q)
             + (PS.y p - PS.y q) * (PS.y p - PS.y q)).
  intro H. destruct (Rlt_dec d2 (80 * 80)) as [Hlt | _]; [|reflexivity].
  exfalso. apply H.
  apply (sqrt_lt_threshold 80 d2); [lra | apply sum_squares_nonneg | exact Hlt].
Qed.

Lemma connect_spec (p q : PS.Particle) (op : DrawOp) :
  In op (PS.connect p q) <->
  distancePS p q < 80
  /\ op = Line (PS.x p) (PS.y p) (PS.x q) (PS.y q)
               (lineOpacity 80 0.15 (distancePS p q)).
Proof.
  destruct (Rlt_dec (distancePS p q) 80) as [Hlt | Hge].
  - rewrite (connect_near p q Hlt). simpl. intuition congruence.
  - rewrite (connect_far p q Hge). simpl. tauto.
Qed.

(** The same for the callback of [initializeParticles]. *)
Lemma connect_near_IP (p q : IP.Particle) :
  distanceIP p q < 150 ->
  IP.connect p q =
  [Line (IP.x p) (IP.y p) (IP.x q) (IP.y q)
        (lineOpacity 150 0.1 (distanceIP p q))].
Proof.
  unfold IP.connect, distanceIP, euclid, lineOpacity, hypot,
    IP.connectionDistance.
  intro H.
  match goal with
  | |- context [Rlt_dec ?d _] => destruct (Rlt_dec d 150) as [_ | Hge]
  end.
  - do 2 f_equal. ring.
  - contradiction.
Qed.

Lemma connect_far_IP (p q : IP.Particle) :
  ~ distanceIP p q < 150 -> IP.connect p q = [].
Proof.
  unfold IP.connect, distanceIP, euclid, hypot, IP.connectionDistance.
  intro H.
  match goal with
  | |- context [Rlt_dec ?d _] => destruct (Rlt_dec d 150) as [Hlt | _]
  end.
  - contradiction.
  - reflexivity.
Qed.

Lemma connect_spec_IP (p q : IP.Particle) (op : DrawOp) :
  In op (IP.connect p q) <->
  distanceIP p q < 150
  /\ op = Line (IP.x p) (IP.y p) (IP.x q) (IP.y q)
               (lineOpacity 150 0.1 (distanceIP p q)).
Proof.
  destruct (Rlt_dec (distanceIP p q) 150) as [Hlt | Hge].
  - rewrite (connect_near_IP p q Hlt). simpl. intuition congruence.
  - rewrite (connect_far_IP p q Hge). simpl. tauto.
Qed.

(** Two indices that differ are ordered one way or the other. *)
Lemma euclid_60 : euclid 10 10 70 10 = 60.
Proof. unfold euclid. apply sqrt_lem_1; lra. Qed.

(** ** The connection pass in binary64 *)

Section ConnectionsInBinary64.
Import DoubleFacts.

Lemma maxDistanceSquared_value : PS64.maxDistanceSquared = 6400.
Proof.
  unfold PS64.maxDistanceSquared, PS64.maxDistance, Double.mul.
  replace (80 * 80) with 6400 by lra. apply round_IZR. reflexivity.
Qed.

Lemma double_lit_015 : Double.double (Double.lit 0.15).
Proof.
  rewrite lit_015. exists 5404319552844595%Z, (-55)%Z.
  split; [reflexivity|]. split; [lia | reflexivity].
Qed.

Lemma double_lit_01 : Double.double (Double.lit 0.1).
Proof.
  rewrite lit_01. exists 7205759403792794%Z, (-56)%Z.
  split; [reflexivity|]. split; [lia | reflexivity].
Qed.

Lemma lit_015_pos : 0 <= Double.lit 0.15 <= 0.15.
Proof. rewrite lit_015. bpow_num. lra. Qed.

Lemma lit_01_pos : 0 <= Double.lit 0.1.
Proof. rewrite lit_01. bpow_num. lra. Qed.

Lemma distanceSquared_nonneg (p q : PS.Particle) :
  0 <= PS64.distanceSquared p q.
Proof.
  unfold PS64.distanceSquared, Double.add, Double.mul.
  apply round_nonneg.
  apply Rplus_le_le_0_compat; apply round_nonneg; nra.
Qed.

(** A factor [1 - d / t] of a line's opacity: between 0 and 1 for a
    distance [d] between 0 and the threshold [t], a double. *)
Lemma fade_range (d t : R) :
  0 < t -> Double.double t -> 0 <= d <= t ->
  0 <= Double.sub 1 (Double.div d t) <= 1.
Proof.
  intros Ht Dt [H0 H1]. unfold Double.sub, Double.div.
  assert (Hq : 0 <= Double.round (d / t) <= 1).
  { split.
    - apply round_nonneg. apply Rmult_le_pos; [exact H0|].
      left. apply Rinv_0_lt_compat. exact Ht.
    - rewrite <- (round_IZR 1) by reflexivity. apply round_le.
      apply Rmult_le_reg_r with t; [exact Ht|].
      unfold Rdiv. rewrite Rmult_assoc, Rinv_l by lra. lra. }
  split.
  - apply round_nonneg. lra.
  - rewrite <- (round_IZR 1) at 2 by reflexivity. apply round_le. lra.
Qed.

Lemma fade_decreasing (d d' t : R) :
  0 < t -> d <= d' ->
  Double.sub 1 (Double.div d' t) <= Double.sub 1 (Double.div d t).
Proof.
  intros Ht H. unfold Double.sub, Double.div. apply round_le.
  apply Rplus_le_compat_l, Ropp_le_contravar, round_le.
  apply Rmult_le_compat_r; [|exact H].
  left. apply Rinv_0_lt_compat. exact Ht.
Qed.

Lemma sqrt_below_threshold (d2 : R) :
  0 <= d2 < 6400 -> 0 <= Double.sqrt d2 <= 80.
Proof.
  intros [H0 H1]. unfold Double.sqrt. split.
  - apply round_nonneg, sqrt_pos.
  - rewrite <- (round_IZR 80) by reflexivity. apply round_le.
    rewrite <- (sqrt_square 80) by lra. apply sqrt_le_1_alt. lra.
Qed.

Lemma lineOpacity_range (d2 : R) :
  0 <= d2 < 6400 -> 0 <= PS64.lineOpacity d2 <= Double.lit 0.15.
Proof.
  intro H. unfold PS64.lineOpacity, PS64.maxDistance.
  pose proof (sqrt_below_threshold d2 H) as Hd.
  pose proof (fade_range (Double.sqrt d2) 80 ltac:(lra)
                (double_IZR 80 eq_refl) Hd) as Hf.
  pose proof lit_015_pos as Hc. unfold Double.mul. split.
  - apply round_nonneg. nra.
  - rewrite <- (round_exact _ double_lit_015) at 2. apply round_le. nra.
Qed.

Lemma lineOpacity_le (d1 d2 : R) :
  d1 <= d2 -> PS64.lineOpacity d2 <= PS64.lineOpacity d1.
Proof.
  intro H. unfold PS64.lineOpacity, PS64.maxDistance, Double.mul.
  apply round_le. apply Rmult_le_compat_r; [apply lit_015_pos|].
  apply fade_decreasing; [lra|]. unfold Double.sqrt.
  apply round_le, sqrt_le_1_alt, H.
Qed.

Lemma lineOpacity_range_IP (d : R) :
  0 <= d < 150 -> 0 <= IP64.lineOpacity d <= Double.lit 0.1.
Proof.
  intros [H0 H1]. unfold IP64.lineOpacity, IP.connectionDistance.
  pose proof (fade_range d 150 ltac:(lra) (double_IZR 150 eq_refl)
                ltac:(lra)) as Hf.
  pose proof lit_01_pos as Hc. unfold Double.mul. split.
  - apply round_nonneg. nra.
  - rewrite <- (round_exact _ double_lit_01) at 2. apply round_le. nra.
Qed.

Lemma lineOpacity_le_IP (d1 d2 : R) :
  d1 <= d2 -> IP64.lineOpacity d2 <= IP64.lineOpacity d1.
Proof.
  intro H. unfold IP64.lineOpacity, IP.connectionDistance, Double.mul.
  apply round_le. apply Rmult_le_compat_l; [apply lit_01_pos|].
  apply fade_decreasing; [lra | exact H].
Qed.

Lemma connect64_spec (p q : PS.Particle) (op : DrawOp) :
  In op (PS64.connect p q) <->
  PS64.distanceSquared p q < 6400
  /\ op = Line (PS.x p) (PS.y p) (PS.x q) (PS.y q)
               (PS64.lineOpacity (PS64.distanceSquared p q)).
Proof.
  unfold PS64.connect. rewrite maxDistanceSquared_value.
  destruct (Rlt_dec _ _) as [H|H]; simpl.
  - split.
    + intros [<-|[]]. split; [exact H | reflexivity].
    + intros [_ ->]. left. reflexivity.
  - split; [intros [] | intros [H' _]; contradiction].
Qed.

Lemma connect64_spec_IP (hypot : R -> R -> R) (p q : IP.Particle)
      (op : DrawOp) :
  In op (IP64.connect hypot p q) <->
  IP64.distance hypot p q < 150
  /\ op = Line (IP.x p) (IP.y p) (IP.x q) (IP.y q)
               (IP64.lineOpacity (IP64.distance hypot p q)).
Proof.
  unfold IP64.connect, IP.connectionDistance.
  destruct (Rlt_dec _ _) as [H|H]; simpl.
  - split.
    + intros [<-|[]]. split; [exact H | reflexivity].
    + intros [_ ->]. left. reflexivity.
  - split; [intros [] | intros [H' _]; contradiction].
Qed.

(** The squared distance depends on the two positions only. *)
Lemma distanceSquared_positions (p q p' q' : PS.Particle) :
  PS.x p = PS.x p' -> PS.y p = PS.y p' ->
  PS.x q = PS.x q' -> PS.y q = PS.y q' ->
  PS64.distanceSquared p q = PS64.distanceSquared p' q'.
Proof.
  intros E1 E2 E3 E4. unfold PS64.distanceSquared.
  rewrite E1, E2, E3, E4. reflexivity.
Qed.

Lemma drawConnections64_iff (ps : list PS.Particle) (i j : nat)
      (p q : PS.Particle) :
  (i < j)%nat -> nth_error ps i = Some p -> nth_error ps j = Some q ->
  ((exists alpha,
       In (Line (PS.x p) (PS.y p) (PS.x q) (PS.y q) alpha)
          (PS64.drawConnections ps))
   <-> PS64.distanceSquared p q < 6400)
  /\ (forall alpha,
         In (Line (PS.x p) (PS.y p) (PS.x q) (PS.y q) alpha)
            (PS64.drawConnections ps) ->
         alpha = PS64.lineOpacity (PS64.distanceSquared p q)).
Proof.
  intros Hij Hp Hq.
  assert (Hin : forall alpha,
             In (Line (PS.x p) (PS.y p) (PS.x q) (PS.y q) alpha)
                (PS64.drawConnections ps) ->
             PS64.distanceSquared p q < 6400
             /\ alpha = PS64.lineOpacity (PS64.distanceSquared p q)).
  { intros alpha H. apply in_forEachPair in H.
    destruct H as (i' & j' & p' & q' & _ & _ & _ & H).
    apply connect64_spec in H. destruct H as [Hd E].
    injection E as E1 E2 E3 E4 E5.
    rewrite (distanceSquared_positions p q p' q') by assumption.
    split; [exact Hd | exact E5]. }
  split; [split|].
  - intros [alpha H]. apply (Hin alpha H).
  - intro Hd. exists (PS64.lineOpacity (PS64.distanceSquared p q)).
    apply in_forEachPair. exists i, j, p, q.
    repeat split; try assumption.
    apply connect64_spec. split; [exact Hd | reflexivity].
  - intros alpha H. apply (Hin alpha H).
Qed.

Lemma connections64_iff (hypot : R -> R -> R) (ps : list IP.Particle)
      (i j : nat) (p q : IP.Particle) :
  (i < j)%nat -> nth_error ps i = Some p -> nth_error ps j = Some q ->
  ((exists alpha,
       In (Line (IP.x p) (IP.y p) (IP.x q) (IP.y q) alpha)
          (IP64.connections hypot ps))
   <-> IP64.distance hypot p q < 150)
  /\ (forall alpha,
         In (Line (IP.x p) (IP.y p) (IP.x q) (IP.y q) alpha)
            (IP64.connections hypot ps) ->
         alpha = IP64.lineOpacity (IP64.distance hypot p q)).
Proof.
  intros Hij Hp Hq.
  assert (Hin : forall alpha,
             In (Line (IP.x p) (IP.y p) (IP.x q) (IP.y q) alpha)
                (IP64.connections hypot ps) ->
             IP64.distance hypot p q < 150
             /\ alpha = IP64.lineOpacity (IP64.distance hypot p q)).
  { intros alpha H. apply in_forEachPair in H.
    destruct H as (i' & j' & p' & q' & _ & _ & _ & H).
    apply connect64_spec_IP in H. destruct H as [Hd E].
    injection E as E1 E2 E3 E4 E5.
    assert (Ed : IP64.distance hypot p q = IP64.distance hypot p' q')
      by (unfold IP64.distance; rewrite E1, E2, E3, E4; reflexivity).
    rewrite Ed. split; [exact Hd | exact E5]. }
  split; [split|].
  - intros [alpha H]. apply (Hin alpha H).
  - intro Hd. exists (IP64.lineOpacity (IP64.distance hypot p q)).
    apply in_forEachPair. exists i, j, p, q.
    repeat split; try assumption.
    apply connect64_spec_IP. split; [exact Hd | reflexivity].
  - intros alpha H. apply (Hin alpha H).
Qed.

End ConnectionsInBinary64.

(** ** The connection test against the Euclidean distance *)

Section ConnectionMargins.
Import DoubleFacts.

(** The rounded square of a rounded difference [a] of at most 81. *)
Lemma square_error (a : R) :
  Rabs a <= 81 ->
  Rabs (Double.mul (Double.round a) (Double.round a) - a * a) <= 24e-13.
Proof.
  intro Ha. apply Rabs_bound in Ha.
  pose proof (round_error_le a 81 ltac:(apply Rabs_le; lra)) as H1.
  apply Rabs_bound in H1.
  set (dx := Double.round a) in *.
  assert (Hd : -1e-14 <= dx - a <= 1e-14) by lra.
  assert (Hsq : -163e-14 <= dx * dx - a * a <= 163e-14) by nra.
  assert (Hb : Rabs (dx * dx) <= 6562) by (apply Rabs_le; nra).
  pose proof (round_error_le (dx * dx) 6562 Hb) as H2.
  apply Rabs_bound in H2. unfold Double.mul. apply Rabs_le. lra.
Qed.

Lemma square_far (a : R) :
  81 <= Rabs a -> 6561 <= Double.mul (Double.round a) (Double.round a).
Proof.
  intro Ha. unfold Double.mul.
  rewrite <- (round_IZR 6561) by reflexivity. apply round_le.
  assert (H : 81 <= Double.round a \/ Double.round a <= -81).
  { unfold Rabs in Ha. destruct (Rcase_abs a) as [Hn|Hp].
    - right. rewrite <- (round_IZR (-81)) by reflexivity.
      apply round_le. lra.
    - left. rewrite <- (round_IZR 81) by reflexivity. apply round_le. lra. }
  destruct H; nra.
Qed.

Lemma square_nonneg (a : R) :
  0 <= Double.mul (Double.round a) (Double.round a).
Proof. unfold Double.mul. apply round_nonneg. nra. Qed.

Lemma distanceSquared_error (p q : PS.Particle) :
  let a := PS.x p - PS.x q in
  let b := PS.y p - PS.y q in
  Rabs a <= 81 -> Rabs b <= 81 ->
  Rabs (PS64.distanceSquared p q - (a * a + b * b)) <= 1e-11.
Proof.
  intros a b Ha Hb. unfold PS64.distanceSquared, Double.sub, Double.add.
  fold a b.
  pose proof (square_error a Ha) as Ea. pose proof (square_error b Hb) as Eb.
  apply Rabs_bound in Ea, Eb. apply Rabs_bound in Ha, Hb.
  set (sx := Double.mul (Double.round a) (Double.round a)) in *.
  set (sy := Double.mul (Double.round b) (Double.round b)) in *.
  assert (Hs : Rabs (sx + sy) <= 13124) by (apply Rabs_le; nra).
  pose proof (round_error_le (sx + sy) 13124 Hs) as H.
  apply Rabs_bound in H. apply Rabs_le. lra.
Qed.

Lemma distanceSquared_far (p q : PS.Particle) :
  81 <= Rabs (PS.x p - PS.x q) \/ 81 <= Rabs (PS.y p - PS.y q) ->
  6561 <= PS64.distanceSquared p q.
Proof.
  intro H. unfold PS64.distanceSquared, Double.sub, Double.add.
  rewrite <- (round_IZR 6561) by reflexivity. apply round_le.
  pose proof (square_nonneg (PS.x p - PS.x q)).
  pose proof (square_nonneg (PS.y p - PS.y q)).
  destruct H as [H|H]; apply square_far in H; lra.
Qed.

Lemma distancePS_square (p q : PS.Particle) :
  0 <= distancePS p q
  /\ distancePS p q * distancePS p q
     = (PS.x p - PS.x q) * (PS.x p - PS.x q)
       + (PS.y p - PS.y q) * (PS.y p - PS.y q).
Proof.
  unfold distancePS, euclid. split; [apply sqrt_pos|].
  apply sqrt_sqrt. apply Rplus_le_le_0_compat; apply Rle_0_sqr.
Qed.

(** Up to [1e-12] the test of [drawConnections] is the test of the
    Euclidean distance against 80. *)
Lemma distanceSquared_margins (p q : PS.Particle) :
  (distancePS p q <= 80 - 1e-12 -> PS64.distanceSquared p q < 6400)
  /\ (PS64.distanceSquared p q < 6400 -> distancePS p q < 80 + 1e-12).
Proof.
  destruct (distancePS_square p q) as [H0 Hsq].
  set (a := PS.x p - PS.x q) in *. set (b := PS.y p - PS.y q) in *.
  set (d := distancePS p q) in *.
  split.
  - intro Hd.
    assert (Ha : Rabs a <= 81) by (apply Rabs_le; nra).
    assert (Hb : Rabs b <= 81) by (apply Rabs_le; nra).
    pose proof (distanceSquared_error p q Ha Hb) as He.
    fold a b in He. apply Rabs_bound in He.
    assert (Hdd : d * d <= (80 - 1e-12) * (80 - 1e-12))
      by (apply Rmult_le_compat; lra).
    lra.
  - intro Hd2.
    destruct (Rle_dec 81 (Rabs a)) as [Ha|Ha].
    { pose proof (distanceSquared_far p q (or_introl Ha)). lra. }
    destruct (Rle_dec 81 (Rabs b)) as [Hb|Hb].
    { pose proof (distanceSquared_far p q (or_intror Hb)). lra. }
    assert (Ha' : Rabs a <= 81) by lra. assert (Hb' : Rabs b <= 81) by lra.
    pose proof (distanceSquared_error p q Ha' Hb') as He.
    fold a b in He. apply Rabs_bound in He.
    destruct (Rlt_dec d (80 + 1e-12)) as [|Hge]; [assumption|].
    exfalso. apply Rnot_lt_le in Hge.
    assert (Hdd : (80 + 1e-12) * (80 + 1e-12) <= d * d)
      by (apply Rmult_le_compat; lra).
    lra.
Qed.

End ConnectionMargins.

(** ** Rounding at the threshold *)

Section ThresholdExamples.
Import DoubleFacts.

Lemma sqrt_between (lo hi x : R) :
  0 <= lo -> 0 <= hi -> lo * lo < x < hi * hi -> lo < sqrt x < hi.
Proof.
  intros Hl Hh [H1 H2]. split.
  - rewrite <- (sqrt_square lo Hl). apply sqrt_lt_1_alt. nra.
  - rewrite <- (sqrt_square hi Hh). apply sqrt_lt_1_alt. nra.
Qed.

Ltac double_num m e :=
  exists m, e; split; [reflexivity | split; [lia | bpow_num; lra]].

(** Two particles less than 80 apart that get no line: the sum of the
    squares, [6400 - 2^-41], lies half-way between two doubles and is
    rounded to 6400. *)
Lemma undrawn_below_threshold :
  let p := dotPS 64 (48 - Double.bpow (-47)) in
  let q := dotPS 0 0 in
  distancePS p q < 80 /\ PS64.distanceSquared p q = 6400
  /\ PS64.connect p q = [].
Proof.
  intros p q.
  assert (Hd2 : PS64.distanceSquared p q = 6400).
  { unfold PS64.distanceSquared, Double.sub, Double.add, Double.mul.
    unfold p, q, dotPS. cbn [PS.x PS.y].
    replace (64 - 0) with 64 by lra.
    replace (48 - Double.bpow (-47) - 0) with (48 - Double.bpow (-47)) by lra.
    rewrite (round_IZR 64) by reflexivity.
    rewrite (round_exact (48 - Double.bpow (-47)))
      by (double_num 6755399441055743%Z (-47)%Z).
    replace (64 * 64) with 4096 by lra.
    rewrite (round_IZR 4096) by reflexivity.
    assert (Ey : Double.round ((48 - Double.bpow (-47))
                               * (48 - Double.bpow (-47)))
                 = IZR 5066549580791807 * Double.bpow (-41)).
    { round_lit 11%Z 5066549580791807%Z. }
    rewrite Ey.
    assert (Es : Double.round (4096 + IZR 5066549580791807 * Double.bpow (-41))
                 = IZR (if Z.even 7036874417766399
                        then 7036874417766399 else 7036874417766399 + 1)
                   * Double.bpow (-40)).
    { apply (round_tie _ 12 7036874417766399).
      - simpl Z.add. bpow_num. rewrite Rabs_pos_eq by lra. lra.
      - lia.
      - simpl Z.sub. bpow_num. lra. }
    rewrite Es. cbn [Z.even Z.add Pos.add Pos.succ]. bpow_num. lra. }
  split; [|split; [exact Hd2|]].
  - unfold distancePS, euclid, p, q, dotPS. cbn [PS.x PS.y].
    rewrite <- (sqrt_square 80) by lra. apply sqrt_lt_1_alt.
    bpow_num. lra.
  - unfold PS64.connect. rewrite Hd2, maxDistanceSquared_value.
    destruct (Rlt_dec 6400 6400) as [H|H]; [lra | reflexivity].
Qed.

(** Two particles that get a line of opacity 0: the squared distance is
    [6400 - 2^-40], and its square root is rounded to 80. *)
Lemma drawn_with_opacity_zero :
  let p := dotPS (80 - Double.bpow (-46)) (Double.bpow (-20)) in
  let q := dotPS 0 0 in
  PS64.connect p q
  = [Line (80 - Double.bpow (-46)) (Double.bpow (-20)) 0 0 0].
Proof.
  intros p q.
  assert (Hd2 : PS64.distanceSquared p q
                = IZR 7036874417766399 * Double.bpow (-40)).
  { unfold PS64.distanceSquared, Double.sub, Double.add, Double.mul.
    unfold p, q, dotPS. cbn [PS.x PS.y].
    replace (80 - Double.bpow (-46) - 0) with (80 - Double.bpow (-46)) by lra.
    replace (Double.bpow (-20) - 0) with (Double.bpow (-20)) by lra.
    rewrite (round_exact (80 - Double.bpow (-46)))
      by (double_num 5629499534213119%Z (-46)%Z).
    rewrite (round_exact (Double.bpow (-20)))
      by (double_num 1%Z (-20)%Z).
    assert (Ex : Double.round ((80 - Double.bpow (-46))
                               * (80 - Double.bpow (-46)))
                 = IZR 7036874417766398 * Double.bpow (-40)).
    { round_lit 12%Z 7036874417766398%Z. }
    rewrite Ex.
    rewrite (round_exact (Double.bpow (-20) * Double.bpow (-20)))
      by (double_num 1%Z (-40)%Z).
    rewrite round_exact; [bpow_num; lra|].
    double_num 7036874417766399%Z (-40)%Z. }
  assert (Hlt : PS64.distanceSquared p q < 6400)
    by (rewrite Hd2; bpow_num; lra).
  assert (Hs : Double.sqrt (PS64.distanceSquared p q) = 80).
  { rewrite Hd2. unfold Double.sqrt.
    destruct (sqrt_between (80 - Double.bpow (-47)) 80
                (IZR 7036874417766399 * Double.bpow (-40)))
      as [S1 S2].
    - bpow_num. lra.
    - lra.
    - bpow_num. lra.
    - rewrite (round_pin _ 6 5629499534213120).
      + simpl Z.sub. bpow_num. lra.
      + simpl Z.add. revert S1 S2. bpow_num. intros S1 S2.
        rewrite Rabs_pos_eq by lra. lra.
      + lia.
      + simpl Z.sub. revert S1 S2. bpow_num. intros S1 S2.
        apply Rabs_def1; lra. }
  unfold PS64.connect. rewrite maxDistanceSquared_value.
  destruct (Rlt_dec _ _) as [_|H]; [|contradiction].
  unfold PS64.lineOpacity. rewrite Hs.
  unfold p, q, dotPS. cbn [PS.x PS.y]. do 2 f_equal.
  unfold PS64.maxDistance, Double.mul, Double.sub, Double.div.
  replace (80 / 80) with 1 by (field; lra).
  rewrite (round_IZR 1) by reflexivity.
  replace (1 - 1) with 0 by lra. rewrite round_0.
  rewrite Rmult_0_l. apply round_0.
Qed.

(** The opacity is not strictly decreasing: at distance [2^-60] it is what
    it is at distance 0. *)
Lemma lineOpacity_plateau :
  PS64.lineOpacity (Double.bpow (-120)) = PS64.lineOpacity 0
  /\ PS64.lineOpacity 0 = Double.lit 0.15.
Proof.
  assert (H0 : PS64.lineOpacity 0 = Double.lit 0.15).
  { unfold PS64.lineOpacity, PS64.maxDistance, Double.sqrt, Double.mul,
      Double.sub, Double.div.
    rewrite sqrt_0, round_0. replace (0 / 80) with 0 by (field; lra).
    rewrite round_0. replace (1 - 0) with 1 by lra.
    rewrite (round_IZR 1) by reflexivity. rewrite Rmult_1_l.
    apply round_exact, double_lit_015. }
  split; [|exact H0]. rewrite H0.
  unfold PS64.lineOpacity, PS64.maxDistance, Double.sqrt, Double.mul,
    Double.sub, Double.div.
  assert (Es : sqrt (Double.bpow (-120)) = Double.bpow (-60)).
  { apply sqrt_lem_1.
    - left. apply bpow_pos.
    - left. apply bpow_pos.
    - rewrite <- bpow_plus. reflexivity. }
  rewrite Es.
  rewrite (round_exact (Double.bpow (-60))) by (double_num 1%Z (-60)%Z).
  set (t := Double.round (Double.bpow (-60) / 80)).
  assert (Ht : 0 <= t <= Double.bpow (-60)).
  { unfold t. split.
    - apply round_nonneg. pose proof (bpow_pos (-60)). nra.
    - rewrite <- (round_exact (Double.bpow (-60))) at 2
        by (double_num 1%Z (-60)%Z).
      apply round_le. pose proof (bpow_pos (-60)). lra. }
  assert (E1 : Double.round (1 - t) = 1).
  { apply Rle_antisym.
    - rewrite <- (round_IZR 1) at 2 by reflexivity. apply round_le. lra.
    - assert (El : Double.round (1 - Double.bpow (-60))
                   = IZR 9007199254740992 * Double.bpow (-1 - 52)).
      { apply round_pin.
        - simpl Z.add. bpow_num. rewrite Rabs_pos_eq by lra. lra.
        - lia.
        - simpl Z.sub. bpow_num. apply Rabs_def1; lra. }
      replace 1 with (Double.round (1 - Double.bpow (-60))) at 1
        by (rewrite El; simpl Z.sub; bpow_num; lra).
      apply round_le. lra. }
  rewrite E1, Rmult_1_l. apply round_exact, double_lit_015.
Qed.

End ThresholdExamples.



(** The loop of [initializeParticles] on two particles 60 apart. *)
Lemma connections_sample :
  distanceIP (dotIP 10 10) (dotIP 70 10) = 60
  /\ IP.connections [dotIP 10 10; dotIP 70 10] = [Line 10 10 70 10 0.06].
Proof.
  assert (Hd : distanceIP (dotIP 10 10) (dotIP 70 10) = 60)
    by (unfold distanceIP; simpl; apply euclid_60).
  split; [exact Hd|].
  unfold IP.connections. simpl.
  rewrite connect_near_IP by (rewrite Hd; lra).
  rewrite Hd. simpl. do 2 f_equal. unfold lineOpacity. lra.
Qed.

(** The opacity of the line of [initializeParticles] at distance 60, in
    binary64. *)
Lemma lineOpacity_IP_60 : IP64.lineOpacity 60 <= 0.078125.
Proof.
  unfold IP64.lineOpacity, IP.connectionDistance, Double.mul, Double.sub,
    Double.div.
  assert (Hq : 0.375 <= Double.round (60 / 150)).
  { rewrite <- (DoubleFacts.round_exact 0.375).
    - apply DoubleFacts.round_le. lra.
    - exists 3%Z, (-3)%Z. split; [reflexivity|]. split; [lia|].
      DoubleFacts.bpow_num. lra. }
  assert (Ht : 0 <= Double.round (1 - Double.round (60 / 150)) <= 0.625).
  { split.
    - apply DoubleFacts.round_nonneg.
      assert (Double.round (60 / 150) <= 1).
      { rewrite <- (DoubleFacts.round_IZR 1) by reflexivity.
        apply DoubleFacts.round_le. lra. }
      lra.
    - rewrite <- (DoubleFacts.round_exact 0.625).
      + apply DoubleFacts.round_le. lra.
      + exists 5%Z, (-3)%Z. split; [reflexivity|]. split; [lia|].
        DoubleFacts.bpow_num. lra. }
  assert (Hc : 0 <= Double.lit 0.1 <= 0.1 + 1e-17)
    by (rewrite DoubleFacts.lit_01; DoubleFacts.bpow_num; lra).
  rewrite <- (DoubleFacts.round_exact 0.078125).
  - apply DoubleFacts.round_le. nra.
  - exists 5%Z, (-6)%Z. split; [reflexivity|]. split; [lia|].
    DoubleFacts.bpow_num. lra.
Qed.

(** The loop of [initializeParticles] in binary64 on the same two
    particles, with a correctly rounded [Math.hypot]. *)
Lemma connections64_sample :
  IP64.distance IP64.hypotRounded (dotIP 10 10) (dotIP 70 10) = 60
  /\ IP64.connections IP64.hypotRounded [dotIP 10 10; dotIP 70 10]
     = [Line 10 10 70 10 (IP64.lineOpacity 60)].
Proof.
  assert (E : IP64.distance IP64.hypotRounded (dotIP 10 10) (dotIP 70 10)
              = 60).
  { unfold IP64.distance, IP64.hypotRounded, Double.sub. simpl.
    replace (10 - 70) with (-60) by lra.
    replace (10 - 10) with 0 by lra.
    rewrite (DoubleFacts.round_IZR (-60)) by reflexivity.
    rewrite DoubleFacts.round_0.
    replace (-60 * -60 + 0 * 0) with (60 * 60) by lra.
    rewrite sqrt_square by lra.
    apply (DoubleFacts.round_IZR 60). reflexivity. }
  split; [exact E|].
  unfold IP64.connections. simpl. unfold IP64.connect. rewrite E.
  unfold IP.connectionDistance.
  destruct (Rlt_dec 60 150) as [_|H]; [reflexivity | lra].
Qed.


(** C8.  Two particles at (10, 10) and (70, 10): [drawConnections], whose
    threshold is 80, draws exactly one line, between them, of opacity
    [0.15 * (1 - 60/80) = 0.0375].  The size of the surface plays no part. *)
Theorem connection_example_opacity (p1 p2 : PS.Particle) :
  PS.x p1 = 10 -> PS.y p1 = 10 -> PS.x p2 = 70 -> PS.y p2 = 10 ->
  PS.drawConnections [p1; p2] = [Line 10 10 70 10 0.0375]
  /\ 0.0375 = 0.15 * (1 - 60 / 80).
Proof.
  intros Hx1 Hy1 Hx2 Hy2.
  assert (Hd : distancePS p1 p2 = 60).
  { unfold distancePS. rewrite Hx1, Hy1, Hx2, Hy2. apply euclid_60. }
  split; [|lra].
  unfold PS.drawConnections. simpl.
  rewrite connect_near by (rewrite Hd; lra).
  rewrite Hd, Hx1, Hy1, Hx2, Hy2. simpl. do 2 f_equal. unfold lineOpacity. lra.
Qed.

Lemma connection_example_witness :
  PS.drawConnections [dotPS 10 10; dotPS 70 10] = [Line 10 10 70 10 0.0375]
  /\ 0.0375 = 0.15 * (1 - 60 / 80).
Proof.
  apply (connection_example_opacity (dotPS 10 10) (dotPS 70 10));
    reflexivity.
Defined.

(** ** Edges: wrapping and bouncing *)

Lemma wrap_cases (limit r c : R) :
  0 <= limit -> 0 <= r ->
  (c < - r -> PS.wrap limit r c = limit + r)
  /\ (limit + r < c -> PS.wrap limit r c = - r)
  /\ (- r <= c <= limit + r -> PS.wrap limit r c = c).
Proof.
  intros Hl Hr. unfold PS.wrap.
  destruct (Rlt_dec c (- r)) as [H1 | H1];
    [| destruct (Rgt_dec c (limit + r)) as [H2 | H2]];
    repeat split; intros; try reflexivity; unfold Rgt in *; lra.
Qed.

Lemma wrap_range (limit r c : R) :
  0 <= limit -> 0 <= r -> - r <= PS.wrap limit r c <= limit + r.
Proof.
  intros Hl Hr. unfold PS.wrap.
  destruct (Rlt_dec c (- r)); [lra|].
  destruct (Rgt_dec c (limit + r)); unfold Rgt in *; lra.
Qed.

Lemma radius_interact (v : PS.Variant) (s : PS.System) (p : PS.Particle) :
  PS.radius (PS.interact v s p) = PS.radius p.
Proof.
  destruct v; simpl; [reflexivity|].
  destruct (PS.interactionEnabled s); [|reflexivity].
  unfold PS.mouseInteraction.
  match goal with |- context [Rlt_dec ?a ?b] => destruct (Rlt_dec a b) end;
    reflexivity.
Qed.

Lemma radius_stepParticle v s now ft p :
  PS.radius (PS.stepParticle v s now ft p) = PS.radius p.
Proof. unfold PS.stepParticle. simpl. apply radius_interact. Qed.

Lemma stepParticle_inBounds v s now ft p :
  0 <= PS.radius p ->
  inBoundsPS (PS.width s) (PS.height s) (PS.stepParticle v s now ft p).
Proof.
  intro Hr. unfold inBoundsPS. rewrite radius_stepParticle.
  unfold PS.stepParticle. simpl. rewrite radius_interact.
  split; apply wrap_range; auto using pos_INR.
Qed.

Lemma initialised_keptPS wd ht p : initialisedPS wd ht p -> keptPS wd ht p.
Proof.
  unfold initialisedPS, keptPS, inBoundsPS. intros (Hx & Hy & _ & _ & Hr). lra.
Qed.

Lemma animate_particles v now w :
  PS.particles (PS.sys (PS.animate v now w)) = PS.particles (PS.sys w)
  \/ exists ft,
      PS.particles (PS.sys (PS.animate v now w))
      = map (PS.stepParticle v (PS.set_lastFrame now (PS.sys w)) now ft)
            (PS.particles (PS.sys w)).
Proof.
  unfold PS.animate. simpl.
  destruct (negb (PS.isVisible (PS.sys w)) || negb (PS.hasCtx (PS.sys w))
            || negb (PS.hasCanvas (PS.sys w)))%bool.
  - left. reflexivity.
  - right. eexists.
    destruct (Nat.eqb (PS.frameCount (PS.sys w) mod 2) 0); reflexivity.
Qed.

Lemma animate_size v now w :
  PS.width (PS.sys (PS.animate v now w)) = PS.width (PS.sys w)
  /\ PS.height (PS.sys (PS.animate v now w)) = PS.height (PS.sys w).
Proof.
  unfold PS.animate. simpl.
  destruct (negb (PS.isVisible (PS.sys w)) || negb (PS.hasCtx (PS.sys w))
            || negb (PS.hasCanvas (PS.sys w)))%bool; [split; reflexivity|].
  destruct (Nat.eqb (PS.frameCount (PS.sys w) mod 2) 0); split; reflexivity.
Qed.

Lemma animate_keptPS v now w :
  Forall (keptPS (PS.width (PS.sys w)) (PS.height (PS.sys w)))
         (PS.particles (PS.sys w)) ->
  Forall (keptPS (PS.width (PS.sys w)) (PS.height (PS.sys w)))
         (PS.particles (PS.sys (PS.animate v now w))).
Proof.
  intro H. destruct (animate_particles v now w) as [-> | [ft ->]]; [exact H|].
  apply Forall_map. eapply Forall_impl; [|exact H].
  intros p [Hr _]. split.
  - rewrite radius_stepParticle. exact Hr.
  - apply (stepParticle_inBounds v (PS.set_lastFrame now (PS.sys w))). exact Hr.
Qed.

Lemma frames_keptPS v nows : forall w,
  Forall (keptPS (PS.width (PS.sys w)) (PS.height (PS.sys w)))
         (PS.particles (PS.sys w)) ->
  PS.width (PS.sys (framesPS v nows w)) = PS.width (PS.sys w)
  /\ PS.height (PS.sys (framesPS v nows w)) = PS.height (PS.sys w)
  /\ Forall (keptPS (PS.width (PS.sys w)) (PS.height (PS.sys w)))
            (PS.particles (PS.sys (framesPS v nows w))).
Proof.
  induction nows as [|now rest IH]; intros w H; simpl.
  - auto.
  - destruct (animate_size v now w) as [Hw Hh].
    specialize (IH (PS.animate v now w)). rewrite Hw, Hh in IH.
    apply IH. apply animate_keptPS. exact H.
Qed.

(** One coordinate of [Particle.update] keeps [bouncing]. *)
Lemma bouncing_step (limit c vel : R) :
  0 <= limit -> bouncing limit c vel ->
  bouncing limit (c + vel)
           (if Rlt_dec (c + vel) 0 then - vel
            else if Rgt_dec (c + vel) limit then - vel else vel).
Proof.
  unfold bouncing. intros Hl (Hv & Hc & Hlo & Hhi).
  destruct (Rlt_dec (c + vel) 0) as [H1 | H1];
    [| destruct (Rgt_dec (c + vel) limit) as [H2 | H2]]; unfold Rgt in *.
  - repeat split; lra.
  - repeat split; lra.
  - repeat split; lra.
Qed.

Lemma initialised_keptIP wd ht p : initialisedIP wd ht p -> keptIP wd ht p.
Proof.
  unfold initialisedIP, keptIP, bouncing.
  intros (Hx & Hy & Hvx & Hvy & Hr). repeat split; lra.
Qed.

Lemma keptIP_inBounds wd ht p : keptIP wd ht p -> inBoundsIP wd ht p.
Proof.
  unfold keptIP, inBoundsIP, bouncing.
  intros ((_ & Hx & _) & (_ & Hy & _) & Hr). lra.
Qed.

Lemma update_keptIP wd ht p : keptIP wd ht p -> keptIP wd ht (IP.update wd ht p).
Proof.
  intros (Hx & Hy & Hr). unfold keptIP, IP.update. simpl.
  split; [|split].
  - apply bouncing_step; auto using pos_INR.
  - apply bouncing_step; auto using pos_INR.
  - exact Hr.
Qed.

Lemma framesIP_kept n : forall s,
  Forall (keptIP (IP.width s) (IP.height s)) (IP.particles s) ->
  IP.width (framesIP n s) = IP.width s
  /\ IP.height (framesIP n s) = IP.height s
  /\ Forall (keptIP (IP.width s) (IP.height s)) (IP.particles (framesIP n s)).
Proof.
  induction n as [|n IH]; intros s H.
  - simpl. auto.
  - destruct (IH s H) as (Hw & Hh & Hk).
    change (framesIP (S n) s) with (IP.animate (framesIP n s)).
    unfold IP.animate. simpl. repeat split; try assumption.
    apply Forall_map. rewrite Hw, Hh.
    eapply Forall_impl; [|exact Hk]. intros p. apply update_keptIP.
Qed.

(** The scripts create particles that are [initialised]. *)
Lemma newParticle_initialisedPS v wd ht rnd k :
  unitStream rnd -> initialisedPS wd ht (PS.newParticle v wd ht rnd k).
Proof.
  intro Hu. pose proof (pos_INR wd) as Hw. pose proof (pos_INR ht) as Hh.
  pose proof (Hu k) as H0. pose proof (Hu (k + 1)%nat) as H1.
  pose proof (Hu (k + 2)%nat) as H2. pose proof (Hu (k + 3)%nat) as H3.
  pose proof (Hu (k + 4)%nat) as H4. pose proof (Hu (k + 6)%nat) as H6.
  unfold initialisedPS. destruct v; simpl; repeat split; nra.
Qed.

Lemma newParticle_initialisedIP wd ht rnd k :
  unitStream rnd -> initialisedIP wd ht (IP.newParticle wd ht rnd k).
Proof.
  intro Hu. pose proof (pos_INR wd) as Hw. pose proof (pos_INR ht) as Hh.
  pose proof (Hu k) as H0. pose proof (Hu (k + 1)%nat) as H1.
  pose proof (Hu (k + 2)%nat) as H2. pose proof (Hu (k + 3)%nat) as H3.
  pose proof (Hu (k + 4)%nat) as H4.
  unfold initialisedIP. simpl; repeat split; nra.
Qed.

Lemma INR_800 : INR 800 = 800.
Proof. rewrite INR_IZR_INZ. reflexivity. Qed.

Lemma INR_600 : INR 600 = 600.
Proof. rewrite INR_IZR_INZ. reflexivity. Qed.

Lemma INR_500 : INR 500 = 500.
Proof. rewrite INR_IZR_INZ. reflexivity. Qed.

(** C1 (as amended).  On a canvas that keeps its size [wd] x [ht],
    particles that start inside it with the velocity and radius ranges of
    their initialisation stay, after any number of frames, within
    [[-radius, width + radius]] and [[-radius, height + radius]]: in the
    class (either copy, whatever the clock readings) because every update
    ends with the wrap, in [initializeParticles] because a particle leaves the
    canvas by at most one step of at most 0.25 before it turns back. *)
Theorem wrap_invariant (wd ht : nat) :
  (forall (v : PS.Variant) (w : PS.World) (nows : list R),
      PS.width (PS.sys w) = wd -> PS.height (PS.sys w) = ht ->
      Forall (initialisedPS wd ht) (PS.particles (PS.sys w)) ->
      Forall (inBoundsPS wd ht) (PS.particles (PS.sys (framesPS v nows w))))
  /\ (forall (s : IP.State) (n : nat),
         IP.width s = wd -> IP.height s = ht ->
         Forall (initialisedIP wd ht) (IP.particles s) ->
         Forall (inBoundsIP wd ht) (IP.particles (framesIP n s))).
Proof.
  split.
  - intros v w nows <- <- Hinit.
    destruct (frames_keptPS v nows w) as (_ & _ & Hk).
    + eapply Forall_impl; [|exact Hinit]. apply initialised_keptPS.
    + eapply Forall_impl; [|exact Hk]. intros p [_ Hb]. exact Hb.
  - intros s n <- <- Hinit.
    destruct (framesIP_kept n s) as (_ & _ & Hk).
    + eapply Forall_impl; [|exact Hinit]. apply initialised_keptIP.
    + eapply Forall_impl; [|exact Hk]. apply keptIP_inBounds.
Qed.

(** A particle next to the right and top edges, moving outwards, over three
    frames of either loop. *)
Lemma wrap_invariant_witness :
  Forall (inBoundsPS 800 600)
         (PS.particles
            (PS.sys
               (framesPS PS.Basic [1000; 1016; 1100]
                         (sampleWorld
                            [PS.mkParticle 799.9 0.1 0.25 (-0.25) 0 0 1 0.5
                                           0.01 0]))))
  /\ Forall (inBoundsIP 800 600)
            (IP.particles
               (framesIP 3 (sampleState [IP.mkParticle 799.9 0.1 0.25 (-0.25)
                                                       1 0.5]))).
Proof.
  split.
  - apply (proj1 (wrap_invariant 800 600)); try reflexivity.
    repeat constructor; simpl; rewrite ?INR_800, ?INR_600; lra.
  - apply (proj2 (wrap_invariant 800 600)); try reflexivity.
    repeat constructor; simpl; rewrite ?INR_800, ?INR_600; lra.
Defined.

(** C1, as first stated, fails in [initializeParticles] when the window is
    resized between two steps: a particle at [x = 700] on a canvas of 800 x
    600 that shrinks to 500 x 600 is at [x = 700.2] after the next frame,
    beyond [500 + radius]; the frame has only reversed its velocity. *)
Lemma wrap_invariant_counterexample :
  let p := IP.mkParticle 700 100 0.2 0 1 0.5 in
  let s := IP.run (IP.mkState 800 600 [p] [1%nat] 2 [])
                  [IP.WindowResize 500 600; IP.AnimationFrame] in
  initialisedIP 800 600 p
  /\ IP.width s = 500%nat /\ IP.height s = 600%nat
  /\ IP.particles s = [IP.mkParticle (700 + 0.2) (100 + 0) (- (0.2)) 0 1 0.5]
  /\ ~ Forall (inBoundsIP (IP.width s) (IP.height s)) (IP.particles s).
Proof.
  intros p s.
  assert (Hp : IP.particles s
               = [IP.mkParticle (700 + 0.2) (100 + 0) (- (0.2)) 0 1 0.5]).
  { unfold s, p, IP.run. cbn [fold_left IP.step]. unfold IP.runFrames.
    cbn [IP.pending fold_left]. unfold IP.animate.
    cbn [IP.particles IP.width IP.height map]. f_equal.
    unfold IP.update. cbn [IP.x IP.y IP.vx IP.vy IP.radius IP.opacity].
    rewrite INR_500, INR_600.
    destruct (Rlt_dec (700 + 0.2) 0) as [H|_]; [lra|].
    destruct (Rgt_dec (700 + 0.2) 500) as [_|H]; [|lra].
    destruct (Rlt_dec (100 + 0) 0) as [H|_]; [lra|].
    destruct (Rgt_dec (100 + 0) 600) as [H|_]; [lra|].
    reflexivity. }
  split; [|split; [|split; [|split]]].
  - unfold initialisedIP, p. simpl. rewrite INR_800, INR_600. lra.
  - reflexivity.
  - reflexivity.
  - exact Hp.
  - rewrite Hp. intro H. inversion H as [|? ? Hb _]; subst.
    destruct Hb as [[_ Hx] _]. revert Hx.
    change (IP.width s) with 500%nat. simpl. rewrite INR_500. lra.
Qed.

(** The same from the constructor: on any host whose [Math.random()] stays
    in [[0, 1)], the particles of a constructed system are within the
    expanded viewport after any further frames. *)
Lemma initLoop_initialised v wd ht rnd count : forall k,
  unitStream rnd -> Forall (initialisedPS wd ht) (PS.initLoop v wd ht rnd k count).
Proof.
  induction count as [|c IH]; intros k Hu; simpl; constructor.
  - apply newParticle_initialisedPS, Hu.
  - apply IH, Hu.
Qed.

Lemma constructor_keptPS v h now :
  unitStream (random h) ->
  let w := PS.constructor v h now in
  Forall (keptPS (PS.width (PS.sys w)) (PS.height (PS.sys w)))
         (PS.particles (PS.sys w)).
Proof.
  intros Hu w. subst w. unfold PS.constructor. simpl.
  destruct (negb (canvasPresent h)
            || negb (canvasPresent h && contextPresent h))%bool;
    [constructor|].
  destruct (reducedMotion h); [constructor|].
  simpl.
  match goal with
  | |- context [PS.animate v now ?w0] =>
      destruct (animate_size v now w0) as [-> ->];
      apply (animate_keptPS v now w0)
  end.
  eapply Forall_impl; [intros p; apply initialised_keptPS|].
  destruct (negb (PS.checkWebGLSupport h)); destruct v; simpl;
    apply initLoop_initialised, Hu.
Qed.

Lemma constructed_in_bounds v h now nows :
  unitStream (random h) ->
  let w := framesPS v nows (PS.constructor v h now) in
  Forall (inBoundsPS (PS.width (PS.sys w)) (PS.height (PS.sys w)))
         (PS.particles (PS.sys w)).
Proof.
  intros Hu w. subst w.
  destruct (frames_keptPS v nows (PS.constructor v h now)
                          (constructor_keptPS v h now Hu)) as (-> & -> & Hk).
  eapply Forall_impl; [|exact Hk]. intros p [_ Hb]. exact Hb.
Qed.

(** C3 (as amended).  In the class, a particle (of radius at least 0) whose
    position update leaves it at [x < -radius] is put at [width + radius],
    one left at [x > width + radius] is put at [-radius], one in between
    stays, and likewise for [y]; the velocity is the one the position update
    used, which in [src/script.js] is the velocity before the frame.  In
    [initializeParticles] no particle is relocated: past an edge of the
    canvas its velocity component is reversed. *)
Theorem edge_policy :
  (forall (v : PS.Variant) (s : PS.System) (now ft : R) (p : PS.Particle),
      0 <= PS.radius p ->
      let q := PS.stepParticle v s now ft p in
      let r := PS.radius p in
      (movedX v s ft p < - r -> PS.x q = INR (PS.width s) + r)
      /\ (movedX v s ft p > INR (PS.width s) + r -> PS.x q = - r)
      /\ (- r <= movedX v s ft p <= INR (PS.width s) + r ->
          PS.x q = movedX v s ft p)
      /\ (movedY v s ft p < - r -> PS.y q = INR (PS.height s) + r)
      /\ (movedY v s ft p > INR (PS.height s) + r -> PS.y q = - r)
      /\ (- r <= movedY v s ft p <= INR (PS.height s) + r ->
          PS.y q = movedY v s ft p)
      /\ PS.vx q = PS.vx (PS.interact v s p)
      /\ PS.vy q = PS.vy (PS.interact v s p))
  /\ (forall (s : PS.System) (now ft : R) (p : PS.Particle),
         PS.vx (PS.stepParticle PS.Basic s now ft p) = PS.vx p
         /\ PS.vy (PS.stepParticle PS.Basic s now ft p) = PS.vy p)
  /\ (forall (wd ht : nat) (p : IP.Particle),
         let q := IP.update wd ht p in
         IP.x q = IP.x p + IP.vx p
         /\ IP.y q = IP.y p + IP.vy p
         /\ (IP.x q < 0 \/ INR wd < IP.x q -> IP.vx q = - IP.vx p)
         /\ (0 <= IP.x q <= INR wd -> IP.vx q = IP.vx p)
         /\ (IP.y q < 0 \/ INR ht < IP.y q -> IP.vy q = - IP.vy p)
         /\ (0 <= IP.y q <= INR ht -> IP.vy q = IP.vy p)).
Proof.
  split; [|split].
  - intros v s now ft p Hr q r. subst q r.
    unfold PS.stepParticle. simpl. rewrite radius_interact.
    fold (movedX v s ft p) (movedY v s ft p).
    destruct (wrap_cases (INR (PS.width s)) (PS.radius p) (movedX v s ft p)
                         (pos_INR _) Hr) as (A & B & C).
    destruct (wrap_cases (INR (PS.height s)) (PS.radius p) (movedY v s ft p)
                         (pos_INR _) Hr) as (D & E & F).
    unfold Rgt. tauto.
  - intros s now ft p. split; reflexivity.
  - intros wd ht p q. subst q. unfold IP.update. simpl.
    destruct (Rlt_dec (IP.x p + IP.vx p) 0);
      destruct (Rgt_dec (IP.x p + IP.vx p) (INR wd));
      destruct (Rlt_dec (IP.y p + IP.vy p) 0);
      destruct (Rgt_dec (IP.y p + IP.vy p) (INR ht));
      unfold Rgt in *; repeat split; intros; lra.
Qed.

(** A particle that the position update carries past the right edge of an
    800 x 600 canvas reappears at [-radius] with its velocity. *)
Lemma edge_policy_witness :
  let s := PS.sys (sampleWorld []) in
  let p := PS.mkParticle 801 300 0.25 0 0 0 1 0.5 0.01 0 in
  PS.x (PS.stepParticle PS.Basic s 1100 1000 p) = -1
  /\ PS.vx (PS.stepParticle PS.Basic s 1100 1000 p) = 0.25.
Proof.
  intros s p.
  destruct (proj1 edge_policy PS.Basic s 1100 1000 p ltac:(simpl; lra))
    as (_ & B & _ & _ & _ & _ & Hv & _).
  split.
  - rewrite B; [reflexivity|].
    unfold movedX, PS.deltaTime, js_min, js_or. simpl.
    destruct (Req_dec_T 0.25 0); [lra|].
    rewrite INR_800.
    destruct (Rle_dec (1000 * 0.016) 1); lra.
  - exact Hv.
Defined.

(** C3, as first stated, fails on [initializeParticles].  A particle that
    steps over the left edge of the canvas stays where the step took it and
    has its velocity reversed; and a particle at [x = 700] after the canvas
    shrank to 500 x 600, which is past [width + radius], is likewise left
    there with its velocity reversed. *)
Lemma edge_policy_counterexample :
  (let p := IP.mkParticle 0.1 300 (-0.25) 0 1 0.5 in
   let q := IP.update 800 600 p in
   IP.x p + IP.vx p < 0
   /\ IP.x q = -0.15 /\ IP.x q <> INR 800 + IP.radius p
   /\ IP.vx q = 0.25 /\ IP.vx q <> IP.vx p)
  /\ (let p := IP.mkParticle 700 300 0.25 0 1 0.5 in
      let q := IP.update 500 600 p in
      IP.x p + IP.vx p > INR 500 + IP.radius p
      /\ IP.x q = 700.25 /\ IP.x q <> - IP.radius p
      /\ IP.vx q = -0.25 /\ IP.vx q <> IP.vx p).
Proof.
  split.
  - intros p q. subst p q. unfold IP.update. simpl. rewrite INR_800.
    destruct (Rlt_dec (0.1 + -0.25) 0); [|lra].
    repeat split; lra.
  - intros p q. subst p q. unfold IP.update. simpl. rewrite INR_500.
    destruct (Rlt_dec (700 + 0.25) 0); [lra|].
    destruct (Rgt_dec (700 + 0.25) 500); unfold Rgt in *; [|lra].
    repeat split; lra.
Qed.

(** ** The two outcomes of [animate] *)

Lemma running_guard (s : PS.System) :
  (negb (PS.isVisible s) || negb (PS.hasCtx s) || negb (PS.hasCanvas s))%bool
  = negb (running s).
Proof.
  unfold running.
  destruct (PS.isVisible s), (PS.hasCtx s), (PS.hasCanvas s); reflexivity.
Qed.

Lemma even_mod2 (n : nat) : Nat.eqb (n mod 2) 0 = Nat.even n.
Proof.
  rewrite <- Nat.bit0_mod, Nat.bit0_odd, <- Nat.negb_even.
  destruct (Nat.even n); reflexivity.
Qed.

(** The frame does not run: the handle is cleared, nothing is requested. *)
Lemma animate_idle v now w :
  running (PS.sys w) = false ->
  PS.animate v now w
  = PS.mkWorld (PS.set_animationId None (PS.sys w)) (PS.pending w)
               (PS.nextHandle w) (PS.listening w)
               (PS.log w ++ [Call Animate]).
Proof.
  intro H. unfold PS.animate. simpl. rewrite running_guard, H. reflexivity.
Qed.

(** The frame runs: fade, every particle updated then drawn, connections
    when the frame counter is even, and one frame requested. *)
Lemma animate_running v now w :
  running (PS.sys w) = true ->
  let s := PS.sys w in
  let ps := frameParticles v now s in
  PS.animate v now w
  = PS.mkWorld
      (PS.set_animationId
         (Some (PS.nextHandle w))
         (PS.set_frameCount
            (PS.frameCount s + 1)
            (PS.set_particles ps (PS.set_lastFrame now s))))
      (PS.pending w ++ [PS.nextHandle w])
      (S (PS.nextHandle w)) (PS.listening w)
      (PS.log w
       ++ [Call Animate;
           Draw (FillRect (INR (PS.width s)) (INR (PS.height s)))]
       ++ map (fun q => Draw (PS.drawParticle v now q)) ps
       ++ (if Nat.even (PS.frameCount s)
           then Call DrawConnections :: map Draw (PS.drawConnections ps)
           else [])
       ++ [RequestFrame (PS.nextHandle w)]).
Proof.
  intros H s ps. subst ps s. unfold PS.animate. simpl.
  rewrite running_guard, H. simpl. rewrite even_mod2.
  unfold frameParticles.
  destruct (Nat.even (PS.frameCount (PS.sys w)));
    unfold PS.requestAnimationFrame, PS.emits, PS.emit, PS.with_sys; simpl;
    rewrite <- ?app_assoc; simpl; rewrite <- ?app_assoc; reflexivity.
Qed.

Ltac animate_cases v now w :=
  let E := fresh "Erun" in
  destruct (running (PS.sys w)) eqn:E;
  [ rewrite (animate_running v now w E) | rewrite (animate_idle v now w E) ].

(** What no frame changes. *)
Lemma animate_static v now w :
  PS.hasCanvas (PS.sys (PS.animate v now w)) = PS.hasCanvas (PS.sys w)
  /\ PS.hasCtx (PS.sys (PS.animate v now w)) = PS.hasCtx (PS.sys w)
  /\ PS.isVisible (PS.sys (PS.animate v now w)) = PS.isVisible (PS.sys w)
  /\ PS.listening (PS.animate v now w) = PS.listening w.
Proof. animate_cases v now w; simpl; auto. Qed.

Lemma animate_length v now w :
  List.length (PS.particles (PS.sys (PS.animate v now w)))
  = List.length (PS.particles (PS.sys w)).
Proof.
  animate_cases v now w; simpl; [|reflexivity].
  unfold frameParticles. apply length_map.
Qed.

(** *** One requested frame at a time *)

Lemma animate_handleConsistent v now w :
  (1 <= PS.nextHandle w)%nat -> PS.pending w = [] ->
  handleConsistent (PS.animate v now w).
Proof.
  intros Hn Hp. unfold handleConsistent.
  animate_cases v now w; simpl; rewrite Hp; simpl.
  - split; [lia|]. split; [lia|reflexivity].
  - split; [assumption|reflexivity].
Qed.

Lemma runFrames_handleConsistent v now w :
  handleConsistent w -> handleConsistent (PS.runFrames v now w).
Proof.
  intros [Hn Hid]. unfold PS.runFrames.
  destruct (PS.animationId (PS.sys w)) as [id|] eqn:E.
  - destruct Hid as [_ ->]. simpl.
    apply animate_handleConsistent; [exact Hn | reflexivity].
  - rewrite Hid. simpl. split; simpl; [exact Hn | rewrite E; reflexivity].
Qed.

Lemma truthy_consistent w :
  handleConsistent w ->
  truthy (PS.animationId (PS.sys w)) = false ->
  PS.animationId (PS.sys w) = None /\ PS.pending w = [].
Proof.
  intros [_ Hid] Ht. destruct (PS.animationId (PS.sys w)) as [id|].
  - destruct Hid as [Hne _]. simpl in Ht.
    apply Bool.negb_false_iff, Nat.eqb_eq in Ht. contradiction.
  - auto.
Qed.

Lemma onVisibilityChange_handleConsistent v now hidden w :
  handleConsistent w -> handleConsistent (PS.onVisibilityChange v now hidden w).
Proof.
  intro H. unfold PS.onVisibilityChange. simpl.
  destruct (negb hidden); simpl; [|exact H].
  destruct (truthy (PS.animationId (PS.sys w))) eqn:Et; simpl; [exact H|].
  destruct (truthy_consistent w H Et) as [_ Hp].
  apply animate_handleConsistent; [apply H | exact Hp].
Qed.

Lemma destroy_handleConsistent w :
  handleConsistent w -> handleConsistent (PS.destroy w).
Proof.
  intros [Hn Hid]. unfold PS.destroy, handleConsistent. simpl.
  destruct (PS.animationId (PS.sys w)) as [id|] eqn:E; simpl.
  - destruct Hid as [Hne Hp].
    destruct (Nat.eqb id 0) eqn:E0; simpl.
    + apply Nat.eqb_eq in E0. contradiction.
    + rewrite Hp. simpl. rewrite Nat.eqb_refl. simpl. auto.
  - rewrite E. auto.
Qed.

Lemma step_handleConsistent v w e :
  handleConsistent w -> handleConsistent (PS.step v w e).
Proof.
  intro H. destruct e; simpl.
  - apply runFrames_handleConsistent, H.
  - destruct (PS.listening w); [|exact H].
    apply onVisibilityChange_handleConsistent, H.
  - destruct (PS.listening w); exact H.
  - destruct v; [exact H|].
    destruct (PS.listening w && PS.interactionEnabled (PS.sys w))%bool; exact H.
  - destruct v; [exact H|].
    destruct (PS.listening w && PS.interactionEnabled (PS.sys w))%bool; exact H.
  - apply destroy_handleConsistent, H.
Qed.

Lemma construct_handleConsistent v h now :
  handleConsistent (PS.constructor v h now).
Proof.
  unfold PS.constructor. simpl.
  destruct (negb (canvasPresent h)
            || negb (canvasPresent h && contextPresent h))%bool;
    [split; simpl; auto|].
  destruct (reducedMotion h); [split; simpl; auto|].
  match goal with
  | |- handleConsistent (PS.setupEventListeners (PS.animate v now ?w0)) =>
      destruct (animate_handleConsistent v now w0) as [Hn Hid]
  end.
  - destruct (negb (PS.checkWebGLSupport h)); simpl; lia.
  - destruct (negb (PS.checkWebGLSupport h)); reflexivity.
  - split; simpl; assumption.
Qed.

(** An invariant of every step holds after every run. *)
Lemma run_invariant (P : PS.World -> Prop) v :
  (forall w e, P w -> P (PS.step v w e)) ->
  forall es w, P w -> P (PS.run v w es).
Proof.
  intros Hstep es. unfold PS.run.
  induction es as [|e rest IH]; intros w H; simpl; auto.
Qed.

Lemma reachable_handleConsistent v h now es :
  handleConsistent (PS.run v (PS.constructor v h now) es).
Proof.
  apply run_invariant.
  - intros w e. apply step_handleConsistent.
  - apply construct_handleConsistent.
Qed.

(** *** Registered handlers *)

Lemma step_static v w e :
  PS.hasCanvas (PS.sys (PS.step v w e)) = PS.hasCanvas (PS.sys w)
  /\ PS.hasCtx (PS.sys (PS.step v w e)) = PS.hasCtx (PS.sys w)
  /\ PS.listening (PS.step v w e) = PS.listening w.
Proof.
  destruct e; simpl.
  - unfold PS.runFrames.
    assert (G : forall l w0,
               PS.hasCanvas (PS.sys (fold_left (fun w1 (_ : nat) => PS.animate v now w1) l w0))
               = PS.hasCanvas (PS.sys w0)
               /\ PS.hasCtx (PS.sys (fold_left (fun w1 (_ : nat) => PS.animate v now w1) l w0))
                  = PS.hasCtx (PS.sys w0)
               /\ PS.listening (fold_left (fun w1 (_ : nat) => PS.animate v now w1) l w0)
                  = PS.listening w0).
    { induction l as [|a l IH]; intro w0; simpl; [auto|].
      destruct (IH (PS.animate v now w0)) as (A & B & C).
      destruct (animate_static v now w0) as (A' & B' & _ & C').
      rewrite A, B, C. auto. }
    exact (G (PS.pending w)
             (PS.mkWorld (PS.sys w) [] (PS.nextHandle w) (PS.listening w)
                         (PS.log w))).
  - destruct (PS.listening w) eqn:El; [|auto].
    unfold PS.onVisibilityChange. simpl.
    destruct (negb hidden && _)%bool; [|simpl; auto].
    match goal with
    | |- context [PS.animate v now ?w0] =>
        destruct (animate_static v now w0) as (A & B & _ & C)
    end.
    rewrite A, B, C. simpl. auto.
  - destruct (PS.listening w) eqn:El; simpl; auto.
  - destruct v; [auto|].
    destruct (PS.listening w && PS.interactionEnabled (PS.sys w))%bool;
      simpl; auto.
  - destruct v; [auto|].
    destruct (PS.listening w && PS.interactionEnabled (PS.sys w))%bool;
      simpl; auto.
  - unfold PS.destroy. simpl.
    destruct (PS.animationId (PS.sys w)) as [id|]; simpl; [|auto].
    destruct (Nat.eqb id 0); simpl; auto.
Qed.

Lemma step_listenerConsistent v w e :
  listenerConsistent w -> listenerConsistent (PS.step v w e).
Proof.
  unfold listenerConsistent. destruct (step_static v w e) as (-> & -> & ->).
  auto.
Qed.

Lemma construct_listenerConsistent v h now :
  listenerConsistent (PS.constructor v h now).
Proof.
  unfold listenerConsistent, PS.constructor. simpl.
  destruct (canvasPresent h) eqn:Ec; simpl; [|discriminate].
  destruct (contextPresent h) eqn:Ex; simpl; [|discriminate].
  destruct (reducedMotion h); simpl; [discriminate|].
  intros _.
  match goal with
  | |- context [PS.animate v now ?w0] =>
      destruct (animate_static v now w0) as (A & B & _)
  end.
  rewrite A, B.
  destruct (negb (PS.checkWebGLSupport h)); destruct v; simpl; auto.
Qed.

Lemma reachable_listenerConsistent v h now es :
  listenerConsistent (PS.run v (PS.constructor v h now) es).
Proof.
  apply run_invariant.
  - intros w e. apply step_listenerConsistent.
  - apply construct_listenerConsistent.
Qed.

(** *** How many particles *)

Lemma getParticleCount_values (h : Host) :
  In (PS.getParticleCount h) [15; 25; 30; 40]%nat.
Proof.
  unfold PS.getParticleCount.
  destruct (isLowPerformanceDevice (userAgent h) || Nat.ltb (innerWidth h) 768)%bool;
    [simpl; auto|].
  destruct (Nat.ltb (innerWidth h) 1200); [simpl; auto|].
  destruct (webgl h || experimentalWebgl h)%bool; simpl; auto.
Qed.

Lemma getParticleCount_le_40 (h : Host) : (PS.getParticleCount h <= 40)%nat.
Proof.
  pose proof (getParticleCount_values h) as H. simpl in H.
  destruct H as [<- | [<- | [<- | [<- | []]]]]; lia.
Qed.

Lemma initLoop_length v wd ht rnd count : forall k,
  List.length (PS.initLoop v wd ht rnd k count) = count.
Proof.
  induction count as [|c IH]; intro k; simpl; [reflexivity|].
  rewrite IH. reflexivity.
Qed.

Lemma step_length v w e :
  List.length (PS.particles (PS.sys (PS.step v w e)))
  = List.length (PS.particles (PS.sys w)).
Proof.
  destruct e; simpl.
  - unfold PS.runFrames.
    assert (G : forall l w0,
               List.length (PS.particles (PS.sys (fold_left (fun w1 (_ : nat) => PS.animate v now w1) l w0)))
               = List.length (PS.particles (PS.sys w0))).
    { induction l as [|a l IH]; intro w0; simpl; [reflexivity|].
      rewrite IH. apply animate_length. }
    exact (G (PS.pending w)
             (PS.mkWorld (PS.sys w) [] (PS.nextHandle w) (PS.listening w)
                         (PS.log w))).
  - destruct (PS.listening w); [|reflexivity].
    unfold PS.onVisibilityChange. simpl.
    destruct (negb hidden && _)%bool; [|reflexivity].
    rewrite animate_length. reflexivity.
  - destruct (PS.listening w); reflexivity.
  - destruct v; [reflexivity|].
    destruct (PS.listening w && PS.interactionEnabled (PS.sys w))%bool;
      reflexivity.
  - destruct v; [reflexivity|].
    destruct (PS.listening w && PS.interactionEnabled (PS.sys w))%bool;
      reflexivity.
  - unfold PS.destroy. simpl.
    destruct (PS.animationId (PS.sys w)) as [id|]; simpl; [|reflexivity].
    destruct (Nat.eqb id 0); reflexivity.
Qed.

Lemma construct_length v h now :
  (List.length (PS.particles (PS.sys (PS.constructor v h now))) <= 40)%nat.
Proof.
  pose proof (getParticleCount_le_40 h) as Hc.
  unfold PS.constructor. simpl.
  destruct (negb (canvasPresent h)
            || negb (canvasPresent h && contextPresent h))%bool;
    [simpl; lia|].
  destruct (reducedMotion h); [simpl; lia|].
  simpl. rewrite animate_length.
  destruct (negb (PS.checkWebGLSupport h)); destruct v; simpl;
    rewrite initLoop_length; lia.
Qed.

Lemma run_length v es : forall w,
  List.length (PS.particles (PS.sys (PS.run v w es)))
  = List.length (PS.particles (PS.sys w)).
Proof.
  unfold PS.run. induction es as [|e rest IH]; intro w; simpl; [reflexivity|].
  rewrite IH. apply step_length.
Qed.

Lemma IP_run_length es : forall s,
  List.length (IP.particles (IP.run s es)) = List.length (IP.particles s).
Proof.
  unfold IP.run. induction es as [|e rest IH]; intro s; simpl; [reflexivity|].
  rewrite IH. destruct e; simpl; [|reflexivity].
  unfold IP.runFrames.
  assert (G : forall l s0,
             List.length (IP.particles (fold_left (fun s1 (_ : nat) => IP.animate s1) l s0))
             = List.length (IP.particles s0)).
  { induction l as [|a l IHl]; intro s0; simpl; [reflexivity|].
    rewrite IHl. unfold IP.animate. simpl. apply length_map. }
  exact (G (IP.pending s)
           (IP.mkState (IP.width s) (IP.height s) (IP.particles s) []
                       (IP.nextHandle s) (IP.log s))).
Qed.

Lemma createParticles_length wd ht rnd count : forall k,
  List.length (IP.createParticles wd ht rnd k count) = count.
Proof.
  induction count as [|c IH]; intro k; simpl; [reflexivity|].
  rewrite IH. reflexivity.
Qed.

Lemma initializeParticles_length (h : Host) (s : IP.State) :
  IP.initializeParticles h = Some s ->
  List.length (IP.particles s) = 50%nat.
Proof.
  unfold IP.initializeParticles.
  pose proof (createParticles_length (innerWidth h) (innerHeight h)
                                     (random h) IP.particleCount 0) as Hl.
  remember (IP.createParticles (innerWidth h) (innerHeight h) (random h) 0
                               IP.particleCount) as l.
  destruct (negb (canvasPresent h)); [discriminate|].
  destruct (contextPresent h); intro H; injection H as <-.
  - unfold IP.animate. cbn [IP.particles]. rewrite length_map. exact Hl.
  - exact Hl.
Qed.

(** C4 (as amended).  The class [ParticleSystem], in either copy, never holds
    more than 40 particles, whatever the host and the events; the loop of
    [initializeParticles] holds 50 particles from its creation on. *)
Theorem particle_count_bound :
  (forall (v : PS.Variant) (h : Host) (now : R) (es : list PS.Event),
      (List.length (PS.particles (PS.sys (PS.run v (PS.constructor v h now) es)))
       <= 40)%nat)
  /\ (forall (h : Host) (s : IP.State) (es : list IP.Event),
         IP.initializeParticles h = Some s ->
         List.length (IP.particles (IP.run s es)) = 50%nat).
Proof.
  split.
  - intros v h now es. rewrite run_length. apply construct_length.
  - intros h s es H. rewrite IP_run_length.
    apply (initializeParticles_length h s H).
Qed.

(** On a desktop browser the loop of [initializeParticles] starts and, a
    frame and a resize later, holds its 50 particles. *)
Lemma particle_count_witness :
  List.length
    (IP.particles
       (IP.run (IP.animate
                  (IP.mkState 1920 1080
                     (IP.createParticles 1920 1080 (random desktopHost) 0
                                         IP.particleCount) [] 1 []))
               [IP.AnimationFrame; IP.WindowResize 1280 720]))
  = 50%nat.
Proof.
  apply (proj2 particle_count_bound desktopHost). reflexivity.
Defined.

(** C4, as first stated, fails on [initializeParticles], which creates 50
    particles. *)
Lemma particle_count_counterexample :
  exists s : IP.State,
    IP.initializeParticles desktopHost = Some s
    /\ List.length (IP.particles s) = 50%nat
    /\ ~ (List.length (IP.particles s) <= 40)%nat.
Proof.
  eexists. split; [reflexivity|].
  rewrite (initializeParticles_length desktopHost _ eq_refl).
  split; [reflexivity | lia].
Qed.

(** ** Reduced motion *)

Lemma construct_dormant v h now :
  reducedMotion h = true -> dormant (PS.getParticleCount h) (PS.constructor v h now).
Proof.
  intro Hr. unfold PS.constructor. simpl. rewrite Hr.
  destruct (negb (canvasPresent h)
            || negb (canvasPresent h && contextPresent h))%bool;
    (repeat split; simpl; auto; exists 0%nat; reflexivity).
Qed.

Lemma destroy_dormant count w : dormant count w -> dormant count (PS.destroy w).
Proof.
  intros (Hl & Hc & Hp & Hid & Hps & n & Hlog).
  unfold PS.destroy. simpl. rewrite Hid. simpl.
  repeat split; auto. exists (S n).
  unfold PS.emit, PS.emits. cbn [PS.log]. rewrite Hlog.
  simpl. rewrite <- repeat_cons. reflexivity.
Qed.

Lemma runFrames_dormant count v now w :
  dormant count w -> dormant count (PS.runFrames v now w).
Proof.
  intros (Hl & Hc & Hp & Hid & Hps & n & Hlog).
  unfold PS.runFrames. rewrite Hp. simpl.
  repeat split; auto. exists n. assumption.
Qed.

Lemma step_dormant count v w e : dormant count w -> dormant count (PS.step v w e).
Proof.
  intro H. pose proof H as (Hl & _).
  destruct e; simpl; rewrite ?Hl; simpl.
  - apply runFrames_dormant, H.
  - exact H.
  - exact H.
  - destruct v; exact H.
  - destruct v; exact H.
  - apply destroy_dormant, H.
Qed.

Lemma filter_repeat_false (f : Effect -> bool) (e : Effect) (n : nat) :
  f e = false -> filter f (repeat e n) = [].
Proof.
  intro H. induction n as [|n IH]; simpl; [reflexivity|]. rewrite H. exact IH.
Qed.

(** C5 (as amended).  When the host reports the reduced-motion preference at
    construction, then whatever events follow no animation frame is ever
    requested, [animate] and [init] are never called and the particle array
    stays empty.  The particle count computation is another matter: the
    constructor calls [getParticleCount], once, before it looks at the
    preference, and stores its result. *)
Theorem reduced_motion_never_starts
        (v : PS.Variant) (h : Host) (now : R) (es : list PS.Event) :
  reducedMotion h = true ->
  let w := PS.run v (PS.constructor v h now) es in
  filter isRequestFrame (PS.log w) = []
  /\ PS.pending w = []
  /\ PS.animationId (PS.sys w) = None
  /\ filter (isCall Animate) (PS.log w) = []
  /\ filter (isCall Init) (PS.log w) = []
  /\ PS.particles (PS.sys w) = []
  /\ filter (isCall GetParticleCount) (PS.log w) = [Call GetParticleCount]
  /\ PS.particleCount (PS.sys w) = PS.getParticleCount h.
Proof.
  intros Hr w.
  assert (Hd : dormant (PS.getParticleCount h) w).
  { apply run_invariant.
    - intros w0 e. apply step_dormant.
    - apply construct_dormant, Hr. }
  destruct Hd as (_ & Hc & Hp & Hid & Hps & n & Hlog).
  rewrite Hlog. simpl. rewrite !filter_repeat_false by reflexivity.
  repeat split; assumption.
Qed.

Lemma reduced_motion_witness :
  let w := PS.run PS.Basic (PS.constructor PS.Basic reducedMotionHost 1000)
                  [PS.VisibilityChange 2000 true; PS.AnimationFrame 2016;
                   PS.VisibilityChange 3000 false; PS.BeforeUnload] in
  filter isRequestFrame (PS.log w) = []
  /\ PS.pending w = []
  /\ PS.animationId (PS.sys w) = None
  /\ filter (isCall Animate) (PS.log w) = []
  /\ filter (isCall Init) (PS.log w) = []
  /\ PS.particles (PS.sys w) = []
  /\ filter (isCall GetParticleCount) (PS.log w) = [Call GetParticleCount]
  /\ PS.particleCount (PS.sys w) = PS.getParticleCount reducedMotionHost.
Proof.
  apply (reduced_motion_never_starts PS.Basic reducedMotionHost). reflexivity.
Defined.

(** C5, as first stated, fails on the particle count computation: under
    reduced motion the constructor has called [getParticleCount] and stored
    its result, 40 on this host. *)
Lemma reduced_motion_counterexample :
  reducedMotion reducedMotionHost = true
  /\ PS.log (PS.constructor PS.Basic reducedMotionHost 1000)
     = [Call GetParticleCount]
  /\ PS.particleCount (PS.sys (PS.constructor PS.Basic reducedMotionHost 1000))
     = 40%nat
  /\ PS.log (PS.constructor PS.Enhanced reducedMotionHost 1000)
     = [Call GetParticleCount]
  /\ PS.particleCount (PS.sys (PS.constructor PS.Enhanced reducedMotionHost 1000))
     = 40%nat.
Proof. repeat split; reflexivity. Qed.

(** ** Visibility and teardown *)

Lemma filter_map_false {A : Type} (f : Effect -> bool) (g : A -> Effect)
      (l : list A) :
  (forall a, f (g a) = false) -> filter f (map g l) = [].
Proof.
  intro H. induction l as [|a l IH]; simpl; [reflexivity|].
  rewrite H. exact IH.
Qed.

(** A frame that runs requests exactly one frame, a frame that does not run
    requests none. *)
Lemma animate_requests v now w :
  filter isRequestFrame (PS.log (PS.animate v now w))
  = filter isRequestFrame (PS.log w)
    ++ (if running (PS.sys w) then [RequestFrame (PS.nextHandle w)] else []).
Proof.
  animate_cases v now w; cbn [PS.log]; rewrite !filter_app.
  - rewrite (filter_map_false isRequestFrame) by reflexivity.
    destruct (Nat.even (PS.frameCount (PS.sys w))); simpl;
      rewrite ?(filter_map_false isRequestFrame) by reflexivity; reflexivity.
  - reflexivity.
Qed.

(** Hiding the page: the handler only records it. *)
Lemma hide_step v t w :
  PS.listening w = true ->
  PS.step v w (PS.VisibilityChange t true)
  = PS.with_sys (PS.set_isVisible false (PS.sys w)) w.
Proof. intro Hl. simpl. rewrite Hl. reflexivity. Qed.

(** The frames requested before the page was hidden run and stop the loop. *)
Lemma hidden_frame v t w :
  handleConsistent w -> PS.isVisible (PS.sys w) = false ->
  let w' := PS.step v w (PS.AnimationFrame t) in
  PS.pending w' = [] /\ PS.animationId (PS.sys w') = None
  /\ filter isRequestFrame (PS.log w') = filter isRequestFrame (PS.log w)
  /\ PS.nextHandle w' = PS.nextHandle w
  /\ PS.listening w' = PS.listening w
  /\ PS.hasCanvas (PS.sys w') = PS.hasCanvas (PS.sys w)
  /\ PS.hasCtx (PS.sys w') = PS.hasCtx (PS.sys w).
Proof.
  intros [Hn Hid] Hv. simpl. unfold PS.runFrames.
  destruct (PS.animationId (PS.sys w)) as [id|] eqn:E.
  - destruct Hid as [_ ->]. simpl.
    rewrite animate_idle by (unfold running; simpl; rewrite Hv; reflexivity).
    simpl. rewrite filter_app. simpl. rewrite app_nil_r. auto 10.
  - rewrite Hid. simpl. auto 10.
Qed.

(** Showing the page again while no handle is stored restarts the loop. *)
Lemma show_step v t w :
  PS.listening w = true ->
  PS.hasCanvas (PS.sys w) = true -> PS.hasCtx (PS.sys w) = true ->
  PS.animationId (PS.sys w) = None -> PS.pending w = [] ->
  let w' := PS.step v w (PS.VisibilityChange t false) in
  PS.pending w' = [PS.nextHandle w]
  /\ PS.animationId (PS.sys w') = Some (PS.nextHandle w)
  /\ filter isRequestFrame (PS.log w')
     = filter isRequestFrame (PS.log w) ++ [RequestFrame (PS.nextHandle w)].
Proof.
  intros Hl Hc Hx Hid Hp. simpl. rewrite Hl.
  unfold PS.onVisibilityChange. simpl. rewrite Hid. simpl.
  match goal with
  | |- context [PS.animate v t ?w0] =>
      assert (Hr : running (PS.sys w0) = true)
        by (unfold running; simpl; rewrite Hc, Hx; reflexivity);
      rewrite (animate_requests v t w0), Hr;
      rewrite (animate_running v t w0 Hr)
  end.
  simpl. rewrite Hp. auto.
Qed.

(** C7.  From its construction on and whatever the events, the system has at
    most one requested frame.  The visibility handler leaves a stored handle
    alone.  When the page is hidden, the requested frame then runs and the
    page is shown again, the loop has stopped with its handle cleared and the
    handler starts it again with exactly one request. *)
Theorem single_animation_chain
        (v : PS.Variant) (h : Host) (now : R) (es : list PS.Event) :
  let w := PS.run v (PS.constructor v h now) es in
  (List.length (PS.pending w) <= 1)%nat
  /\ (forall t hidden,
         truthy (PS.animationId (PS.sys w)) = true ->
         PS.pending (PS.step v w (PS.VisibilityChange t hidden)) = PS.pending w
         /\ PS.log (PS.step v w (PS.VisibilityChange t hidden)) = PS.log w)
  /\ (PS.listening w = true ->
      forall t1 t2 t3,
        let w1 := PS.step v w (PS.VisibilityChange t1 true) in
        let w2 := PS.step v w1 (PS.AnimationFrame t2) in
        let w3 := PS.step v w2 (PS.VisibilityChange t3 false) in
        PS.pending w2 = []
        /\ PS.animationId (PS.sys w2) = None
        /\ filter isRequestFrame (PS.log w2) = filter isRequestFrame (PS.log w)
        /\ exists id,
            PS.pending w3 = [id]
            /\ PS.animationId (PS.sys w3) = Some id
            /\ filter isRequestFrame (PS.log w3)
               = filter isRequestFrame (PS.log w) ++ [RequestFrame id]).
Proof.
  intro w.
  pose proof (reachable_handleConsistent v h now es) as Hc.
  pose proof (reachable_listenerConsistent v h now es) as Hl.
  fold w in Hc, Hl. split; [|split].
  - destruct Hc as [_ Hid].
    destruct (PS.animationId (PS.sys w)); [destruct Hid as [_ ->] | rewrite Hid];
      simpl; lia.
  - intros t hidden Ht. simpl.
    destruct (PS.listening w); [|auto].
    unfold PS.onVisibilityChange. simpl. rewrite Ht. simpl.
    rewrite Bool.andb_false_r. auto.
  - intros Hlis t1 t2 t3 w1 w2 w3.
    destruct (Hl Hlis) as [Hcan Hctx].
    assert (E1 : w1 = PS.with_sys (PS.set_isVisible false (PS.sys w)) w)
      by (apply hide_step, Hlis).
    assert (Hc1 : handleConsistent w1) by (apply step_handleConsistent, Hc).
    destruct (hidden_frame v t2 w1 Hc1) as (Hp2 & Hid2 & Hr2 & Hn2 & Hl2 & Hcan2 & Hctx2).
    { rewrite E1. reflexivity. }
    fold w2 in Hp2, Hid2, Hr2, Hn2, Hl2, Hcan2, Hctx2.
    rewrite E1 in Hr2, Hl2, Hcan2, Hctx2. simpl in Hr2, Hl2, Hcan2, Hctx2.
    destruct (show_step v t3 w2) as (Hp3 & Hid3 & Hr3); try congruence.
    fold w3 in Hp3, Hid3, Hr3.
    repeat split; try assumption.
    exists (PS.nextHandle w2). rewrite <- Hr2. auto.
Qed.

(** On a desktop browser, one frame into the animation: hide, let the
    requested frame run, show. *)
Lemma single_animation_chain_witness :
  let w := PS.run PS.Basic (PS.constructor PS.Basic desktopHost 1000)
                  [PS.AnimationFrame 1016] in
  let w1 := PS.step PS.Basic w (PS.VisibilityChange 2000 true) in
  let w2 := PS.step PS.Basic w1 (PS.AnimationFrame 2016) in
  let w3 := PS.step PS.Basic w2 (PS.VisibilityChange 3000 false) in
  PS.pending w2 = []
  /\ PS.animationId (PS.sys w2) = None
  /\ filter isRequestFrame (PS.log w2) = filter isRequestFrame (PS.log w)
  /\ exists id,
      PS.pending w3 = [id]
      /\ PS.animationId (PS.sys w3) = Some id
      /\ filter isRequestFrame (PS.log w3)
         = filter isRequestFrame (PS.log w) ++ [RequestFrame id].
Proof.
  apply (proj2 (proj2 (single_animation_chain
                         PS.Basic desktopHost 1000 [PS.AnimationFrame 1016]))).
  reflexivity.
Defined.

(** *** [destroy] *)

Lemma destroy_cleared w :
  PS.animationId (PS.sys w) = None ->
  PS.destroy w = PS.emit (Call Destroy) w.
Proof. intro H. unfold PS.destroy. simpl. rewrite H. reflexivity. Qed.

(** C9.  After [destroy], on any system the constructor and the events can
    produce, the handle is null and no frame is requested; a second
    [destroy] cancels nothing and leaves the object and the frame queue as
    they are: all it adds is the record of its own call. *)
Theorem destroy_idempotent
        (v : PS.Variant) (h : Host) (now : R) (es : list PS.Event) :
  let w := PS.run v (PS.constructor v h now) es in
  let w1 := PS.destroy w in
  PS.animationId (PS.sys w1) = None
  /\ PS.pending w1 = []
  /\ PS.destroy w1 = PS.emit (Call Destroy) w1
  /\ PS.sys (PS.destroy w1) = PS.sys w1
  /\ PS.pending (PS.destroy w1) = PS.pending w1
  /\ PS.nextHandle (PS.destroy w1) = PS.nextHandle w1
  /\ filter isCancelFrame (PS.log (PS.destroy w1))
     = filter isCancelFrame (PS.log w1).
Proof.
  intros w w1.
  pose proof (reachable_handleConsistent v h now es) as Hc. fold w in Hc.
  pose proof (destroy_handleConsistent w Hc) as Hc1. fold w1 in Hc1.
  assert (Hid : PS.animationId (PS.sys w1) = None).
  { subst w1. destruct Hc as [_ Hid]. unfold PS.destroy. simpl.
    destruct (PS.animationId (PS.sys w)) as [id|] eqn:E; simpl.
    - destruct (Nat.eqb id 0) eqn:E0; simpl; [|reflexivity].
      apply Nat.eqb_eq in E0. destruct Hid as [Hne _]. contradiction.
    - exact E. }
  split; [exact Hid|]. split.
  - destruct Hc1 as [_ H1]. rewrite Hid in H1. exact H1.
  - rewrite (destroy_cleared w1 Hid). repeat split.
    unfold PS.emit, PS.emits. cbn [PS.log]. rewrite filter_app. simpl.
    apply app_nil_r.
Qed.

(** ** What a frame draws *)

Lemma filter_all {A : Type} (f : A -> bool) (l : list A) :
  (forall a, In a l -> f a = true) -> filter f l = l.
Proof.
  induction l as [|a l IH]; intro H; simpl; [reflexivity|].
  rewrite (H a (or_introl eq_refl)). f_equal. apply IH.
  intros b Hb. apply H. right. exact Hb.
Qed.

Lemma filter_none {A : Type} (f : A -> bool) (l : list A) :
  (forall a, In a l -> f a = false) -> filter f l = [].
Proof.
  induction l as [|a l IH]; intro H; simpl; [reflexivity|].
  rewrite (H a (or_introl eq_refl)). apply IH.
  intros b Hb. apply H. right. exact Hb.
Qed.

Lemma drawConnections_lines (ps : list PS.Particle) (e : Effect) :
  In e (map Draw (PS.drawConnections ps)) -> isLine e = true /\ isDisc e = false.
Proof.
  intro H. apply in_map_iff in H. destruct H as (op & <- & Hin).
  apply in_forEachPair in Hin. destruct Hin as (i & j & p & q & _ & _ & _ & Hc).
  apply connect_spec in Hc. destruct Hc as [_ ->]. split; reflexivity.
Qed.

Lemma connections_lines (ps : list IP.Particle) (e : Effect) :
  In e (map Draw (IP.connections ps)) -> isLine e = true /\ isDisc e = false.
Proof.
  intro H. apply in_map_iff in H. destruct H as (op & <- & Hin).
  apply in_forEachPair in Hin. destruct Hin as (i & j & p & q & _ & _ & _ & Hc).
  apply connect_spec_IP in Hc. destruct Hc as [_ ->]. split; reflexivity.
Qed.

Lemma drawParticle_disc v now (ps : list PS.Particle) :
  filter isDisc (map (fun q => Draw (PS.drawParticle v now q)) ps)
  = map (fun q => Draw (PS.drawParticle v now q)) ps
  /\ filter isLine (map (fun q => Draw (PS.drawParticle v now q)) ps) = [].
Proof.
  split.
  - apply filter_all. intros e H. apply in_map_iff in H.
    destruct H as (q & <- & _). destruct v; reflexivity.
  - apply filter_map_false. intro q. destruct v; reflexivity.
Qed.

(** The trace of a frame of the class that runs. *)
Lemma animate_frame v now w :
  running (PS.sys w) = true ->
  let w' := PS.animate v now w in
  exists delta,
    PS.log w' = PS.log w ++ delta
    /\ PS.particles (PS.sys w') = frameParticles v now (PS.sys w)
    /\ filter isDisc delta
       = map (fun q => Draw (PS.drawParticle v now q)) (PS.particles (PS.sys w'))
    /\ existsb (isCall DrawConnections) delta
       = Nat.even (PS.frameCount (PS.sys w))
    /\ filter isLine delta
       = (if Nat.even (PS.frameCount (PS.sys w))
          then map Draw (PS.drawConnections (PS.particles (PS.sys w')))
          else [])
    /\ PS.frameCount (PS.sys w') = S (PS.frameCount (PS.sys w)).
Proof.
  intros Hr w'. subst w'. rewrite (animate_running v now w Hr).
  cbn [PS.log PS.sys PS.particles PS.frameCount PS.set_animationId
       PS.set_frameCount PS.set_particles].
  set (ps := frameParticles v now (PS.sys w)).
  destruct (drawParticle_disc v now ps) as [Hd Hl].
  eexists. split; [reflexivity|]. split; [reflexivity|].
  rewrite !filter_app, !existsb_app, Hd, Hl.
  assert (Hcalls : existsb (isCall DrawConnections)
                     (map (fun q => Draw (PS.drawParticle v now q)) ps) = false).
  { clear. induction ps as [|q l IH]; simpl; [reflexivity | exact IH]. }
  rewrite Hcalls.
  destruct (Nat.even (PS.frameCount (PS.sys w))); simpl.
  - rewrite (filter_all isLine) by (intros e He; apply (drawConnections_lines ps e He)).
    rewrite (filter_none isDisc) by (intros e He; apply (drawConnections_lines ps e He)).
    rewrite !app_nil_r. repeat split; try reflexivity. lia.
  - rewrite !app_nil_r. repeat split; try reflexivity. lia.
Qed.

(** The trace of a frame of [initializeParticles]. *)
Lemma animate_frame_IP (s : IP.State) :
  let s' := IP.animate s in
  exists delta,
    IP.log s' = IP.log s ++ delta
    /\ IP.particles s' = map (IP.update (IP.width s) (IP.height s)) (IP.particles s)
    /\ filter isDisc delta = map (fun p => Draw (IP.draw p)) (IP.particles s')
    /\ filter isLine delta = map Draw (IP.connections (IP.particles s')).
Proof.
  intro s'. subst s'. unfold IP.animate. cbn [IP.log IP.particles].
  set (ps := map (IP.update (IP.width s) (IP.height s)) (IP.particles s)).
  eexists. split; [reflexivity|]. split; [reflexivity|].
  rewrite !filter_app.
  rewrite (filter_all isDisc (map (fun p => Draw (IP.draw p)) ps)).
  2:{ intros e He. apply in_map_iff in He. destruct He as (p & <- & _). reflexivity. }
  rewrite (filter_map_false isLine (fun p => Draw (IP.draw p))) by reflexivity.
  rewrite (filter_all isLine (map Draw (IP.connections ps)))
    by (intros e He; apply (connections_lines ps e He)).
  rewrite (filter_none isDisc (map Draw (IP.connections ps)))
    by (intros e He; apply (connections_lines ps e He)).
  simpl. rewrite !app_nil_r. split; reflexivity.
Qed.

(** C6 (as amended).  A frame of the class that runs updates every particle
    and draws every particle; it enters [drawConnections], and so draws
    connection lines, exactly when the frame counter is even, and it then
    advances the counter by one, so connections come on alternating frames.
    A frame of [initializeParticles] updates and draws every particle and
    draws its connections, every time. *)
Theorem connections_on_even_frames :
  (forall (v : PS.Variant) (now : R) (w : PS.World),
      running (PS.sys w) = true ->
      let w' := PS.animate v now w in
      exists delta,
        PS.log w' = PS.log w ++ delta
        /\ PS.particles (PS.sys w') = frameParticles v now (PS.sys w)
        /\ filter isDisc delta
           = map (fun q => Draw (PS.drawParticle v now q))
                 (PS.particles (PS.sys w'))
        /\ existsb (isCall DrawConnections) delta
           = Nat.even (PS.frameCount (PS.sys w))
        /\ filter isLine delta
           = (if Nat.even (PS.frameCount (PS.sys w))
              then map Draw (PS.drawConnections (PS.particles (PS.sys w')))
              else [])
        /\ PS.frameCount (PS.sys w') = S (PS.frameCount (PS.sys w)))
  /\ (forall s : IP.State,
         let s' := IP.animate s in
         exists delta,
           IP.log s' = IP.log s ++ delta
           /\ IP.particles s'
              = map (IP.update (IP.width s) (IP.height s)) (IP.particles s)
           /\ filter isDisc delta
              = map (fun p => Draw (IP.draw p)) (IP.particles s')
           /\ filter isLine delta
              = map Draw (IP.connections (IP.particles s'))).
Proof.
  split.
  - exact animate_frame.
  - exact animate_frame_IP.
Qed.

(** Two particles 60 apart on a running system, second frame: the frame
    counter is 1 and no line is drawn. *)
Lemma connections_on_even_frames_witness :
  let w := PS.animate PS.Basic 1000 (sampleWorld [dotPS 10 10; dotPS 70 10]) in
  let w' := PS.animate PS.Basic 1016 w in
  exists delta,
    PS.log w' = PS.log w ++ delta
    /\ PS.particles (PS.sys w') = frameParticles PS.Basic 1016 (PS.sys w)
    /\ filter isDisc delta
       = map (fun q => Draw (PS.drawParticle PS.Basic 1016 q))
             (PS.particles (PS.sys w'))
    /\ existsb (isCall DrawConnections) delta = false
    /\ filter isLine delta = []
    /\ PS.frameCount (PS.sys w') = 2%nat.
Proof.
  apply (proj1 connections_on_even_frames PS.Basic 1016
               (PS.animate PS.Basic 1000
                           (sampleWorld [dotPS 10 10; dotPS 70 10]))).
  reflexivity.
Defined.

Lemma update_rest (wd ht : nat) (a b : R) :
  IP.update wd ht (dotIP a b) = dotIP a b.
Proof.
  unfold IP.update, dotIP. simpl. rewrite !Rplus_0_r.
  destruct (Rlt_dec a 0), (Rgt_dec a (INR wd)), (Rlt_dec b 0),
    (Rgt_dec b (INR ht)); rewrite ?Ropp_0; reflexivity.
Qed.

Lemma lines_after_frame (s : IP.State) :
  filter isLine (IP.log (IP.animate s))
  = filter isLine (IP.log s)
    ++ map Draw (IP.connections (IP.particles (IP.animate s))).
Proof.
  destruct (animate_frame_IP s) as (delta & Hlog & _ & _ & Hlines).
  rewrite Hlog, filter_app, Hlines. reflexivity.
Qed.

(** C6, as first stated, fails on [initializeParticles]: with two particles
    60 apart, the first frame draws their connection and so does the second,
    the very next one. *)
Lemma connections_every_frame_counterexample :
  let s0 := sampleState [dotIP 10 10; dotIP 70 10] in
  filter isLine (IP.log (framesIP 1 s0)) = [Draw (Line 10 10 70 10 0.06)]
  /\ filter isLine (IP.log (framesIP 2 s0))
     = [Draw (Line 10 10 70 10 0.06); Draw (Line 10 10 70 10 0.06)].
Proof.
  intro s0.
  assert (Hps : forall s, IP.particles s = [dotIP 10 10; dotIP 70 10] ->
                          IP.particles (IP.animate s)
                          = [dotIP 10 10; dotIP 70 10]).
  { intros s Hs. unfold IP.animate. cbn [IP.particles]. rewrite Hs. simpl.
    rewrite !update_rest. reflexivity. }
  destruct connections_sample as (_ & Hconn).
  assert (H1 : filter isLine (IP.log (framesIP 1 s0))
               = [Draw (Line 10 10 70 10 0.06)]).
  { change (framesIP 1 s0) with (IP.animate s0).
    rewrite lines_after_frame, (Hps s0 eq_refl), Hconn. reflexivity. }
  split; [exact H1|].
  change (framesIP 2 s0) with (IP.animate (framesIP 1 s0)).
  rewrite lines_after_frame, H1.
  rewrite (Hps (framesIP 1 s0) (Hps s0 eq_refl)), Hconn. reflexivity.
Qed.

(** ** The opacity pulse *)

Section PulseInBinary64.
Import DoubleFacts.

Lemma pulseFloor_value : 0.1 - Double.bpow (-55) < pulseFloor < 0.1.
Proof. unfold pulseFloor. bpow_num. lra. Qed.

Lemma pulseOpacity_lowest : PS64.pulseOpacity (-1) = pulseFloor.
Proof.
  unfold PS64.pulseOpacity, Double.add, Double.mul.
  rewrite lit_03, lit_02.
  rewrite (round_exact (IZR 7205759403792794 * Double.bpow (-55) * -1)).
  - rewrite round_exact; [unfold pulseFloor; bpow_num; lra|].
    exists 900719925474099%Z, (-53)%Z.
    split; [reflexivity|]. split; [lia|]. bpow_num. lra.
  - exists (-7205759403792794)%Z, (-55)%Z.
    split; [reflexivity|]. split; [lia|]. bpow_num. lra.
Qed.

Lemma pulseOpacity_highest : PS64.pulseOpacity 1 = 0.5.
Proof.
  unfold PS64.pulseOpacity, Double.add, Double.mul.
  rewrite lit_03, lit_02.
  rewrite (round_exact (IZR 7205759403792794 * Double.bpow (-55) * 1)).
  - replace (IZR 5404319552844595 * Double.bpow (-54)
             + IZR 7205759403792794 * Double.bpow (-55) * 1)
      with (IZR 1 * Double.bpow (-1)) by (bpow_num; lra).
    rewrite round_exact; [bpow_num; lra|].
    exists 1%Z, (-1)%Z. split; [reflexivity|]. split; [lia|]. reflexivity.
  - exists 7205759403792794%Z, (-55)%Z.
    split; [reflexivity|]. split; [lia|]. bpow_num. lra.
Qed.

Lemma pulseOpacity_le (s t : R) :
  s <= t -> PS64.pulseOpacity s <= PS64.pulseOpacity t.
Proof.
  intro H. unfold PS64.pulseOpacity, Double.add, Double.mul.
  apply round_le, Rplus_le_compat_l, round_le.
  apply Rmult_le_compat_l; [|exact H].
  rewrite lit_02. bpow_num. lra.
Qed.

Lemma pulseOpacity_range (s : R) :
  -1 <= s <= 1 -> pulseFloor <= PS64.pulseOpacity s <= 0.5.
Proof.
  intros [Hl Hh]. rewrite <- pulseOpacity_lowest, <- pulseOpacity_highest.
  split; apply pulseOpacity_le; assumption.
Qed.

End PulseInBinary64.

Lemma stepParticle_pulsed s now ft p :
  pulsed (PS.stepParticle PS.Basic s now ft p).
Proof.
  unfold pulsed, PS.stepParticle, PS.pulse. simpl.
  pose proof (SIN_bound (now * js_or (PS.pulseSpeed p) 0.01)) as [Hlo Hhi].
  pose proof pulseFloor_value. lra.
Qed.

Lemma animate_pulsed now w :
  Forall pulsed (PS.particles (PS.sys w)) ->
  Forall pulsed (PS.particles (PS.sys (PS.animate PS.Basic now w))).
Proof.
  intro H. destruct (animate_particles PS.Basic now w) as [-> | [ft ->]];
    [exact H|].
  apply Forall_map, Forall_forall. intros p _. apply stepParticle_pulsed.
Qed.

Lemma step_pulsed w e :
  Forall pulsed (PS.particles (PS.sys w)) ->
  Forall pulsed (PS.particles (PS.sys (PS.step PS.Basic w e))).
Proof.
  intro H. destruct e; simpl; try exact H.
  - unfold PS.runFrames.
    assert (G : forall l w0,
               Forall pulsed (PS.particles (PS.sys w0)) ->
               Forall pulsed
                 (PS.particles
                    (PS.sys (fold_left
                               (fun w1 (_ : nat) => PS.animate PS.Basic now w1)
                               l w0)))).
    { induction l as [|a l IH]; intros w0 H0; simpl; [exact H0|].
      apply IH, animate_pulsed, H0. }
    apply G. exact H.
  - destruct (PS.listening w); [|exact H].
    unfold PS.onVisibilityChange. simpl.
    destruct (negb hidden && _)%bool; [|exact H].
    apply animate_pulsed. exact H.
  - destruct (PS.listening w); exact H.
  - unfold PS.destroy. simpl.
    destruct (PS.animationId (PS.sys w)) as [id|]; simpl; [|exact H].
    destruct (Nat.eqb id 0); exact H.
Qed.

Lemma construct_pulsed h now :
  Forall pulsed (PS.particles (PS.sys (PS.constructor PS.Basic h now))).
Proof.
  unfold PS.constructor. simpl.
  destruct (canvasPresent h) eqn:Ec; simpl; [|constructor].
  destruct (contextPresent h) eqn:Ex; simpl; [|constructor].
  destruct (reducedMotion h); simpl; [constructor|].
  match goal with
  | |- context [PS.animate PS.Basic now ?w0] =>
      assert (Hr : running (PS.sys w0) = true)
        by (unfold running; destruct (negb (PS.checkWebGLSupport h));
            reflexivity);
      rewrite (animate_running PS.Basic now w0 Hr)
  end.
  cbn [PS.sys PS.particles PS.set_animationId PS.set_frameCount
       PS.set_particles].
  unfold frameParticles. apply Forall_map, Forall_forall.
  intros p _. apply stepParticle_pulsed.
Qed.

(** C10 (as amended).  In [src/script.js] a particle leaves every update
    with the opacity [0.3 + 0.2 * sin(now * (pulseSpeed || 0.01))], which
    does not depend on the opacity it had.  Evaluated in binary64, for any
    value of [Math.sin] between -1 and 1, the expression lies between
    [0.3 - 0.2], which there is [0.09999999999999998] and not [0.1], and
    [0.5]; both ends are reached when [Math.sin] returns -1 and 1.  Since
    the constructor runs the first frame right after [init], every particle
    the system ever holds has its opacity in that interval, although [init]
    draws it from [[0.2, 0.8)]. *)
Theorem opacity_pulse_range :
  (PS64.pulseOpacity (-1) = pulseFloor /\ PS64.pulseOpacity 1 = 0.5
   /\ 0.1 - Double.bpow (-55) < pulseFloor < 0.1
   /\ forall s : R, -1 <= s <= 1 -> pulseFloor <= PS64.pulseOpacity s <= 0.5)
  /\ (forall (s : PS.System) (now ft : R) (p : PS.Particle),
         let q := PS.stepParticle PS.Basic s now ft p in
         pulseFloor <= PS.opacity q <= 0.5
         /\ PS.opacity q = 0.3 + 0.2 * sin (now * js_or (PS.pulseSpeed p) 0.01)
         /\ forall o : R, PS.stepParticle PS.Basic s now ft (withOpacity o p) = q)
  /\ (forall (h : Host) (now : R) (es : list PS.Event) (q : PS.Particle),
         In q (PS.particles
                 (PS.sys (PS.run PS.Basic (PS.constructor PS.Basic h now) es))) ->
         pulseFloor <= PS.opacity q <= 0.5)
  /\ (forall (wd ht : nat) (rnd : nat -> R) (k : nat),
         unitStream rnd ->
         0.2 <= PS.opacity (PS.newParticle PS.Basic wd ht rnd k) < 0.8).
Proof.
  split; [|split; [|split]].
  - split; [apply pulseOpacity_lowest|]. split; [apply pulseOpacity_highest|].
    split; [apply pulseFloor_value | apply pulseOpacity_range].
  - intros s now ft p q. split; [apply stepParticle_pulsed|].
    split; reflexivity.
  - intros h now es q Hq.
    assert (H : Forall pulsed
                  (PS.particles
                     (PS.sys (PS.run PS.Basic (PS.constructor PS.Basic h now) es)))).
    { apply (run_invariant
               (fun w => Forall pulsed (PS.particles (PS.sys w))) PS.Basic).
      - intros w e. apply step_pulsed.
      - apply construct_pulsed. }
    rewrite Forall_forall in H. apply H, Hq.
  - intros wd ht rnd k Hu. simpl. pose proof (Hu (k + 5)%nat). lra.
Qed.

(** A particle that [init] gave opacity 0.7 has, after the first frame, an
    opacity of at most 0.5; and the pulse in binary64 when [Math.sin]
    returns one half. *)
Lemma opacity_pulse_witness :
  (let p := PS.mkParticle 10 10 0.1 0.1 0 0 2 0.7 0.02 0 in
   let q := PS.stepParticle PS.Basic (PS.sys (sampleWorld [p])) 1000 0 p in
   pulseFloor <= PS.opacity q <= 0.5
   /\ PS.opacity q = 0.3 + 0.2 * sin (1000 * js_or 0.02 0.01)
   /\ forall o : R,
       PS.stepParticle PS.Basic (PS.sys (sampleWorld [p])) 1000 0
                       (withOpacity o p) = q)
  /\ pulseFloor <= PS64.pulseOpacity 0.5 <= 0.5.
Proof.
  split.
  - intros p q.
    exact (proj1 (proj2 opacity_pulse_range)
                 (PS.sys (sampleWorld [p])) 1000 0 p).
  - apply (proj2 (proj2 (proj2 (proj1 opacity_pulse_range)))). lra.
Defined.

(** ** The lower end in binary64

    [0x1.3333333333333p-2], [0x1.999999999999ap-3] and [0x1.999999999999ap-4]
    are the binary64 values of the literals [0.3], [0.2] and [0.1].  The
    expression evaluated with the machine's own binary64 arithmetic agrees
    with [PS64.pulseOpacity] at both ends: one half at the upper end, and
    [0.09999999999999998] at the lower end. *)
Section Rounding.
Import Floats.

Remark pulseOpacity64_ends :
  Binary64.pulseOpacity64 1 = 0.5%float
  /\ Binary64.pulseOpacity64 (-1) = 0x1.9999999999998p-4%float
  /\ PrimFloat.ltb (Binary64.pulseOpacity64 (-1)) 0x1.999999999999ap-4%float
     = true.
Proof. repeat split; vm_compute; reflexivity. Qed.

(** C10, as first stated, fails at the lower end: when [Math.sin] returns
    -1 the update leaves the particle with an opacity below [0.1], in the
    rounded model and in the machine's arithmetic alike. *)
Lemma opacity_pulse_counterexample :
  PS64.pulseOpacity (-1) < 0.1
  /\ PrimFloat.ltb (Binary64.pulseOpacity64 (-1)) 0x1.999999999999ap-4%float
     = true.
Proof.
  split.
  - rewrite pulseOpacity_lowest. apply pulseFloor_value.
  - vm_compute. reflexivity.
Qed.

End Rounding.

(** * Further properties of the two loops *)

(** ** What [init] and [new Particle()] create *)

Lemma newParticle_initRanges v wd ht rnd k :
  unitStream rnd -> initRanges v wd ht (PS.newParticle v wd ht rnd k).
Proof.
  intro Hu. pose proof (pos_INR wd) as Hw. pose proof (pos_INR ht) as Hh.
  pose proof (Hu k) as H0. pose proof (Hu (k + 1)%nat) as H1.
  pose proof (Hu (k + 2)%nat) as H2. pose proof (Hu (k + 3)%nat) as H3.
  pose proof (Hu (k + 4)%nat) as H4. pose proof (Hu (k + 5)%nat) as H5.
  pose proof (Hu (k + 6)%nat) as H6. pose proof (Hu (k + 7)%nat) as H7.
  pose proof (Hu (k + 8)%nat) as H8. pose proof (Hu (k + 9)%nat) as H9.
  unfold initRanges. destruct v; simpl; repeat split; nra.
Qed.

Lemma in_initLoop v wd ht rnd count p : forall k,
  In p (PS.initLoop v wd ht rnd k count) ->
  exists j, p = PS.newParticle v wd ht rnd j.
Proof.
  induction count as [|c IH]; intros k H; simpl in H; [contradiction|].
  destruct H as [<- | H]; [exists k; reflexivity | eapply IH; eauto].
Qed.

Lemma in_createParticles wd ht rnd count p : forall k,
  In p (IP.createParticles wd ht rnd k count) ->
  exists j, p = IP.newParticle wd ht rnd j.
Proof.
  induction count as [|c IH]; intros k H; simpl in H; [contradiction|].
  destruct H as [<- | H]; [exists k; reflexivity | eapply IH; eauto].
Qed.

Section InitInBinary64.
Import DoubleFacts.

(** The largest value of [Math.random()], [1 - 2^-53], gives the radius 3
    and the hue 250 in binary64. *)
Lemma radius_hue_tops :
  PS64.radius (1 - Double.bpow (-53)) = 3
  /\ PS64.hue (1 - Double.bpow (-53)) = 250.
Proof.
  unfold PS64.radius, PS64.hue, Double.add, Double.mul. split.
  - rewrite (round_exact ((1 - Double.bpow (-53)) * 2)).
    + rewrite (round_tie _ 1 6755399441055743).
      * cbn [Z.even Z.add Pos.add Pos.succ]. simpl Z.sub. bpow_num. lra.
      * simpl Z.add. bpow_num. rewrite Rabs_pos_eq by lra. lra.
      * lia.
      * simpl Z.sub. bpow_num. lra.
    + exists 9007199254740991%Z, (-52)%Z.
      split; [reflexivity|]. split; [lia|]. bpow_num. lra.
  - assert (E : Double.round ((1 - Double.bpow (-53)) * 60)
                = IZR 8444249301319679 * Double.bpow (5 - 52)).
    { apply round_pin.
      - simpl Z.add. bpow_num. rewrite Rabs_pos_eq by lra. lra.
      - lia.
      - simpl Z.sub. bpow_num. apply Rabs_def1; lra. }
    rewrite E. rewrite (round_pin _ 7 8796093022208000).
    + simpl Z.sub. bpow_num. lra.
    + simpl Z.add. simpl Z.sub. bpow_num. rewrite Rabs_pos_eq by lra. lra.
    + lia.
    + simpl Z.sub. bpow_num. apply Rabs_def1; lra.
Qed.

End InitInBinary64.

(** X1.  With [Math.random()] in [[0, 1)], [init] creates exactly
    [particleCount] particles, each inside the canvas, with velocity
    components in [[-0.25, 0.25)], radius in [[1, 3]], opacity in
    [[0.2, 0.8)], pulse speed in [[0.01, 0.03]] and, in the enhanced copy,
    base velocity in the same range as the velocity and hue in
    [[190, 250]]; "create particles" of [initializeParticles] creates its
    particles in the same position, velocity and radius ranges, with opacity
    in [[0.2, 0.7]].  The upper ends 3 and 250 are reached in binary64, at
    the largest value of [Math.random()]. *)
Theorem created_particles_ranges (rnd : nat -> R) :
  unitStream rnd ->
  (forall (v : PS.Variant) (wd ht k count : nat),
      List.length (PS.initLoop v wd ht rnd k count) = count
      /\ Forall (initRanges v wd ht) (PS.initLoop v wd ht rnd k count))
  /\ (forall (wd ht k count : nat),
         List.length (IP.createParticles wd ht rnd k count) = count
         /\ Forall (createRanges wd ht) (IP.createParticles wd ht rnd k count))
  /\ PS64.radius (1 - Double.bpow (-53)) = 3
  /\ PS64.hue (1 - Double.bpow (-53)) = 250.
Proof.
  intro Hu. split; [|split; [|apply radius_hue_tops]].
  - intros v wd ht k count. split; [apply initLoop_length|].
    apply Forall_forall. intros p Hp.
    destruct (in_initLoop _ _ _ _ _ _ _ Hp) as [j ->].
    apply newParticle_initRanges, Hu.
  - intros wd ht k count. split; [apply createParticles_length|].
    apply Forall_forall. intros p Hp.
    destruct (in_createParticles _ _ _ _ _ _ Hp) as [j ->].
    pose proof (pos_INR wd) as Hw. pose proof (pos_INR ht) as Hh.
    pose proof (Hu j) as H0. pose proof (Hu (j + 1)%nat) as H1.
    pose proof (Hu (j + 2)%nat) as H2. pose proof (Hu (j + 3)%nat) as H3.
    pose proof (Hu (j + 4)%nat) as H4. pose proof (Hu (j + 5)%nat) as H5.
    unfold createRanges. simpl. repeat split; nra.
Qed.

Lemma created_particles_ranges_witness :
  List.length (PS.initLoop PS.Enhanced 800 600 (fun _ => 0.5) 0 40) = 40%nat
  /\ Forall (initRanges PS.Enhanced 800 600)
            (PS.initLoop PS.Enhanced 800 600 (fun _ => 0.5) 0 40).
Proof.
  apply (proj1 (created_particles_ranges (fun _ => 0.5)
                                         ltac:(intro k; lra))).
Defined.

(** ** How many particles a started system holds *)

Lemma constructor_count v h now :
  List.length (PS.particles (PS.sys (PS.constructor v h now)))
  = if started h
    then (if PS.checkWebGLSupport h then PS.getParticleCount h else 15%nat)
    else 0%nat.
Proof.
  pose proof (getParticleCount_values h) as Hv.
  unfold PS.constructor, started. simpl.
  destruct (canvasPresent h); simpl; [|reflexivity].
  destruct (contextPresent h); simpl; [|reflexivity].
  destruct (reducedMotion h); simpl; [reflexivity|].
  rewrite animate_length.
  destruct (PS.checkWebGLSupport h); destruct v; simpl;
    rewrite initLoop_length; try reflexivity;
    simpl in Hv; destruct Hv as [<- | [<- | [<- | [<- | []]]]]; reflexivity.
Qed.

(** X2.  The number of particles is fixed by the constructor and never
    changes: none when the constructor exits early, the result of
    [getParticleCount] when WebGL is available, and 15 when it is not.  So a
    system holds 0, 15, 25 or 40 particles: the 30 that [getParticleCount]
    returns without WebGL is always cut to 15. *)
Theorem started_particle_count
        (v : PS.Variant) (h : Host) (now : R) (es : list PS.Event) :
  let n := List.length
             (PS.particles (PS.sys (PS.run v (PS.constructor v h now) es))) in
  n = (if started h
       then (if PS.checkWebGLSupport h then PS.getParticleCount h else 15%nat)
       else 0%nat)
  /\ In n [0; 15; 25; 40]%nat.
Proof.
  intro n. subst n. rewrite run_length, constructor_count.
  split; [reflexivity|].
  destruct (started h); [|simpl; auto].
  destruct (PS.checkWebGLSupport h) eqn:Eg; [|simpl; auto].
  unfold PS.getParticleCount. unfold PS.checkWebGLSupport in Eg.
  destruct (isLowPerformanceDevice (userAgent h) || Nat.ltb (innerWidth h) 768)%bool;
    [simpl; auto|].
  destruct (Nat.ltb (innerWidth h) 1200); [simpl; auto|].
  rewrite Eg. simpl. auto.
Qed.

(** ** Invariants of the particles of a system *)

(** A property that the first frame gives to the particles of [init] and
    that every later frame keeps holds of every particle of every state. *)
Lemma reachable_particles (P : PS.Particle -> Prop) v h now es :
  (forall wd ht k s t ft,
      P (PS.stepParticle v s t ft (PS.newParticle v wd ht (random h) k))) ->
  (forall s t ft p, P p -> P (PS.stepParticle v s t ft p)) ->
  Forall P (PS.particles (PS.sys (PS.run v (PS.constructor v h now) es))).
Proof.
  intros Hfirst Hkeep.
  assert (Hanim : forall t w, Forall P (PS.particles (PS.sys w)) ->
                              Forall P (PS.particles (PS.sys (PS.animate v t w)))).
  { intros t w H. destruct (animate_particles v t w) as [-> | [ft ->]];
      [exact H|].
    apply Forall_map. eapply Forall_impl; [|exact H]. intros p. apply Hkeep. }
  apply (run_invariant (fun w => Forall P (PS.particles (PS.sys w))) v).
  - intros w e H. destruct e; simpl; try exact H.
    + unfold PS.runFrames.
      assert (G : forall l w0,
                 Forall P (PS.particles (PS.sys w0)) ->
                 Forall P (PS.particles
                             (PS.sys (fold_left
                                        (fun w1 (_ : nat) => PS.animate v now0 w1)
                                        l w0)))).
      { induction l as [|a l IH]; intros w0 H0; simpl; [exact H0|].
        apply IH, Hanim, H0. }
      apply G. exact H.
    + destruct (PS.listening w); [|exact H].
      unfold PS.onVisibilityChange. simpl.
      destruct (negb hidden && _)%bool; [|exact H].
      apply Hanim. exact H.
    + destruct (PS.listening w); exact H.
    + destruct v; [exact H|].
      destruct (PS.listening w && PS.interactionEnabled (PS.sys w))%bool;
        exact H.
    + destruct v; [exact H|].
      destruct (PS.listening w && PS.interactionEnabled (PS.sys w))%bool;
        exact H.
    + unfold PS.destroy. simpl.
      destruct (PS.animationId (PS.sys w)) as [id|]; simpl; [|exact H].
      destruct (Nat.eqb id 0); exact H.
  - unfold PS.constructor. simpl.
    destruct (canvasPresent h) eqn:Ec; simpl; [|constructor].
    destruct (contextPresent h) eqn:Ex; simpl; [|constructor].
    destruct (reducedMotion h); simpl; [constructor|].
    match goal with
    | |- context [PS.animate v now ?w0] =>
        assert (Hr : running (PS.sys w0) = true)
          by (unfold running; destruct (negb (PS.checkWebGLSupport h));
              destruct v; reflexivity);
        rewrite (animate_running v now w0 Hr)
    end.
    cbn [PS.sys PS.particles PS.set_animationId PS.set_frameCount
         PS.set_particles].
    unfold frameParticles. apply Forall_map, Forall_forall.
    intros p Hp.
    assert (Hin : exists wd ht c, In p (PS.initLoop v wd ht (random h) 0 c)).
    { destruct (negb (PS.checkWebGLSupport h)); destruct v; simpl in Hp;
        eauto. }
    destruct Hin as (wd & ht & c & Hin).
    destruct (in_initLoop _ _ _ _ _ _ _ Hin) as [j ->]. apply Hfirst.
Qed.

Lemma stepParticle_opacity_enhanced s t ft p :
  0 <= PS.opacity (PS.stepParticle PS.Enhanced s t ft p) <= 0.6.
Proof.
  unfold PS.stepParticle, PS.pulse. cbn [PS.opacity].
  match goal with |- context [sin ?a] => pose proof (SIN_bound a) as [Hlo Hhi] end.
  lra.
Qed.

(** X3.  In the enhanced copy, from the return of the constructor on and
    whatever [Math.random()] gave, every particle of a system has its
    opacity in [[0, 0.6]]: the constructor runs the first frame itself, and
    each update sets the opacity to
    [0.3 + 0.3 * sin(now * (pulseSpeed || 0.01))]. *)
Theorem enhanced_opacity_range (h : Host) (now : R) (es : list PS.Event) :
  Forall (fun q => 0 <= PS.opacity q <= 0.6)
         (PS.particles
            (PS.sys (PS.run PS.Enhanced (PS.constructor PS.Enhanced h now) es))).
Proof.
  apply (reachable_particles
           (fun p => 0 <= PS.opacity p <= 0.6) PS.Enhanced h now es).
  - intros. apply stepParticle_opacity_enhanced.
  - intros. apply stepParticle_opacity_enhanced.
Qed.

(** ** The canvas after a resize *)

Lemma reachable_radius v h now es :
  unitStream (random h) ->
  Forall (fun p => 1 <= PS.radius p <= 3)
         (PS.particles (PS.sys (PS.run v (PS.constructor v h now) es))).
Proof.
  intro Hu. apply (reachable_particles (fun p => 1 <= PS.radius p <= 3)).
  - intros wd ht k s t ft. rewrite radius_stepParticle.
    pose proof (newParticle_initRanges v wd ht (random h) k Hu) as Hr.
    unfold initRanges in Hr. tauto.
  - intros s t ft p Hp. rewrite radius_stepParticle. exact Hp.
Qed.

(** X4.  In the class the bounds follow the canvas: whatever events came
    before, resizes included, a frame that runs leaves every particle within
    [[-radius, width + radius]] and [[-radius, height + radius]] of the
    canvas as it then is, and every particle keeps the radius in [[1, 3]]
    that [init] gave it. *)
Theorem frame_restores_bounds
        (v : PS.Variant) (h : Host) (now : R) (es : list PS.Event) (t : R) :
  unitStream (random h) ->
  let w := PS.run v (PS.constructor v h now) es in
  running (PS.sys w) = true ->
  let w' := PS.animate v t w in
  Forall (inBoundsPS (PS.width (PS.sys w')) (PS.height (PS.sys w')))
         (PS.particles (PS.sys w'))
  /\ Forall (fun p => 1 <= PS.radius p <= 3) (PS.particles (PS.sys w')).
Proof.
  intros Hu w Hr w'.
  pose proof (reachable_radius v h now es Hu) as Hrad. fold w in Hrad.
  subst w'. rewrite (animate_running v t w Hr).
  cbn [PS.sys PS.particles PS.width PS.height PS.set_animationId
       PS.set_frameCount PS.set_particles PS.set_lastFrame].
  unfold frameParticles. split; apply Forall_map;
    (eapply Forall_impl; [|exact Hrad]); intros p Hp.
  - apply (stepParticle_inBounds v (PS.set_lastFrame t (PS.sys w))). lra.
  - rewrite radius_stepParticle. exact Hp.
Qed.

(** A resize to 320 x 200 and then a frame, on a desktop browser. *)
Lemma frame_restores_bounds_witness :
  let w := PS.run PS.Basic (PS.constructor PS.Basic desktopHost 1000)
                  [PS.ResizeTimeout 320 200] in
  let w' := PS.animate PS.Basic 1016 w in
  Forall (inBoundsPS (PS.width (PS.sys w')) (PS.height (PS.sys w')))
         (PS.particles (PS.sys w'))
  /\ Forall (fun p => 1 <= PS.radius p <= 3) (PS.particles (PS.sys w')).
Proof.
  apply (frame_restores_bounds PS.Basic desktopHost 1000
                               [PS.ResizeTimeout 320 200] 1016).
  - intro k. simpl. lra.
  - reflexivity.
Defined.

(** ** Elapsed time *)

Lemma js_or_zero (a : R) : js_or a 0 = a.
Proof. unfold js_or. destruct (Req_dec_T a 0); congruence. Qed.

Lemma deltaTime_range (ft : R) :
  PS.deltaTime ft <= 1 /\ (0 <= ft -> 0 <= PS.deltaTime ft).
Proof.
  unfold PS.deltaTime, js_min.
  destruct (Rle_dec (ft * 0.016) 1); split; intros; lra.
Qed.

Lemma scaled_abs (a d : R) : 0 <= d <= 1 -> Rabs (a * d) <= Rabs a.
Proof.
  intros [H0 H1]. rewrite Rabs_mult, (Rabs_pos_eq d H0).
  pose proof (Rabs_pos a). nra.
Qed.

(** X5.  [deltaTime] is capped at 1: when the clock has not run backwards
    since the last frame, a frame moves a particle, before the wrap, by at
    most [|vx|] and [|vy|]; and a frame with no elapsed time, as is the
    first frame ([lastFrame] still 0), moves it not at all. *)
Theorem frame_displacement_capped
        (v : PS.Variant) (s : PS.System) (now : R) (p : PS.Particle) :
  let ft := now - js_or (PS.lastFrame s) now in
  let q := PS.interact v s p in
  (PS.lastFrame s <= now ->
   Rabs (movedX v s ft p - PS.x q) <= Rabs (PS.vx q)
   /\ Rabs (movedY v s ft p - PS.y q) <= Rabs (PS.vy q))
  /\ (PS.lastFrame s = 0 \/ PS.lastFrame s = now ->
      movedX v s ft p = PS.x q /\ movedY v s ft p = PS.y q).
Proof.
  intros ft q. unfold movedX, movedY. fold q. rewrite !js_or_zero.
  split.
  - intro Hle.
    assert (Hft : 0 <= ft).
    { unfold ft, js_or. destruct (Req_dec_T (PS.lastFrame s) 0); lra. }
    destruct (deltaTime_range ft) as [H1 H0]. specialize (H0 Hft).
    split.
    + replace (PS.x q + PS.vx q * PS.deltaTime ft - PS.x q)
        with (PS.vx q * PS.deltaTime ft) by ring.
      apply scaled_abs. lra.
    + replace (PS.y q + PS.vy q * PS.deltaTime ft - PS.y q)
        with (PS.vy q * PS.deltaTime ft) by ring.
      apply scaled_abs. lra.
  - intro H0.
    assert (Hft : ft = 0).
    { unfold ft, js_or. destruct (Req_dec_T (PS.lastFrame s) 0); lra. }
    rewrite Hft. unfold PS.deltaTime, js_min.
    destruct (Rle_dec (0 * 0.016) 1); [|lra]. split; ring.
Qed.

(** A particle of velocity (0.25, -0.25) one second after the last frame. *)
Lemma frame_displacement_witness :
  let s := PS.set_lastFrame 1000 (PS.sys (sampleWorld [])) in
  let p := PS.mkParticle 10 10 0.25 (-0.25) 0 0 1 0.5 0.01 0 in
  Rabs (movedX PS.Basic s (2000 - js_or (PS.lastFrame s) 2000) p - PS.x p)
  <= Rabs (PS.vx p)
  /\ Rabs (movedY PS.Basic s (2000 - js_or (PS.lastFrame s) 2000) p - PS.y p)
     <= Rabs (PS.vy p).
Proof.
  intros s p.
  apply (proj1 (frame_displacement_capped PS.Basic s 2000 p)).
  simpl. lra.
Defined.

(** ** Systems that do not start *)

Lemma constructor_not_started v h now :
  started h = false -> dormant (PS.getParticleCount h) (PS.constructor v h now).
Proof.
  unfold started, PS.constructor. simpl. intro Hs.
  destruct (canvasPresent h); simpl in *;
    [|repeat split; simpl; auto; exists 0%nat; reflexivity].
  destruct (contextPresent h); simpl in *;
    [|repeat split; simpl; auto; exists 0%nat; reflexivity].
  destruct (reducedMotion h); [|discriminate].
  repeat split; simpl; auto; exists 0%nat; reflexivity.
Qed.

Lemma constructor_listening v h now :
  PS.listening (PS.constructor v h now) = started h.
Proof.
  unfold started, PS.constructor. simpl.
  destruct (canvasPresent h); simpl; [|reflexivity].
  destruct (contextPresent h); simpl; [|reflexivity].
  destruct (reducedMotion h); reflexivity.
Qed.

Lemma run_listening v es : forall w,
  PS.listening (PS.run v w es) = PS.listening w.
Proof.
  unfold PS.run. induction es as [|e rest IH]; intro w; simpl; [reflexivity|].
  rewrite IH. apply step_static.
Qed.

(** X6.  The handlers of [setupEventListeners] are registered exactly when
    the constructor passes its three early exits (canvas, 2d context,
    reduced motion).  When it does not, whatever the reason, the system
    stays inert under every event: nothing is ever drawn or requested and
    there is no particle. *)
Theorem early_exit_inert
        (v : PS.Variant) (h : Host) (now : R) (es : list PS.Event) :
  let w := PS.run v (PS.constructor v h now) es in
  PS.listening w = started h
  /\ (started h = false ->
      PS.pending w = []
      /\ PS.animationId (PS.sys w) = None
      /\ PS.particles (PS.sys w) = []
      /\ filter isDraw (PS.log w) = []
      /\ filter isRequestFrame (PS.log w) = []
      /\ filter (isCall Animate) (PS.log w) = []
      /\ filter (isCall SetupEventListeners) (PS.log w) = []).
Proof.
  intro w. split.
  - subst w. rewrite run_listening. apply constructor_listening.
  - intro Hs.
    assert (Hd : dormant (PS.getParticleCount h) w).
    { apply run_invariant.
      - intros w0 e. apply step_dormant.
      - apply constructor_not_started, Hs. }
    destruct Hd as (_ & _ & Hp & Hid & Hps & n & Hlog).
    rewrite Hlog. simpl. rewrite !filter_repeat_false by reflexivity.
    repeat split; assumption.
Qed.

(** A page whose canvas has no 2d context. *)
Lemma early_exit_inert_witness :
  let h := mkHost (userAgent desktopHost) 1920 1080 true false false true
                  false 300 150 800 600 (random desktopHost) in
  let w := PS.run PS.Enhanced (PS.constructor PS.Enhanced h 1000)
                  [PS.VisibilityChange 2000 false; PS.AnimationFrame 2016;
                   PS.MouseMove 5 5 0 0] in
  PS.pending w = []
  /\ PS.animationId (PS.sys w) = None
  /\ PS.particles (PS.sys w) = []
  /\ filter isDraw (PS.log w) = []
  /\ filter isRequestFrame (PS.log w) = []
  /\ filter (isCall Animate) (PS.log w) = []
  /\ filter (isCall SetupEventListeners) (PS.log w) = [].
Proof.
  intros h w.
  apply (proj2 (early_exit_inert PS.Enhanced h 1000
                  [PS.VisibilityChange 2000 false; PS.AnimationFrame 2016;
                   PS.MouseMove 5 5 0 0])).
  reflexivity.
Defined.

(** ** Teardown *)

Lemma destroy_halts w :
  handleConsistent w ->
  halted (PS.destroy w)
  /\ PS.particles (PS.sys (PS.destroy w)) = PS.particles (PS.sys w)
  /\ filter isDraw (PS.log (PS.destroy w)) = filter isDraw (PS.log w)
  /\ filter isRequestFrame (PS.log (PS.destroy w))
     = filter isRequestFrame (PS.log w)
  /\ (forall id, PS.animationId (PS.sys w) = Some id ->
                 filter isCancelFrame (PS.log (PS.destroy w))
                 = filter isCancelFrame (PS.log w) ++ [CancelFrame id]).
Proof.
  intros [_ Hid]. unfold PS.destroy, halted. simpl.
  destruct (PS.animationId (PS.sys w)) as [id|] eqn:E; simpl.
  - destruct Hid as [Hne Hp].
    destruct (Nat.eqb id 0) eqn:E0; simpl.
    + apply Nat.eqb_eq in E0. contradiction.
    + rewrite Hp. simpl. rewrite Nat.eqb_refl. simpl.
      rewrite !filter_app. simpl. rewrite !app_nil_r.
      repeat split; try reflexivity.
      intros id' H. injection H as <-. reflexivity.
  - rewrite E, Hid, !filter_app. simpl. rewrite !app_nil_r.
    repeat split; try reflexivity. intros id' H. discriminate.
Qed.

Lemma quiet_step v w e :
  halted w -> showsPage e = false ->
  halted (PS.step v w e)
  /\ PS.particles (PS.sys (PS.step v w e)) = PS.particles (PS.sys w)
  /\ filter isDraw (PS.log (PS.step v w e)) = filter isDraw (PS.log w)
  /\ filter isRequestFrame (PS.log (PS.step v w e))
     = filter isRequestFrame (PS.log w).
Proof.
  intros [Hp Hid] Hs. unfold halted.
  destruct e; simpl.
  - unfold PS.runFrames. rewrite Hp. simpl. auto.
  - destruct hidden; [|discriminate].
    destruct (PS.listening w); simpl; auto.
  - destruct (PS.listening w); simpl; [|auto].
    rewrite !filter_app. simpl. rewrite !app_nil_r. auto.
  - destruct v; [auto|].
    destruct (PS.listening w && PS.interactionEnabled (PS.sys w))%bool;
      simpl; auto.
  - destruct v; [auto|].
    destruct (PS.listening w && PS.interactionEnabled (PS.sys w))%bool;
      simpl; auto.
  - unfold PS.destroy. simpl. rewrite Hid. simpl.
    rewrite !filter_app. simpl. rewrite !app_nil_r. auto.
Qed.

Lemma quiet_run v es : forall w,
  halted w -> quiet es = true ->
  halted (PS.run v w es)
  /\ PS.particles (PS.sys (PS.run v w es)) = PS.particles (PS.sys w)
  /\ filter isDraw (PS.log (PS.run v w es)) = filter isDraw (PS.log w)
  /\ filter isRequestFrame (PS.log (PS.run v w es))
     = filter isRequestFrame (PS.log w).
Proof.
  unfold PS.run, quiet.
  induction es as [|e rest IH]; intros w Hh Hq; simpl; [auto|].
  simpl in Hq. apply andb_prop in Hq. destruct Hq as [He Hrest].
  apply Bool.negb_true_iff in He.
  destruct (quiet_step v w e Hh He) as (Hh' & Hps & Hd & Hr).
  destruct (IH (PS.step v w e) Hh' Hrest) as (Hh'' & Hps' & Hd' & Hr').
  rewrite Hps', Hd', Hr'. auto.
Qed.

(** X7.  [destroy] cancels the requested frame, if there is one, and from
    then on, until a [visibilitychange] event finds the page visible, no
    event makes the system draw or request a frame, and the particles stay
    as they were. *)
Theorem teardown_stops_drawing
        (v : PS.Variant) (h : Host) (now : R) (es after : list PS.Event) :
  quiet after = true ->
  let w := PS.run v (PS.constructor v h now) es in
  let w1 := PS.destroy w in
  let w2 := PS.run v w1 after in
  (forall id, PS.animationId (PS.sys w) = Some id ->
              filter isCancelFrame (PS.log w1)
              = filter isCancelFrame (PS.log w) ++ [CancelFrame id])
  /\ PS.pending w2 = []
  /\ PS.animationId (PS.sys w2) = None
  /\ filter isDraw (PS.log w2) = filter isDraw (PS.log w)
  /\ filter isRequestFrame (PS.log w2) = filter isRequestFrame (PS.log w)
  /\ PS.particles (PS.sys w2) = PS.particles (PS.sys w).
Proof.
  intros Hq w w1 w2.
  pose proof (reachable_handleConsistent v h now es) as Hc. fold w in Hc.
  destruct (destroy_halts w Hc) as (Hh & Hps & Hd & Hr & Hcancel).
  fold w1 in Hh, Hps, Hd, Hr, Hcancel.
  destruct (quiet_run v after w1 Hh Hq) as ([Hp2 Hid2] & Hps2 & Hd2 & Hr2).
  fold w2 in Hp2, Hid2, Hps2, Hd2, Hr2.
  split; [exact Hcancel|].
  rewrite Hps2, Hd2, Hr2, Hps, Hd, Hr. auto.
Qed.

(** A running system torn down; frames, a resize and a hidden page follow. *)
Lemma teardown_stops_drawing_witness :
  let w := PS.run PS.Basic (PS.constructor PS.Basic desktopHost 1000)
                  [PS.AnimationFrame 1016] in
  let w2 := PS.run PS.Basic (PS.destroy w)
                   [PS.AnimationFrame 1032; PS.ResizeTimeout 640 480;
                    PS.VisibilityChange 1100 true; PS.AnimationFrame 1116] in
  PS.pending w2 = []
  /\ PS.animationId (PS.sys w2) = None
  /\ filter isDraw (PS.log w2) = filter isDraw (PS.log w)
  /\ filter isRequestFrame (PS.log w2) = filter isRequestFrame (PS.log w)
  /\ PS.particles (PS.sys w2) = PS.particles (PS.sys w).
Proof.
  apply (proj2 (teardown_stops_drawing
                  PS.Basic desktopHost 1000 [PS.AnimationFrame 1016]
                  [PS.AnimationFrame 1032; PS.ResizeTimeout 640 480;
                   PS.VisibilityChange 1100 true; PS.AnimationFrame 1116]
                  eq_refl)).
Defined.

(** X8.  [destroy] leaves the handlers registered: on a system that
    started, a [visibilitychange] event that finds the page visible after
    [destroy] starts the loop again, with one requested frame. *)
Theorem destroy_keeps_listeners
        (v : PS.Variant) (h : Host) (now : R) (es : list PS.Event) (t : R) :
  started h = true ->
  let w1 := PS.destroy (PS.run v (PS.constructor v h now) es) in
  let w2 := PS.step v w1 (PS.VisibilityChange t false) in
  PS.pending w2 = [PS.nextHandle w1]
  /\ PS.animationId (PS.sys w2) = Some (PS.nextHandle w1)
  /\ filter isRequestFrame (PS.log w2)
     = filter isRequestFrame (PS.log w1) ++ [RequestFrame (PS.nextHandle w1)].
Proof.
  intros Hs w1 w2.
  set (w := PS.run v (PS.constructor v h now) es) in *.
  pose proof (reachable_handleConsistent v h now es) as Hc. fold w in Hc.
  pose proof (reachable_listenerConsistent v h now es) as Hl. fold w in Hl.
  assert (Hlis : PS.listening w = true).
  { unfold w. rewrite run_listening, constructor_listening. exact Hs. }
  destruct (Hl Hlis) as [Hcan Hctx].
  destruct (destroy_halts w Hc) as ([Hp Hid] & _).
  fold w1 in Hp, Hid.
  destruct (step_static v w PS.BeforeUnload) as (Hcan1 & Hctx1 & Hlis1).
  change (PS.step v w PS.BeforeUnload) with w1 in Hcan1, Hctx1, Hlis1.
  apply (show_step v t w1); congruence.
Qed.

Lemma destroy_keeps_listeners_witness :
  let w1 := PS.destroy (PS.run PS.Basic (PS.constructor PS.Basic desktopHost 1000)
                               [PS.AnimationFrame 1016]) in
  let w2 := PS.step PS.Basic w1 (PS.VisibilityChange 2000 false) in
  PS.pending w2 = [PS.nextHandle w1]
  /\ PS.animationId (PS.sys w2) = Some (PS.nextHandle w1)
  /\ filter isRequestFrame (PS.log w2)
     = filter isRequestFrame (PS.log w1) ++ [RequestFrame (PS.nextHandle w1)].
Proof.
  apply (destroy_keeps_listeners PS.Basic desktopHost 1000
                                 [PS.AnimationFrame 1016] 2000).
  reflexivity.
Defined.

(** ** The connection lines of one pass *)

Lemma euclid_nonneg (a b c d : R) : 0 <= euclid a b c d.
Proof. unfold euclid. apply sqrt_pos. Qed.

(** X9.  In binary64 every line that a pass of connection rendering draws
    has an opacity between 0 and the double of [0.15] in [drawConnections],
    and between 0 and the double of [0.1] in [initializeParticles] as long
    as [Math.hypot] returns nothing negative; nothing but lines is drawn in
    the pass.  The opacity 0 is reached: the particles at
    [(80 - 2^-46, 2^-20)] and [(0, 0)] pass the test of [drawConnections],
    the square root of their squared distance is rounded to 80, and their
    line is stroked with opacity 0. *)
Theorem line_opacity_range :
  (forall (ps : list PS.Particle) (op : DrawOp),
      In op (PS64.drawConnections ps) ->
      exists alpha, lineAlpha op = Some alpha /\ 0 <= alpha <= Double.lit 0.15)
  /\ (forall (hypot : R -> R -> R),
         (forall a b : R, 0 <= hypot a b) ->
         forall (ps : list IP.Particle) (op : DrawOp),
           In op (IP64.connections hypot ps) ->
           exists alpha,
             lineAlpha op = Some alpha /\ 0 <= alpha <= Double.lit 0.1)
  /\ Double.lit 0.15 <= 0.15
  /\ Double.lit 0.1 <= 0.1 + 1e-17
  /\ PS64.drawConnections
       [dotPS (80 - Double.bpow (-46)) (Double.bpow (-20)); dotPS 0 0]
     = [Line (80 - Double.bpow (-46)) (Double.bpow (-20)) 0 0 0].
Proof.
  split; [|split; [|split; [|split]]].
  - intros ps op Hin. apply in_forEachPair in Hin.
    destruct Hin as (i & j & p & q & _ & _ & _ & Hc).
    apply connect64_spec in Hc. destruct Hc as [Hd ->].
    eexists. split; [reflexivity|].
    apply lineOpacity_range. split; [apply distanceSquared_nonneg | exact Hd].
  - intros hypot Hh ps op Hin. apply in_forEachPair in Hin.
    destruct Hin as (i & j & p & q & _ & _ & _ & Hc).
    apply connect64_spec_IP in Hc. destruct Hc as [Hd ->].
    eexists. split; [reflexivity|].
    apply lineOpacity_range_IP. split; [apply Hh | exact Hd].
  - apply lit_015_pos.
  - rewrite DoubleFacts.lit_01. DoubleFacts.bpow_num. lra.
  - unfold PS64.drawConnections. cbn [forEachPair flat_map].
    rewrite drawn_with_opacity_zero. reflexivity.
Qed.

Lemma line_opacity_range_witness :
  (exists alpha,
      lineAlpha (Line 10 10 70 10
                      (PS64.lineOpacity
                         (PS64.distanceSquared (dotPS 10 10) (dotPS 70 10))))
      = Some alpha
      /\ 0 <= alpha <= Double.lit 0.15)
  /\ (exists alpha,
         lineAlpha (Line 10 10 70 10 (IP64.lineOpacity 60)) = Some alpha
         /\ 0 <= alpha <= Double.lit 0.1).
Proof.
  split.
  - apply (proj1 line_opacity_range [dotPS 10 10; dotPS 70 10]).
    apply in_forEachPair. exists 0%nat, 1%nat, (dotPS 10 10), (dotPS 70 10).
    repeat split; try reflexivity; [lia|].
    apply connect64_spec. split; [|reflexivity].
    apply (proj1 (distanceSquared_margins (dotPS 10 10) (dotPS 70 10))).
    unfold distancePS. simpl. rewrite euclid_60. lra.
  - apply (proj1 (proj2 line_opacity_range) IP64.hypotRounded
                 (fun a b => DoubleFacts.round_nonneg _ (sqrt_pos _))
                 [dotIP 10 10; dotIP 70 10]).
    rewrite (proj2 connections64_sample). left. reflexivity.
Defined.

Lemma flat_map_length_le {A B : Type} (f : A -> list B) (l : list A) :
  (forall a, (List.length (f a) <= 1)%nat) ->
  (List.length (flat_map f l) <= List.length l)%nat.
Proof.
  intro H. induction l as [|a l IH]; simpl; [lia|].
  rewrite length_app. specialize (H a). lia.
Qed.

Lemma forEachPair_length {A B : Type} (f : A -> A -> list B) (ps : list A) :
  (forall p q, (List.length (f p q) <= 1)%nat) ->
  (2 * List.length (forEachPair f ps)
   <= List.length ps * (List.length ps - 1))%nat.
Proof.
  intro H. induction ps as [|p rest IH]; simpl; [lia|].
  rewrite length_app.
  pose proof (flat_map_length_le (f p) rest (H p)) as Hf.
  rewrite Nat.sub_0_r.
  destruct rest as [|r rest']; simpl in *; nia.
Qed.

Lemma connect_length p q : (List.length (PS.connect p q) <= 1)%nat.
Proof.
  unfold PS.connect.
  match goal with |- context [Rlt_dec ?a ?b] => destruct (Rlt_dec a b) end;
    simpl; lia.
Qed.

Lemma connect_length_IP p q : (List.length (IP.connect p q) <= 1)%nat.
Proof.
  unfold IP.connect.
  match goal with |- context [Rlt_dec ?a ?b] => destruct (Rlt_dec a b) end;
    simpl; lia.
Qed.

(** X10.  A pass of connection rendering over [n] particles draws at most
    [n (n - 1) / 2] lines, one per unordered pair at most, in either loop;
    with fewer than two particles it draws nothing. *)
Theorem line_count_bound :
  (forall ps : list PS.Particle,
      (2 * List.length (PS.drawConnections ps)
       <= List.length ps * (List.length ps - 1))%nat)
  /\ (forall ps : list IP.Particle,
         (2 * List.length (IP.connections ps)
          <= List.length ps * (List.length ps - 1))%nat).
Proof.
  split; intro ps.
  - apply forEachPair_length, connect_length.
  - apply forEachPair_length, connect_length_IP.
Qed.

(** ** Mouse repulsion in the enhanced copy *)

(** [Math.atan2(b, a)] is the direction of the vector [(a, b)]. *)
Lemma sqrt_ratio (a b : R) :
  a <> 0 -> sqrt (1 + (b / a)²) = sqrt (a * a + b * b) / Rabs a.
Proof.
  intro Ha.
  assert (Hab : 0 < Rabs a) by (apply Rabs_pos_lt; exact Ha).
  assert (Hs : 0 <= a * a + b * b) by nra.
  pose proof (sqrt_pos (a * a + b * b)) as Hp.
  apply sqrt_lem_1.
  - unfold Rsqr. nra.
  - apply Rmult_le_pos; [exact Hp | left; apply Rinv_0_lt_compat; exact Hab].
  - unfold Rsqr.
    replace (sqrt (a * a + b * b) / Rabs a * (sqrt (a * a + b * b) / Rabs a))
      with ((sqrt (a * a + b * b) * sqrt (a * a + b * b)) / (Rabs a * Rabs a))
      by (field; lra).
    rewrite sqrt_sqrt by exact Hs.
    replace (Rabs a * Rabs a) with (a * a)
      by (unfold Rabs; destruct (Rcase_abs a); ring).
    field. exact Ha.
Qed.

Lemma atan2_direction (a b : R) :
  let d := sqrt (a * a + b * b) in
  0 < d -> cos (atan2 b a) = a / d /\ sin (atan2 b a) = b / d.
Proof.
  intros d Hd. unfold atan2.
  assert (Hdd : d * d = a * a + b * b)
    by (apply sqrt_sqrt; nra).
  destruct (Rlt_dec 0 a) as [Hpos | Hnpos].
  - rewrite cos_atan, sin_atan, sqrt_ratio by lra. fold d.
    rewrite (Rabs_pos_eq a) by lra. split; field; lra.
  - destruct (Rlt_dec a 0) as [Hneg | Hnneg].
    + assert (Hr : sqrt (1 + (b / a)²) = d / - a).
      { rewrite sqrt_ratio by lra. fold d.
        rewrite (Rabs_left a) by lra. reflexivity. }
      destruct (Rle_dec 0 b).
      * rewrite neg_cos, neg_sin, cos_atan, sin_atan, Hr. split; field; lra.
      * rewrite cos_minus, sin_minus, cos_PI, sin_PI, cos_atan, sin_atan, Hr.
        split; field; lra.
    + assert (Ha : a = 0) by lra. subst a.
      assert (Hbb : d * d = b * b) by lra.
      destruct (Rlt_dec 0 b) as [Hb | Hnb].
      * assert (Hdb : d = b) by nra.
        rewrite cos_PI2, sin_PI2, Hdb. split; field; lra.
      * destruct (Rlt_dec b 0) as [Hb' | Hnb'].
        -- assert (Hdb : d = - b) by nra.
           rewrite cos_neg, sin_neg, cos_PI2, sin_PI2, Hdb.
           split; field; lra.
        -- assert (b = 0) by lra. subst b. nra.
Qed.

(** X11.  The mouse block of the enhanced copy touches only the velocity.
    A particle at distance [d] from the mouse, [0 < d < mouse.radius], is
    pushed straight away from it: its velocity changes by
    [0.2 * (radius - d) / radius], at most 0.2, times the unit vector from
    the mouse to the particle.  A particle at distance [radius] or more has
    its velocity brought back towards [(baseVx, baseVy)] by a twentieth of
    the difference.  A particle exactly under the mouse is pushed by 0.2
    towards smaller [x]. *)
Theorem mouse_interaction_effect (s : PS.System) (p : PS.Particle) :
  0 < PS.mouseRadius s ->
  let q := PS.mouseInteraction s p in
  let dx := PS.mouseX s - PS.x p in
  let dy := PS.mouseY s - PS.y p in
  let d := sqrt (dx * dx + dy * dy) in
  let force := (PS.mouseRadius s - d) / PS.mouseRadius s in
  (PS.x q = PS.x p /\ PS.y q = PS.y p /\ PS.radius q = PS.radius p
   /\ PS.baseVx q = PS.baseVx p /\ PS.baseVy q = PS.baseVy p
   /\ PS.opacity q = PS.opacity p /\ PS.pulseSpeed q = PS.pulseSpeed p
   /\ PS.hue q = PS.hue p)
  /\ (0 < d < PS.mouseRadius s ->
      0 < force < 1
      /\ PS.vx q - PS.vx p = 0.2 * force * (- dx / d)
      /\ PS.vy q - PS.vy p = 0.2 * force * (- dy / d))
  /\ (d = 0 -> PS.vx q - PS.vx p = -0.2 /\ PS.vy q = PS.vy p)
  /\ (PS.mouseRadius s <= d ->
      PS.vx q - PS.baseVx p = 0.95 * (PS.vx p - PS.baseVx p)
      /\ PS.vy q - PS.baseVy p = 0.95 * (PS.vy p - PS.baseVy p)).
Proof.
  intros HR q dx dy d force. subst q. unfold PS.mouseInteraction.
  fold dx dy. fold d. fold force.
  destruct (Rlt_dec d (PS.mouseRadius s)) as [Hnear | Hfar]; simpl.
  - split; [repeat split|]. split; [|split; [|intro; lra]].
    2:{ intro Hd0.
        assert (Hsq : dx * dx + dy * dy = 0).
        { apply sqrt_eq_0; [nra | exact Hd0]. }
        assert (Hdx : dx = 0) by nra. assert (Hdy : dy = 0) by nra.
        rewrite Hdx, Hdy. unfold atan2.
        destruct (Rlt_dec 0 0); [lra|].
        rewrite cos_0, sin_0.
        unfold force. rewrite Hd0.
        replace ((PS.mouseRadius s - 0) / PS.mouseRadius s) with 1
          by (field; lra).
        split; lra. }
    intros [Hd _].
    destruct (atan2_direction dx dy Hd) as [Hcos Hsin].
    fold d in Hcos, Hsin. rewrite Hcos, Hsin.
    assert (Hf : 0 < force < 1).
    { unfold force. split.
      - apply Rmult_lt_0_compat; [lra | apply Rinv_0_lt_compat; exact HR].
      - apply (Rmult_lt_reg_r (PS.mouseRadius s)); [exact HR|].
        unfold Rdiv. rewrite Rmult_assoc, Rinv_l by lra. lra. }
    split; [exact Hf|]. split; field; lra.
  - split; [repeat split|]. split; [intro; lra|]. split; [intro; lra|].
    intros _. split; lra.
Qed.

(** The mouse at (100, 100), of radius 150, and a particle 50 to its
    right. *)
Lemma mouse_interaction_witness :
  let s := PS.set_mouse 100 100 (PS.sys (sampleWorld [])) in
  let p := dotPS 150 100 in
  let q := PS.mouseInteraction s p in
  let dx := PS.mouseX s - PS.x p in
  let dy := PS.mouseY s - PS.y p in
  let d := sqrt (dx * dx + dy * dy) in
  let force := (PS.mouseRadius s - d) / PS.mouseRadius s in
  0 < force < 1
  /\ PS.vx q - PS.vx p = 0.2 * force * (- dx / d)
  /\ PS.vy q - PS.vy p = 0.2 * force * (- dy / d).
Proof.
  intros s p.
  apply (proj1 (proj2 (mouse_interaction_effect s p ltac:(simpl; lra)))).
  assert (Hd : sqrt ((100 - 150) * (100 - 150) + (100 - 100) * (100 - 100)) = 50)
    by (apply sqrt_lem_1; lra).
  simpl. rewrite Hd. lra.
Defined.

(** ** The loop of [initializeParticles] *)

Lemma lines_after_frame_requests (s : IP.State) :
  List.length (filter isRequestFrame (IP.log (IP.animate s)))
  = S (List.length (filter isRequestFrame (IP.log s))).
Proof.
  unfold IP.animate. cbn [IP.log]. rewrite !filter_app.
  rewrite (filter_map_false isRequestFrame (fun p => Draw (IP.draw p)))
    by reflexivity.
  rewrite (filter_map_false isRequestFrame Draw) by reflexivity.
  simpl. rewrite length_app. simpl. lia.
Qed.

Lemma IP_step_chain s e :
  List.length (IP.pending s) = 1%nat ->
  let s' := IP.step s e in
  List.length (IP.pending s') = 1%nat
  /\ List.length (filter isRequestFrame (IP.log s'))
     = (List.length (filter isRequestFrame (IP.log s))
        + if isFrameEvent e then 1 else 0)%nat.
Proof.
  intros Hp s'. subst s'. destruct e.
  - unfold IP.step, IP.runFrames.
    destruct (IP.pending s) as [|a [|b l]]; try discriminate.
    cbn [fold_left isFrameEvent].
    rewrite lines_after_frame_requests. split; [reflexivity|].
    cbn [IP.log]. lia.
  - simpl. split; [exact Hp | lia].
Qed.

Lemma IP_run_chain es : forall s,
  List.length (IP.pending s) = 1%nat ->
  List.length (IP.pending (IP.run s es)) = 1%nat
  /\ List.length (filter isRequestFrame (IP.log (IP.run s es)))
     = (List.length (filter isRequestFrame (IP.log s))
        + List.length (filter isFrameEvent es))%nat.
Proof.
  unfold IP.run. induction es as [|e rest IH]; intros s Hp; simpl.
  - split; [exact Hp | lia].
  - destruct (IP_step_chain s e Hp) as [Hp' Hr'].
    destruct (IH (IP.step s e) Hp') as [Hp'' Hr''].
    split; [exact Hp''|]. rewrite Hr'', Hr'.
    destruct (isFrameEvent e); simpl; lia.
Qed.

(** X12.  Started with a canvas and a 2d context, the loop of
    [initializeParticles] has exactly one frame requested at every moment,
    whatever the events: each frame that runs requests the next, nothing
    suspends the loop and nothing cancels it. *)
Theorem perpetual_loop (h : Host) (s : IP.State) (es : list IP.Event) :
  IP.initializeParticles h = Some s -> contextPresent h = true ->
  List.length (IP.pending (IP.run s es)) = 1%nat
  /\ List.length (filter isRequestFrame (IP.log (IP.run s es)))
     = S (List.length (filter isFrameEvent es))
  /\ filter isCancelFrame (IP.log (IP.run s es)) = [].
Proof.
  unfold IP.initializeParticles. intros Hs Hc. rewrite Hc in Hs.
  destruct (negb (canvasPresent h)); [discriminate|]. injection Hs as <-.
  match goal with
  | |- context [IP.run (IP.animate ?s0) es] => set (s1 := IP.animate s0)
  end.
  assert (Hp : List.length (IP.pending s1) = 1%nat) by reflexivity.
  destruct (IP_run_chain es s1 Hp) as [Hp' Hr'].
  split; [exact Hp'|]. split.
  - rewrite Hr'. subst s1. rewrite lines_after_frame_requests. reflexivity.
  - assert (G : forall l s, filter isCancelFrame (IP.log s) = [] ->
                            filter isCancelFrame (IP.log (IP.run s l)) = []).
    { assert (Ha : forall s, filter isCancelFrame (IP.log s) = [] ->
                            filter isCancelFrame (IP.log (IP.animate s)) = []).
      { intros s Hs. unfold IP.animate. cbn [IP.log]. rewrite !filter_app, Hs.
        rewrite (filter_map_false isCancelFrame (fun p => Draw (IP.draw p)))
          by reflexivity.
        rewrite (filter_map_false isCancelFrame Draw) by reflexivity.
        reflexivity. }
      unfold IP.run. induction l as [|e l IH]; intros s Hs; simpl; [exact Hs|].
      apply IH. destruct e; simpl; [|exact Hs].
      unfold IP.runFrames.
      assert (F : forall k s0, filter isCancelFrame (IP.log s0) = [] ->
                  filter isCancelFrame
                    (IP.log (fold_left (fun s1 (_ : nat) => IP.animate s1) k s0)) = []).
      { induction k as [|a k IHk]; intros s0 H0; simpl; [exact H0|].
        apply IHk, Ha, H0. }
      apply F. exact Hs. }
    apply G. subst s1. unfold IP.animate. cbn [IP.log]. rewrite !filter_app.
    rewrite (filter_map_false isCancelFrame (fun p => Draw (IP.draw p)))
      by reflexivity.
    rewrite (filter_map_false isCancelFrame Draw) by reflexivity.
    reflexivity.
Qed.

Lemma perpetual_loop_witness :
  List.length
    (IP.pending
       (IP.run (IP.animate
                  (IP.mkState 1920 1080
                     (IP.createParticles 1920 1080 (random desktopHost) 0
                                         IP.particleCount) [] 1 []))
               [IP.AnimationFrame; IP.WindowResize 640 480; IP.AnimationFrame]))
  = 1%nat.
Proof.
  apply (perpetual_loop desktopHost _ [IP.AnimationFrame; IP.WindowResize 640 480;
                                       IP.AnimationFrame] eq_refl eq_refl).
Defined.

Lemma update_gait wd ht p : gait (IP.update wd ht p) = gait p.
Proof.
  unfold gait, IP.update. simpl.
  destruct (Rlt_dec (IP.x p + IP.vx p) 0);
    destruct (Rgt_dec (IP.x p + IP.vx p) (INR wd));
    destruct (Rlt_dec (IP.y p + IP.vy p) 0);
    destruct (Rgt_dec (IP.y p + IP.vy p) (INR ht));
    rewrite ?Rabs_Ropp; reflexivity.
Qed.

Lemma animate_gait s :
  map gait (IP.particles (IP.animate s)) = map gait (IP.particles s).
Proof.
  unfold IP.animate. cbn [IP.particles]. rewrite map_map.
  apply map_ext. intro p. apply update_gait.
Qed.

(** X13.  In [initializeParticles] the bounce only ever changes the sign of a
    velocity component: whatever frames and resizes happen, every particle
    keeps its speed along each axis, and its radius and opacity are never
    written. *)
Theorem bounce_keeps_speed (s : IP.State) (es : list IP.Event) :
  map gait (IP.particles (IP.run s es)) = map gait (IP.particles s).
Proof.
  revert s. unfold IP.run.
  induction es as [|e rest IH]; intro s; simpl; [reflexivity|].
  rewrite IH. destruct e; simpl; [|reflexivity].
  unfold IP.runFrames.
  assert (G : forall l s0,
             map gait (IP.particles
                         (fold_left (fun s1 (_ : nat) => IP.animate s1) l s0))
             = map gait (IP.particles s0)).
  { induction l as [|a l IHl]; intro s0; simpl; [reflexivity|].
    rewrite IHl. apply animate_gait. }
  exact (G (IP.pending s)
           (IP.mkState (IP.width s) (IP.height s) (IP.particles s) []
                       (IP.nextHandle s) (IP.log s))).
Qed.

(** One coordinate of a particle stranded beyond the far edge: it alternates
    between two positions, both outside. *)
Lemma stranded_axis (limit c0 v0 : R) (c v : R) :
  0 <= limit -> limit + Rabs v0 < c0 ->
  (c = c0 /\ v = v0) \/ (c = c0 + v0 /\ v = - v0) ->
  let v' := if Rlt_dec (c + v) 0 then - v
            else if Rgt_dec (c + v) limit then - v else v in
  limit < c /\ limit < c + v
  /\ ((c + v = c0 /\ v' = v0) \/ (c + v = c0 + v0 /\ v' = - v0)).
Proof.
  intros Hl Hc0 Hcv v'. subst v'.
  assert (Hv0 : - Rabs v0 <= v0 <= Rabs v0).
  { unfold Rabs. destruct (Rcase_abs v0); lra. }
  destruct (Rlt_dec (c + v) 0) as [H1 | H1];
    [| destruct (Rgt_dec (c + v) limit) as [H2 | H2]]; unfold Rgt in *;
    destruct Hcv as [[-> ->] | [-> ->]]; repeat split; try lra;
    try (right; split; lra); try (left; split; lra).
Qed.

(** X14.  [initializeParticles] does not bring back a particle that a shrunk
    canvas left outside: a particle further beyond the right edge than one
    step of its velocity stays beyond it after every later frame, returning
    to the same place with the same velocity every second frame; likewise
    beyond the bottom edge. *)
Theorem stranded_after_shrink (wd ht : nat) (p : IP.Particle) (n : nat) :
  let q := Nat.iter n (IP.update wd ht) p in
  (INR wd + Rabs (IP.vx p) < IP.x p ->
   INR wd < IP.x q
   /\ (Nat.even n = true -> IP.x q = IP.x p /\ IP.vx q = IP.vx p))
  /\ (INR ht + Rabs (IP.vy p) < IP.y p ->
      INR ht < IP.y q
      /\ (Nat.even n = true -> IP.y q = IP.y p /\ IP.vy q = IP.vy p)).
Proof.
  intro q. subst q. split; intro Hout.
  - assert (H : forall k,
               let q := Nat.iter k (IP.update wd ht) p in
               INR wd < IP.x q
               /\ (if Nat.even k
                   then IP.x q = IP.x p /\ IP.vx q = IP.vx p
                   else IP.x q = IP.x p + IP.vx p /\ IP.vx q = - IP.vx p)).
    { induction k as [|k IH].
      - simpl. pose proof (Rabs_pos (IP.vx p)). split; [lra | auto].
      - cbv zeta in IH. destruct IH as [_ IH].
        change (Nat.iter (S k) (IP.update wd ht) p)
          with (IP.update wd ht (Nat.iter k (IP.update wd ht) p)).
        rewrite Nat.even_succ, <- Nat.negb_even.
        set (r := Nat.iter k (IP.update wd ht) p) in *.
        pose proof (stranded_axis (INR wd) (IP.x p) (IP.vx p) (IP.x r) (IP.vx r)
                                  (pos_INR wd) Hout) as Hs.
        unfold IP.update. cbn [IP.x IP.vx].
        destruct (Nat.even k); cbn [negb].
        + destruct Hs as (_ & Hgt & [[Hx Hv] | [Hx Hv]]); [left; exact IH| |].
          * destruct IH as [Ex Ev]. rewrite Ex, Ev in Hx.
            assert (IP.vx p = 0) by lra.
            split; [exact Hgt|]. split; [lra|]. rewrite Hv. lra.
          * split; [exact Hgt|]. split; assumption.
        + destruct Hs as (_ & Hgt & [[Hx Hv] | [Hx Hv]]); [right; exact IH| |].
          * split; [exact Hgt|]. split; assumption.
          * destruct IH as [Ex Ev]. rewrite Ex, Ev in Hx.
            assert (IP.vx p = 0) by lra.
            split; [exact Hgt|]. split; [lra|]. rewrite Hv. lra. }
    destruct (H n) as [Hgt Hpar]. split; [exact Hgt|].
    intro He. rewrite He in Hpar. exact Hpar.
  - assert (H : forall k,
               let q := Nat.iter k (IP.update wd ht) p in
               INR ht < IP.y q
               /\ (if Nat.even k
                   then IP.y q = IP.y p /\ IP.vy q = IP.vy p
                   else IP.y q = IP.y p + IP.vy p /\ IP.vy q = - IP.vy p)).
    { induction k as [|k IH].
      - simpl. pose proof (Rabs_pos (IP.vy p)). split; [lra | auto].
      - cbv zeta in IH. destruct IH as [_ IH].
        change (Nat.iter (S k) (IP.update wd ht) p)
          with (IP.update wd ht (Nat.iter k (IP.update wd ht) p)).
        rewrite Nat.even_succ, <- Nat.negb_even.
        set (r := Nat.iter k (IP.update wd ht) p) in *.
        pose proof (stranded_axis (INR ht) (IP.y p) (IP.vy p) (IP.y r) (IP.vy r)
                                  (pos_INR ht) Hout) as Hs.
        unfold IP.update. cbn [IP.y IP.vy].
        destruct (Nat.even k); cbn [negb].
        + destruct Hs as (_ & Hgt & [[Hx Hv] | [Hx Hv]]); [left; exact IH| |].
          * destruct IH as [Ex Ev]. rewrite Ex, Ev in Hx.
            assert (IP.vy p = 0) by lra.
            split; [exact Hgt|]. split; [lra|]. rewrite Hv. lra.
          * split; [exact Hgt|]. split; assumption.
        + destruct Hs as (_ & Hgt & [[Hx Hv] | [Hx Hv]]); [right; exact IH| |].
          * split; [exact Hgt|]. split; assumption.
          * destruct IH as [Ex Ev]. rewrite Ex, Ev in Hx.
            assert (IP.vy p = 0) by lra.
            split; [exact Hgt|]. split; [lra|]. rewrite Hv. lra. }
    destruct (H n) as [Hgt Hpar]. split; [exact Hgt|].
    intro He. rewrite He in Hpar. exact Hpar.
Qed.

(** A particle at [x = 700] on a canvas shrunk to 500 x 600, ten frames on. *)
Lemma stranded_after_shrink_witness :
  let p := IP.mkParticle 700 300 0.25 0.1 1 0.5 in
  let q := Nat.iter 10 (IP.update 500 600) p in
  INR 500 < IP.x q
  /\ (Nat.even 10 = true -> IP.x q = IP.x p /\ IP.vx q = IP.vx p).
Proof.
  intros p.
  apply (proj1 (stranded_after_shrink 500 600 p 10)).
  simpl. rewrite INR_500. unfold Rabs. destruct (Rcase_abs 0.25); lra.
Defined.

(** * The page scripts *)

(** ** Mobile navigation *)

Lemma handle_synced n h : MN.synced n -> MN.synced (MN.handle n h).
Proof.
  intros [Hm Ha]. unfold MN.synced.
  destruct h as [|isAnchor|inToggle inMenu]; simpl.
  - rewrite Hm. auto.
  - destruct isAnchor; simpl; auto.
  - unfold MN.onDocumentClick.
    destruct (negb inToggle && negb inMenu)%bool; simpl; auto.
Qed.

Lemma handle_from_agreeing n h :
  MN.menuActive n = MN.toggleActive n ->
  MN.handle n h = n \/ MN.synced (MN.handle n h).
Proof.
  intro Hm. unfold MN.synced.
  destruct h as [|isAnchor|inToggle inMenu]; simpl.
  - right. rewrite Hm. auto.
  - destruct isAnchor; simpl; auto.
  - unfold MN.onDocumentClick.
    destruct (negb inToggle && negb inMenu)%bool; simpl; auto.
Qed.

(** X15.  When the toggle and the menu start out both open or both closed,
    then after any sequence of invocations of the three click handlers
    either nothing has changed at all, or the toggle and the menu are still
    open or closed together and [aria-expanded] is ["true"] exactly when
    they are open. *)
Theorem nav_stays_synced (n : MN.Nav) (hs : list MN.Handler) :
  MN.menuActive n = MN.toggleActive n ->
  MN.run n hs = n \/ MN.synced (MN.run n hs).
Proof.
  intro Hm.
  assert (G : forall l m, m = n \/ MN.synced m ->
                          MN.run m l = n \/ MN.synced (MN.run m l)).
  { unfold MN.run. induction l as [|h l IH]; intros m Hmn; simpl; [exact Hmn|].
    apply IH. destruct Hmn as [-> | Hs].
    - apply handle_from_agreeing, Hm.
    - right. apply handle_synced, Hs. }
  apply G. left. reflexivity.
Qed.

(** A closed menu whose toggle has no [aria-expanded] yet: a click on the
    toggle, a click inside the menu off any link, a click on a link. *)
Lemma nav_stays_synced_witness :
  let n := MN.mkNav false false None in
  let hs := MN.click true false false ++ MN.click false true false
            ++ MN.click false true true in
  MN.run n hs = n \/ MN.synced (MN.run n hs).
Proof.
  apply (nav_stays_synced (MN.mkNav false false None)). reflexivity.
Defined.

(** ** Navigation of [initializeNavigation] *)

Lemma step_aria n e :
  EN.isTrue (EN.ariaExpanded (EN.step n e))
  = xorb (EN.isTrue (EN.ariaExpanded n)) (EN.isToggleClick e).
Proof.
  destruct e as [|hash found|c]; simpl.
  - destruct (EN.isTrue (EN.ariaExpanded n)); reflexivity.
  - unfold EN.onLinkClick. destruct (hash && found)%bool; simpl;
      destruct (EN.isTrue (EN.ariaExpanded n)); reflexivity.
  - destruct (EN.isTrue (EN.ariaExpanded n)); reflexivity.
Qed.

(** X16.  In [initializeNavigation] only the toggle's handler writes
    [aria-expanded], and it flips it: after any events the attribute reads
    ["true"] exactly when it did at first and the toggle was clicked an even
    number of times, or it did not and the count is odd.  It does not follow
    the menu: a link click that closes the menu opened by the toggle leaves
    [aria-expanded] at ["true"]. *)
Theorem aria_counts_toggle_clicks (n : EN.Nav) (es : list EN.Event) :
  EN.isTrue (EN.ariaExpanded (EN.run n es))
  = xorb (EN.isTrue (EN.ariaExpanded n))
         (Nat.odd (List.length (filter EN.isToggleClick es)))
  /\ (EN.menuActive (EN.run n es) = false ->
      EN.isTrue (EN.ariaExpanded (EN.run n es)) = false ->
      let n' := EN.run (EN.run n es) [EN.ToggleClick; EN.LinkClick true true] in
      EN.menuActive n' = false
      /\ EN.ariaExpanded n' = Some "true"%string).
Proof.
  split.
  - revert n. unfold EN.run.
    induction es as [|e rest IH]; intro n; simpl.
    + destruct (EN.isTrue (EN.ariaExpanded n)); reflexivity.
    + rewrite IH, step_aria.
      destruct (EN.isToggleClick e); simpl.
      * rewrite Nat.odd_succ, <- Nat.negb_odd.
        destruct (EN.isTrue (EN.ariaExpanded n)),
          (Nat.odd (List.length (filter EN.isToggleClick rest))); reflexivity.
      * destruct (EN.isTrue (EN.ariaExpanded n)); reflexivity.
  - intros Hm Ha n'. subst n'. simpl. rewrite Ha. auto.
Qed.

Lemma aria_counts_toggle_clicks_witness :
  let n := EN.mkNav false None false false 0 in
  let n' := EN.run (EN.run n [EN.Scroll 300])
                   [EN.ToggleClick; EN.LinkClick true true] in
  EN.menuActive n' = false /\ EN.ariaExpanded n' = Some "true"%string.
Proof.
  apply (proj2 (aria_counts_toggle_clicks
                  (EN.mkNav false None false false 0) [EN.Scroll 300]));
    reflexivity.
Defined.

(** ** The subtitle typewriter *)

Lemma substring0_full (s : string) :
  String.substring 0 (String.length s) s = s.
Proof. induction s as [|c s IH]; simpl; [reflexivity | rewrite IH; reflexivity]. Qed.

Lemma substring0_empty (s : string) : String.substring 0 0 s = EmptyString.
Proof. destruct s; reflexivity. Qed.

Section TypeWriterFacts.

Variable subs : list string.
Hypothesis nonempty : Forall (fun s => s <> EmptyString) subs.

Lemma subtitle_length (i : nat) :
  (i < List.length subs)%nat ->
  (1 <= String.length (nth i subs EmptyString))%nat.
Proof.
  intro Hi. rewrite Forall_forall in nonempty.
  pose proof (nonempty _ (nth_In subs EmptyString Hi)) as Hne.
  destruct (nth i subs EmptyString); simpl; [contradiction | lia].
Qed.

Lemma type_wellFormed st :
  TW.wellFormed subs st ->
  TW.wellFormed subs (TW.type subs st) /\ TW.showsPrefix subs (TW.type subs st).
Proof.
  unfold TW.wellFormed, TW.showsPrefix, TW.current.
  intros (Hi & Hc & Hty & Hdel).
  pose proof (subtitle_length _ Hi) as HL.
  unfold TW.type.
  destruct (TW.isDeleting st) eqn:Ed; cbn [TW.isDeleting TW.charIndex
    TW.subtitleIndex TW.textContent negb andb].
  - specialize (Hdel eq_refl).
    destruct (Z.eqb_spec (TW.charIndex st - 1) 0) as [E0 | N0];
      cbn [TW.isDeleting TW.charIndex TW.subtitleIndex TW.textContent].
    + assert (Hn : (0 < List.length subs)%nat) by lia.
      pose proof (Nat.mod_upper_bound (TW.subtitleIndex st + 1)
                                      (List.length subs) ltac:(lia)) as Hm.
      pose proof (subtitle_length _ Hm) as HL'.
      rewrite E0. unfold TW.substring0. simpl Z.to_nat.
      rewrite !substring0_empty.
      repeat split; intros; try lia; try discriminate.
    + repeat split; intros; try lia; try discriminate.
  - specialize (Hty eq_refl).
    destruct (Z.eqb_spec (TW.charIndex st + 1)
                         (Z.of_nat (String.length
                                      (nth (TW.subtitleIndex st) subs EmptyString))))
      as [EL | NL];
      cbn [TW.isDeleting TW.charIndex TW.subtitleIndex TW.textContent].
    + repeat split; intros; try lia; try discriminate.
    + repeat split; intros; try lia; try discriminate.
Qed.

Lemma start_wellFormed markup :
  subs <> [] -> TW.wellFormed subs (TW.start markup).
Proof.
  intro Hne. unfold TW.wellFormed, TW.current, TW.start. simpl.
  assert (Hn : (0 < List.length subs)%nat)
    by (destruct subs; [contradiction | simpl; lia]).
  pose proof (subtitle_length 0 Hn) as HL.
  repeat split; intros; try lia; try discriminate.
Qed.

Lemma iter_wellFormed st n :
  TW.wellFormed subs st ->
  TW.wellFormed subs (Nat.iter n (TW.type subs) st)
  /\ ((0 < n)%nat -> TW.showsPrefix subs (Nat.iter n (TW.type subs) st)).
Proof.
  intro H. induction n as [|n [IHw IHs]]; simpl.
  - split; [exact H | lia].
  - destruct (type_wellFormed _ IHw) as [Hw Hs]. split; [exact Hw | auto].
Qed.

End TypeWriterFacts.

(** X17.  The typewriter never leaves its subtitles: for any non-empty
    array of non-empty subtitles, so for the four of the script, after any
    number of calls of [type] the index is inside the array, [charIndex] is
    between 0 and the length of the current subtitle (below the length
    while typing, above 0 while deleting), and from the first call on the
    element shows exactly the first [charIndex] characters of that
    subtitle. *)
Theorem typewriter_invariant (subs : list string) (markup : string) (n : nat) :
  subs <> [] -> Forall (fun s => s <> EmptyString) subs ->
  let st := Nat.iter n (TW.type subs) (TW.start markup) in
  TW.wellFormed subs st /\ ((0 < n)%nat -> TW.showsPrefix subs st).
Proof.
  intros Hne Hall st. subst st.
  apply iter_wellFormed; [exact Hall|]. apply start_wellFormed; assumption.
Qed.

Lemma typewriter_invariant_witness :
  let st := Nat.iter 60 (TW.type TW.subtitles) (TW.start "KAIST") in
  TW.wellFormed TW.subtitles st
  /\ ((0 < 60)%nat -> TW.showsPrefix TW.subtitles st).
Proof.
  apply (typewriter_invariant TW.subtitles "KAIST" 60).
  - discriminate.
  - repeat constructor; discriminate.
Defined.

Section TypeWriterCycle.

Variable subs : list string.
Variable st : TW.State.
Variable cur : string.

Hypothesis at_start : TW.charIndex st = 0%Z /\ TW.isDeleting st = false.
Hypothesis is_current : nth (TW.subtitleIndex st) subs EmptyString = cur.
Hypothesis cur_nonempty : (1 <= String.length cur)%nat.

(** Typing: [k] calls show [k] characters; the last one turns to deleting
    after a pause of two seconds. *)
Lemma typing_phase (k : nat) :
  (1 <= k <= String.length cur)%nat ->
  Nat.iter k (TW.type subs) st
  = TW.mkState (TW.subtitleIndex st) (Z.of_nat k)
               (Nat.eqb k (String.length cur))
               (if Nat.eqb k (String.length cur) then 2000 else 100)
               (String.substring 0 k cur).
Proof.
  destruct at_start as [Hc Hd].
  induction k as [|k IH]; intro Hk; [lia|].
  change (Nat.iter (S k) (TW.type subs) st)
    with (TW.type subs (Nat.iter k (TW.type subs) st)).
  destruct (Nat.eq_dec k 0) as [-> | Hk0].
  - simpl Nat.iter. unfold TW.type. rewrite is_current, Hd, Hc.
    cbn [TW.isDeleting TW.charIndex TW.subtitleIndex TW.textContent negb andb].
    unfold TW.substring0.
    replace (Z.to_nat (0 + 1)) with 1%nat by lia.
    destruct (Z.eqb_spec (0 + 1) (Z.of_nat (String.length cur))) as [E | N];
      destruct (Nat.eqb_spec 1 (String.length cur)) as [E' | N']; try lia;
      reflexivity.
  - rewrite IH by lia.
    destruct (Nat.eqb_spec k (String.length cur)) as [E | N]; [lia|].
    unfold TW.type.
    cbn [TW.isDeleting TW.charIndex TW.subtitleIndex TW.textContent negb andb].
    rewrite is_current. unfold TW.substring0.
    replace (Z.to_nat (Z.of_nat k + 1)) with (S k) by lia.
    destruct (Z.eqb_spec (Z.of_nat k + 1) (Z.of_nat (String.length cur)))
      as [E' | N'];
      destruct (Nat.eqb_spec (S k) (String.length cur)) as [E'' | N'']; try lia;
      cbn [TW.isDeleting TW.charIndex TW.subtitleIndex TW.textContent];
      f_equal; lia.
Qed.

(** Deleting: [j] more calls leave [length - j] characters; the last one
    moves to the next subtitle. *)
Lemma deleting_phase (j : nat) :
  (1 <= j <= String.length cur)%nat ->
  Nat.iter (j + String.length cur) (TW.type subs) st
  = if Nat.eqb j (String.length cur)
    then TW.mkState ((TW.subtitleIndex st + 1) mod List.length subs) 0 false
                    500 EmptyString
    else TW.mkState (TW.subtitleIndex st) (Z.of_nat (String.length cur - j))
                    true 50 (String.substring 0 (String.length cur - j) cur).
Proof.
  induction j as [|j IH]; intro Hj; [lia|].
  change (Nat.iter (S j + String.length cur) (TW.type subs) st)
    with (TW.type subs (Nat.iter (j + String.length cur) (TW.type subs) st)).
  assert (Hprev : Nat.iter (j + String.length cur) (TW.type subs) st
                  = TW.mkState (TW.subtitleIndex st)
                               (Z.of_nat (String.length cur - j)) true
                               (if Nat.eqb j 0 then 2000 else 50)
                               (String.substring 0 (String.length cur - j) cur)).
  { destruct (Nat.eq_dec j 0) as [-> | Hj0].
    - simpl plus. rewrite typing_phase by lia.
      rewrite Nat.eqb_refl, Nat.sub_0_r. reflexivity.
    - rewrite IH by lia.
      destruct (Nat.eqb_spec j (String.length cur)) as [E | N]; [lia|].
      destruct (Nat.eqb_spec j 0) as [E0 | N0]; [lia|]. reflexivity. }
  rewrite Hprev. unfold TW.type.
  cbn [TW.isDeleting TW.charIndex TW.subtitleIndex TW.textContent negb andb].
  rewrite is_current. unfold TW.substring0.
  replace (Z.to_nat (Z.of_nat (String.length cur - j) - 1))
    with (String.length cur - S j)%nat by lia.
  destruct (Z.eqb_spec (Z.of_nat (String.length cur - j) - 1) 0) as [E | N];
    destruct (Nat.eqb_spec (S j) (String.length cur)) as [E' | N']; try lia;
    cbn [TW.isDeleting TW.charIndex TW.subtitleIndex TW.textContent].
  - rewrite E. replace (String.length cur - S j)%nat with 0%nat by lia.
    rewrite substring0_empty. reflexivity.
  - f_equal. lia.
Qed.

End TypeWriterCycle.

(** X18.  From the start of a subtitle of length [L], at least 1, the
    typewriter shows the whole subtitle after [L] calls, then holding for
    2000 ms with deleting switched on, and after [L] more calls it has
    erased it and stands at the start of the next subtitle, the first one
    following the last, with a delay of 500 ms. *)
Theorem typewriter_cycle (subs : list string) (st : TW.State) :
  TW.charIndex st = 0%Z -> TW.isDeleting st = false ->
  let cur := TW.current subs st in
  let L := String.length cur in
  (1 <= L)%nat ->
  Nat.iter L (TW.type subs) st
  = TW.mkState (TW.subtitleIndex st) (Z.of_nat L) true 2000 cur
  /\ Nat.iter (2 * L) (TW.type subs) st
     = TW.mkState ((TW.subtitleIndex st + 1) mod List.length subs) 0 false 500
                  EmptyString.
Proof.
  intros Hc Hd cur L HL. split.
  - rewrite (typing_phase subs st cur (conj Hc Hd) eq_refl HL L)
      by (unfold L; lia).
    unfold L. rewrite Nat.eqb_refl, substring0_full. reflexivity.
  - replace (2 * L)%nat with (L + String.length cur)%nat by (unfold L; lia).
    rewrite (deleting_phase subs st cur (conj Hc Hd) eq_refl HL L)
      by (unfold L; lia).
    unfold L. rewrite Nat.eqb_refl. reflexivity.
Qed.

(** The first subtitle of the script, 22 characters long. *)
Lemma typewriter_cycle_witness :
  Nat.iter 22 (TW.type TW.subtitles) (TW.start "")
  = TW.mkState 0 22 true 2000 "AI Researcher at KAIST"
  /\ Nat.iter 44 (TW.type TW.subtitles) (TW.start "")
     = TW.mkState 1 0 false 500 EmptyString.
Proof.
  apply (typewriter_cycle TW.subtitles (TW.start "") eq_refl eq_refl).
  simpl. lia.
Defined.

(** ** The hero title typewriter *)

Lemma append_empty_r (s : string) : (s ++ "")%string = s.
Proof. induction s as [|c s IH]; simpl; [reflexivity | rewrite IH; reflexivity]. Qed.

Lemma substring_snoc (s : string) : forall k,
  (k < String.length s)%nat ->
  (String.substring 0 k s ++ HT.charAt s k)%string = String.substring 0 (S k) s.
Proof.
  unfold HT.charAt.
  induction s as [|c s IH]; intros k Hk; simpl in Hk; [lia|].
  destruct k as [|k].
  - simpl. destruct s; reflexivity.
  - simpl. specialize (IH k ltac:(lia)).
    simpl in IH. rewrite IH. reflexivity.
Qed.

Lemma bar_typed (text : string) (k : nat) :
  (1 <= k <= String.length text)%nat ->
  Nat.iter k (HT.typeWriter text) HT.setup
  = HT.mkState [HT.TextNode ("|" ++ String.substring 0 k text)] k true.
Proof.
  induction k as [|k IH]; intro Hk; [lia|].
  change (Nat.iter (S k) (HT.typeWriter text) HT.setup)
    with (HT.typeWriter text (Nat.iter k (HT.typeWriter text) HT.setup)).
  destruct (Nat.eq_dec k 0) as [-> | Hk0].
  - simpl Nat.iter. unfold HT.typeWriter, HT.setup.
    cbn [HT.typing HT.i HT.children negb].
    destruct (Nat.ltb_spec 0 (String.length text)) as [Hlt | Hge]; [|lia].
    pose proof (substring_snoc text 0 Hlt) as Hs.
    rewrite substring0_empty in Hs. simpl in Hs.
    simpl. rewrite Hs. reflexivity.
  - rewrite IH by lia. unfold HT.typeWriter.
    cbn [HT.typing HT.i HT.children negb].
    destruct (Nat.ltb_spec k (String.length text)) as [Hlt | Hge]; [|lia].
    unfold HT.getTextContent. simpl map. simpl fold_right.
    rewrite append_empty_r.
    replace (k + 1)%nat with (S k) by lia.
    rewrite <- (substring_snoc text k Hlt). reflexivity.
Qed.

Lemma typeWriter_done text st :
  HT.typing st = false -> forall n, Nat.iter n (HT.typeWriter text) st = st.
Proof.
  intros Hd n. induction n as [|n IH]; [reflexivity|].
  change (Nat.iter (S n) (HT.typeWriter text) st)
    with (HT.typeWriter text (Nat.iter n (HT.typeWriter text) st)).
  rewrite IH. unfold HT.typeWriter. rewrite Hd. reflexivity.
Qed.

(** X19.  The hero title typewriter does not keep its cursor element.  The
    first character is typed with [heroTitle.textContent += ...], which reads
    the ["|"] of the cursor [span] as text and replaces all children by one
    text node: for a title [text] of length [L >= 1], after [k] runs,
    [1 <= k <= L], the heading holds the single text node ["|"] followed by
    the first [k] characters of [text], and the [span] is gone; after more
    than [L] runs it holds ["|"] followed by the whole title and no run
    changes it again. *)
Theorem hero_title_keeps_bar (text : string) (n : nat) :
  (1 <= String.length text)%nat -> (1 <= n)%nat ->
  let st := Nat.iter n (HT.typeWriter text) HT.setup in
  HT.children st
  = [HT.TextNode ("|" ++ String.substring 0 (Nat.min n (String.length text)) text)]
  /\ ~ In HT.CursorSpan (HT.children st)
  /\ HT.i st = Nat.min n (String.length text)
  /\ HT.typing st = Nat.leb n (String.length text).
Proof.
  intros HL Hn st.
  assert (Hst : st = HT.mkState
                       [HT.TextNode ("|" ++ String.substring
                                               0 (Nat.min n (String.length text)) text)]
                       (Nat.min n (String.length text))
                       (Nat.leb n (String.length text))).
  { subst st. destruct (Nat.leb_spec n (String.length text)) as [Hle | Hgt].
    - rewrite Nat.min_l by lia. apply bar_typed. lia.
    - rewrite Nat.min_r by lia.
      replace n with ((n - S (String.length text)) + S (String.length text))%nat
        by lia.
      rewrite Nat.iter_add.
      change (Nat.iter (S (String.length text)) (HT.typeWriter text) HT.setup)
        with (HT.typeWriter text
                (Nat.iter (String.length text) (HT.typeWriter text) HT.setup)).
      rewrite bar_typed by lia.
      assert (Hlast : HT.typeWriter text
                        (HT.mkState
                           [HT.TextNode
                              ("|" ++ String.substring 0 (String.length text) text)]
                           (String.length text) true)
                      = HT.mkState
                          [HT.TextNode
                             ("|" ++ String.substring 0 (String.length text) text)]
                          (String.length text) false).
      { unfold HT.typeWriter. cbn [HT.typing HT.i HT.children negb].
        rewrite Nat.ltb_irrefl. reflexivity. }
      rewrite Hlast. apply typeWriter_done. reflexivity. }
  rewrite Hst. cbn [HT.children HT.i HT.typing].
  repeat split. intros [H | []]. discriminate.
Qed.

Lemma hero_title_keeps_bar_witness :
  let st := Nat.iter 20 (HT.typeWriter "Hyunjun Kim") HT.setup in
  HT.children st
  = [HT.TextNode ("|" ++ String.substring
                          0 (Nat.min 20 (String.length "Hyunjun Kim"))
                          "Hyunjun Kim")]
  /\ ~ In HT.CursorSpan (HT.children st)
  /\ HT.i st = Nat.min 20 (String.length "Hyunjun Kim")
  /\ HT.typing st = Nat.leb 20 (String.length "Hyunjun Kim").
Proof.
  apply (hero_title_keeps_bar "Hyunjun Kim" 20); simpl; lia.
Defined.
(** ** The counters *)

Section CounterInBinary64.
Import DoubleFacts.

Lemma floor_IZR (z : Z) : Counter.floor (IZR z) = z.
Proof.
  unfold Counter.floor. symmetry. apply Int_part_spec. lra.
Qed.

(** The increment is [target / 125] rounded. *)
Lemma increment_error (target : Z) :
  1 <= IZR target ->
  Rabs (Counter.increment target - IZR target / 125) <= IZR target * 2e-18.
Proof.
  intro HT. unfold Counter.increment, Counter.duration, Double.div.
  replace (2000 / 16) with 125 by lra.
  rewrite (round_IZR 125) by reflexivity.
  pose proof (round_error_le (IZR target / 125) (IZR target / 125)
                ltac:(rewrite Rabs_pos_eq by lra; lra)) as H.
  apply Rabs_bound in H. apply Rabs_le. lra.
Qed.

Lemma increment_nonpositive (target : Z) :
  (- 2 ^ 53 < target <= 0)%Z ->
  IZR target <= Counter.increment target <= 0.
Proof.
  intros [Hl Hh]. pose proof (IZR_le _ _ Hh) as HR.
  unfold Counter.increment, Counter.duration, Double.div.
  replace (2000 / 16) with 125 by lra.
  rewrite (round_IZR 125) by reflexivity. split.
  - rewrite <- (round_IZR target) at 1 by lia. apply round_le. lra.
  - rewrite <- round_0. apply round_le. lra.
Qed.

Lemma counter_stopped target st :
  Counter.active st = false ->
  forall n, Nat.iter n (Counter.tick target) st = st.
Proof.
  intros Hd n. induction n as [|n IH]; [reflexivity|].
  rewrite Nat.iter_succ, IH. unfold Counter.tick. rewrite Hd. reflexivity.
Qed.

(** One tick of a running counter whose sum is within [P * 4e-16] of
    [P / 125], [P] at most [124 * target]. *)
Lemma tick_error (target : Z) (P cur : R) :
  1 <= IZR target -> 0 <= P <= 124 * IZR target ->
  Rabs (cur - P / 125) <= P * 4e-16 ->
  let c := Double.add cur (Counter.increment target) in
  Rabs (c - (P + IZR target) / 125) <= (P + IZR target) * 4e-16.
Proof.
  intros HT HP Hc c. pose proof (increment_error target HT) as Hi.
  apply Rabs_bound in Hc, Hi.
  set (inc := Counter.increment target) in *. set (T := IZR target) in *.
  assert (Hs : Rabs (cur + inc) <= 2 * T) by (apply Rabs_le; lra).
  pose proof (round_error_le (cur + inc) (2 * T) Hs) as He.
  apply Rabs_bound in He. unfold c, Double.add. apply Rabs_le. lra.
Qed.

(** The first 124 ticks: the counter runs, its sum next to [k * target /
    125]. *)
Lemma counting (target : Z) (k : nat) :
  1 <= IZR target -> (k <= 124)%nat ->
  let st := Nat.iter k (Counter.tick target) Counter.start in
  Counter.active st = true
  /\ Rabs (Counter.current st - INR k * IZR target / 125)
     <= INR k * IZR target * 4e-16
  /\ ((1 <= k)%nat ->
      Counter.textContent st = Some (Counter.floor (Counter.current st))).
Proof.
  intros HT. induction k as [|k IH]; intro Hk.
  - simpl. split; [reflexivity|]. split; [|lia].
    rewrite Rmult_0_l. unfold Rdiv. rewrite !Rmult_0_l, Rminus_diag, Rabs_R0.
    lra.
  - destruct (IH ltac:(lia)) as (Ha & He & _).
    assert (HK : 0 <= INR k <= 123).
    { split; [apply pos_INR|].
      replace 123 with (INR 123) by (rewrite INR_IZR_INZ; reflexivity).
      apply le_INR. lia. }
    assert (HP : 0 <= INR k * IZR target <= 123 * IZR target) by nra.
    pose proof (tick_error target (INR k * IZR target)
                  (Counter.current
                     (Nat.iter k (Counter.tick target) Counter.start))
                  HT ltac:(lra) He) as Hn.
    cbv zeta in Hn |- *. rewrite Nat.iter_succ.
    set (st := Nat.iter k (Counter.tick target) Counter.start) in *.
    set (c := Double.add (Counter.current st) (Counter.increment target)) in *.
    assert (HS : INR (S k) * IZR target = INR k * IZR target + IZR target)
      by (rewrite S_INR; ring).
    unfold Counter.tick. rewrite Ha. cbn [negb]. fold c.
    apply Rabs_bound in Hn.
    destruct (Rge_dec c (IZR target)) as [Hge|Hlt]; [exfalso; lra|].
    cbn [Counter.active Counter.current Counter.textContent].
    split; [reflexivity|]. split; [|reflexivity].
    rewrite HS. apply Rabs_le. lra.
Qed.

(** What a running counter shows when its sum is within [1e-3] of
    [k * target / 125]. *)
Lemma shown_value (target : Z) (k : nat) (cur : R) :
  Rabs (cur - INR k * IZR target / 125) <= 1e-3 ->
  let n := (Z.of_nat k * target)%Z in
  (Counter.floor cur = (n / 125)%Z \/ Counter.floor cur = (n / 125 - 1)%Z)
  /\ ((n mod 125 <> 0)%Z -> Counter.floor cur = (n / 125)%Z).
Proof.
  intros H n. apply Rabs_bound in H.
  assert (En : INR k * IZR target = IZR n)
    by (unfold n; rewrite mult_IZR, <- INR_IZR_INZ; reflexivity).
  rewrite En in H.
  pose proof (Z.div_mod n 125 ltac:(lia)) as Hdm.
  pose proof (Z.mod_pos_bound n 125 ltac:(lia)) as Hj.
  set (q := (n / 125)%Z) in *. set (j := (n mod 125)%Z) in *.
  assert (Er : IZR n = 125 * IZR q + IZR j)
    by (rewrite Hdm, plus_IZR, mult_IZR; reflexivity).
  assert (Hj0 : 0 <= IZR j <= 124).
  { split; [apply IZR_le; lia|]. apply IZR_le. lia. }
  unfold Counter.floor.
  assert (Hnz : (j <> 0)%Z -> Int_part cur = q).
  { intro Hne. symmetry. apply Int_part_spec.
    assert (1 <= IZR j) by (apply IZR_le; lia). lra. }
  split; [|exact Hnz].
  destruct (Z.eq_dec j 0) as [E0|Hne]; [|left; apply Hnz, Hne].
  rewrite E0 in Er.
  destruct (Rle_dec (IZR q) cur) as [Hge|Hlt].
  - left. symmetry. apply Int_part_spec. lra.
  - right. symmetry. apply Int_part_spec. rewrite minus_IZR. lra.
Qed.

Lemma floor_below (target : Z) (cur : R) :
  0 <= cur < IZR target -> (0 <= Counter.floor cur < target)%Z.
Proof.
  intros [H0 H1]. unfold Counter.floor.
  pose proof (base_Int_part cur) as [Hf1 Hf2]. split.
  - assert (IZR (-1) < IZR (Int_part cur)) by lra.
    apply lt_IZR in H. lia.
  - apply lt_IZR. lra.
Qed.

(** What a running counter shows after [k] ticks, [1 <= k <= 125]. *)
Lemma running_shows (target : Z) (k : nat) (cur : R) :
  1 <= IZR target <= 2147483648 -> (1 <= k <= 125)%nat ->
  Rabs (cur - INR k * IZR target / 125) <= INR k * IZR target * 4e-16 ->
  cur < IZR target ->
  (0 <= Counter.floor cur < target)%Z
  /\ (Counter.floor cur = (Z.of_nat k * target / 125)%Z
      \/ Counter.floor cur = (Z.of_nat k * target / 125 - 1)%Z)
  /\ (((Z.of_nat k * target) mod 125 <> 0)%Z ->
      Counter.floor cur = (Z.of_nat k * target / 125)%Z).
Proof.
  intros HT Hk He Hlt.
  assert (HK : 1 <= INR k <= 125).
  { split.
    - replace 1 with (INR 1) by reflexivity. apply le_INR. lia.
    - replace 125 with (INR 125) by (rewrite INR_IZR_INZ; reflexivity).
      apply le_INR. lia. }
  assert (HP : 0 <= INR k * IZR target <= 125 * 2147483648) by nra.
  split.
  - apply floor_below. apply Rabs_bound in He. lra.
  - apply shown_value. apply Rle_trans with (1 := He). lra.
Qed.

(** The last tick: a sum of at least [target] stops the counter. *)
Lemma tick_stops (target : Z) (st : Counter.State) :
  Counter.active st = true ->
  IZR target
  <= Double.add (Counter.current st) (Counter.increment target) ->
  Counter.tick target st = Counter.mkState (IZR target) false (Some target).
Proof.
  intros Ha Hge. unfold Counter.tick. rewrite Ha. cbn [negb].
  destruct (Rge_dec _ _) as [_|H]; [|exfalso; lra].
  rewrite floor_IZR. reflexivity.
Qed.

Lemma tick_runs (target : Z) (st : Counter.State) :
  Counter.active st = true ->
  Double.add (Counter.current st) (Counter.increment target) < IZR target ->
  Counter.tick target st
  = Counter.mkState
      (Double.add (Counter.current st) (Counter.increment target)) true
      (Some (Counter.floor
               (Double.add (Counter.current st) (Counter.increment target)))).
Proof.
  intros Ha Hlt. unfold Counter.tick. rewrite Ha. cbn [negb].
  destruct (Rge_dec _ _) as [H|_]; [exfalso; lra | reflexivity].
Qed.

Lemma stopped_from (target : Z) (n k : nat) :
  (n <= k)%nat ->
  Nat.iter n (Counter.tick target) Counter.start
  = Counter.mkState (IZR target) false (Some target) ->
  Nat.iter k (Counter.tick target) Counter.start
  = Counter.mkState (IZR target) false (Some target).
Proof.
  intros Hk Hn. replace k with ((k - n) + n)%nat by lia.
  rewrite Nat.iter_add, Hn. apply counter_stopped. reflexivity.
Qed.

End CounterInBinary64.

(** X20.  A counter towards an integer target between 1 and [2^31] runs in
    binary64 for 124 ticks and stops at the 125th or at the 126th, showing
    the target from then on: the sum of 125 rounded increments can fall
    short of the target.  While it runs it shows, after its [k]-th tick, a
    number below the target that is [floor(k * target / 125)], or one less
    when [k * target / 125] is an integer.  For a target that is 0 or
    negative the first tick already shows the target and clears the
    interval.  On the machine the counter to 50 stops at tick 126, the
    counter to 125 at tick 125. *)
Theorem counter_reaches_target (target : Z) :
  ((1 <= target <= 2 ^ 31)%Z ->
   exists n : nat,
     (n = 125 \/ n = 126)%nat
     /\ forall k : nat,
          let st := Nat.iter k (Counter.tick target) Counter.start in
          ((1 <= k < n)%nat ->
           Counter.active st = true
           /\ Counter.textContent st
              = Some (Counter.floor (Counter.current st))
           /\ (0 <= Counter.floor (Counter.current st) < target)%Z
           /\ (Counter.floor (Counter.current st)
               = (Z.of_nat k * target / 125)%Z
               \/ Counter.floor (Counter.current st)
                  = (Z.of_nat k * target / 125 - 1)%Z)
           /\ (((Z.of_nat k * target) mod 125 <> 0)%Z ->
               Counter.floor (Counter.current st)
               = (Z.of_nat k * target / 125)%Z))
          /\ ((n <= k)%nat ->
              st = Counter.mkState (IZR target) false (Some target)))
  /\ ((- 2 ^ 31 <= target <= 0)%Z ->
      forall k : nat,
        (1 <= k)%nat ->
        Nat.iter k (Counter.tick target) Counter.start
        = Counter.mkState (IZR target) false (Some target))
  /\ Binary64.counterStops 50 = 126%nat
  /\ Binary64.counterStops 125 = 125%nat.
Proof.
  split; [|split; [|split; vm_compute; reflexivity]].
  - intros [Hlo Hhi].
    assert (HT : 1 <= IZR target <= 2147483648)
      by (split; apply IZR_le; assumption).
    assert (HT1 : 1 <= IZR target) by lra.
    (* while the sum is below the target *)
    assert (Hrun : forall k,
               (1 <= k <= 124)%nat ->
               let st := Nat.iter k (Counter.tick target) Counter.start in
               Counter.active st = true
               /\ Counter.textContent st
                  = Some (Counter.floor (Counter.current st))
               /\ (0 <= Counter.floor (Counter.current st) < target)%Z
               /\ (Counter.floor (Counter.current st)
                   = (Z.of_nat k * target / 125)%Z
                   \/ Counter.floor (Counter.current st)
                      = (Z.of_nat k * target / 125 - 1)%Z)
               /\ (((Z.of_nat k * target) mod 125 <> 0)%Z ->
                   Counter.floor (Counter.current st)
                   = (Z.of_nat k * target / 125)%Z)).
    { intros k Hk st.
      destruct (counting target k HT1 ltac:(lia)) as (Ha & He & Ht).
      fold st in Ha, He, Ht.
      split; [exact Ha|]. split; [apply Ht; lia|].
      apply (running_shows target k); [exact HT | lia | exact He|].
      assert (HK : 0 <= INR k <= 124).
      { split; [apply pos_INR|].
        replace 124 with (INR 124) by (rewrite INR_IZR_INZ; reflexivity).
        apply le_INR. lia. }
      apply DoubleFacts.Rabs_bound in He. nra. }
    destruct (counting target 124 HT1 ltac:(lia)) as (Ha & He & _).
    set (s124 := Nat.iter 124 (Counter.tick target) Counter.start) in *.
    assert (E124 : INR 124 = 124) by (rewrite INR_IZR_INZ; reflexivity).
    rewrite E124 in He.
    pose proof (tick_error target (124 * IZR target) (Counter.current s124)
                  HT1 ltac:(lra) He) as H125.
    cbv zeta in H125.
    set (c125 := Double.add (Counter.current s124) (Counter.increment target))
      in *.
    replace (124 * IZR target + IZR target) with (125 * IZR target)
      in H125 by ring.
    destruct (Rle_dec (IZR target) c125) as [Hge|Hlt].
    + (* the 125th tick reaches the target *)
      exists 125%nat. split; [left; reflexivity|]. intros k st. split.
      * intro Hk. apply Hrun. lia.
      * intro Hk. apply (stopped_from target 125 k Hk).
        rewrite Nat.iter_succ. apply tick_stops; assumption.
    + (* it falls short, and the 126th tick reaches it *)
      apply Rnot_le_lt in Hlt.
      assert (E125 : Nat.iter 125 (Counter.tick target) Counter.start
                     = Counter.mkState c125 true (Some (Counter.floor c125))).
      { rewrite Nat.iter_succ. apply tick_runs; assumption. }
      exists 126%nat. split; [right; reflexivity|]. intros k st. split.
      * intro Hk. destruct (Nat.eq_dec k 125) as [->|Hne];
          [|apply Hrun; lia].
        unfold st. rewrite E125.
        cbn [Counter.active Counter.current Counter.textContent].
        split; [reflexivity|]. split; [reflexivity|].
        apply (running_shows target 125); [exact HT | lia | | exact Hlt].
        replace (INR 125) with 125 by (rewrite INR_IZR_INZ; reflexivity).
        exact H125.
      * intro Hk. apply (stopped_from target 126 k Hk).
        rewrite Nat.iter_succ, E125. apply tick_stops; [reflexivity|].
        cbn [Counter.current].
        pose proof (increment_error target HT1) as Hi.
        apply DoubleFacts.Rabs_bound in Hi, H125.
        unfold Double.add.
        rewrite <- (DoubleFacts.round_IZR target) at 1
          by (change (2 ^ 53)%Z with 9007199254740992%Z;
              change (2 ^ 31)%Z with 2147483648%Z in Hhi; lia).
        apply DoubleFacts.round_le. lra.
  - intros [Hlo Hhi] k Hk. apply (stopped_from target 1 k Hk).
    simpl. apply tick_stops; [reflexivity|].
    cbn [Counter.current Counter.start].
    assert (Hb : (- 2 ^ 53 < target <= 0)%Z).
    { change (2 ^ 53)%Z with 9007199254740992%Z.
      change (2 ^ 31)%Z with 2147483648%Z in Hlo. lia. }
    pose proof (increment_nonpositive target Hb) as Hi.
    unfold Double.add.
    rewrite <- (DoubleFacts.round_IZR target) at 1
      by (change (2 ^ 53)%Z with 9007199254740992%Z;
          change (2 ^ 31)%Z with 2147483648%Z in Hlo; lia).
    apply DoubleFacts.round_le. lra.
Qed.

(** A counter to 50, before and after it stops, and a counter to -5 after
    three ticks. *)
Lemma counter_reaches_target_witness :
  (exists n : nat,
      (n = 125 \/ n = 126)%nat
      /\ forall k : nat,
           let st := Nat.iter k (Counter.tick 50) Counter.start in
           ((1 <= k < n)%nat ->
            Counter.active st = true
            /\ Counter.textContent st
               = Some (Counter.floor (Counter.current st))
            /\ (0 <= Counter.floor (Counter.current st) < 50)%Z
            /\ (Counter.floor (Counter.current st)
                = (Z.of_nat k * 50 / 125)%Z
                \/ Counter.floor (Counter.current st)
                   = (Z.of_nat k * 50 / 125 - 1)%Z)
            /\ (((Z.of_nat k * 50) mod 125 <> 0)%Z ->
                Counter.floor (Counter.current st)
                = (Z.of_nat k * 50 / 125)%Z))
           /\ ((n <= k)%nat ->
               st = Counter.mkState (IZR 50) false (Some 50%Z)))
  /\ Nat.iter 3 (Counter.tick (-5)) Counter.start
     = Counter.mkState (IZR (-5)) false (Some (-5)%Z).
Proof.
  split.
  - apply (proj1 (counter_reaches_target 50)). split; [lia|].
    change (2 ^ 31)%Z with 2147483648%Z. lia.
  - apply (proj1 (proj2 (counter_reaches_target (-5)))); [|lia].
    change (2 ^ 31)%Z with 2147483648%Z. lia.
Defined.

(** ** The custom cursor *)

Lemma animateCursor_gap st :
  let st' := CC.animateCursor st in
  CC.mouseX st' = CC.mouseX st /\ CC.mouseY st' = CC.mouseY st
  /\ CC.mouseX st' - CC.cursorX st' = 0.9 * (CC.mouseX st - CC.cursorX st)
  /\ CC.mouseY st' - CC.cursorY st' = 0.9 * (CC.mouseY st - CC.cursorY st)
  /\ CC.mouseX st' - CC.dotX st' = 0.1 * (CC.mouseX st - CC.dotX st)
  /\ CC.mouseY st' - CC.dotY st' = 0.1 * (CC.mouseY st - CC.dotY st).
Proof. simpl. repeat split; lra. Qed.

(** X21.  While the mouse rests, each frame of [animateCursor] closes a
    tenth of the ring's distance to the mouse and nine tenths of the dot's:
    after [n] frames the ring is [0.9 ^ n] of its first distance away and
    the dot [0.1 ^ n], on either axis, each on the side of the mouse it
    started on; so they approach the mouse without passing it, and the
    ring is drawn 20 px up and left of its position. *)
Theorem cursor_eases_in (st : CC.State) (n : nat) :
  let st' := Nat.iter n CC.animateCursor st in
  CC.mouseX st' = CC.mouseX st /\ CC.mouseY st' = CC.mouseY st
  /\ CC.mouseX st - CC.cursorX st' = 0.9 ^ n * (CC.mouseX st - CC.cursorX st)
  /\ CC.mouseY st - CC.cursorY st' = 0.9 ^ n * (CC.mouseY st - CC.cursorY st)
  /\ CC.mouseX st - CC.dotX st' = 0.1 ^ n * (CC.mouseX st - CC.dotX st)
  /\ CC.mouseY st - CC.dotY st' = 0.1 ^ n * (CC.mouseY st - CC.dotY st)
  /\ Rabs (CC.mouseX st - CC.cursorX st') <= Rabs (CC.mouseX st - CC.cursorX st)
  /\ Rabs (CC.mouseY st - CC.cursorY st') <= Rabs (CC.mouseY st - CC.cursorY st)
  /\ CC.cursorLeft st' = CC.cursorX st' - 20.
Proof.
  intro st'. subst st'.
  assert (H : CC.mouseX (Nat.iter n CC.animateCursor st) = CC.mouseX st
              /\ CC.mouseY (Nat.iter n CC.animateCursor st) = CC.mouseY st
              /\ CC.mouseX st - CC.cursorX (Nat.iter n CC.animateCursor st)
                 = 0.9 ^ n * (CC.mouseX st - CC.cursorX st)
              /\ CC.mouseY st - CC.cursorY (Nat.iter n CC.animateCursor st)
                 = 0.9 ^ n * (CC.mouseY st - CC.cursorY st)
              /\ CC.mouseX st - CC.dotX (Nat.iter n CC.animateCursor st)
                 = 0.1 ^ n * (CC.mouseX st - CC.dotX st)
              /\ CC.mouseY st - CC.dotY (Nat.iter n CC.animateCursor st)
                 = 0.1 ^ n * (CC.mouseY st - CC.dotY st)).
  { induction n as [|n IH].
    - simpl. repeat split; lra.
    - change (Nat.iter (S n) CC.animateCursor st)
        with (CC.animateCursor (Nat.iter n CC.animateCursor st)).
      destruct IH as (Hx & Hy & Hcx & Hcy & Hdx & Hdy).
      destruct (animateCursor_gap (Nat.iter n CC.animateCursor st))
        as (Gx & Gy & Gcx & Gcy & Gdx & Gdy).
      rewrite Hx in Gx, Gcx, Gdx. rewrite Hy in Gy, Gcy, Gdy.
      rewrite Gx, Gy. rewrite Gx in Gcx, Gdx. rewrite Gy in Gcy, Gdy.
      rewrite Gcx, Gcy, Gdx, Gdy, Hcx, Hcy, Hdx, Hdy. simpl pow.
      repeat split; ring. }
  destruct H as (Hx & Hy & Hcx & Hcy & Hdx & Hdy).
  assert (Hpow : 0 <= 0.9 ^ n <= 1).
  { split; [apply pow_le; lra|].
    rewrite <- (pow1 n). apply pow_incr. lra. }
  repeat split; try assumption.
  - rewrite Hcx, Rabs_mult, (Rabs_pos_eq (0.9 ^ n)) by lra.
    pose proof (Rabs_pos (CC.mouseX st - CC.cursorX st)). nra.
  - rewrite Hcy, Rabs_mult, (Rabs_pos_eq (0.9 ^ n)) by lra.
    pose proof (Rabs_pos (CC.mouseY st - CC.cursorY st)). nra.
Qed.

(** ** [requestTick] *)

Lemma callbacks_run (k : nat) (b : bool) :
  Nat.iter k RT.callback (RT.mkState b 0)
  = RT.mkState (if Nat.eqb k 0 then b else false) 0.
Proof.
  induction k as [|k IH]; [reflexivity|].
  change (Nat.iter (S k) RT.callback (RT.mkState b 0))
    with (RT.callback (Nat.iter k RT.callback (RT.mkState b 0))).
  rewrite IH. reflexivity.
Qed.

(** X22.  [requestTick] keeps at most one callback requested: after any
    scrolls and frames the number of requested callbacks is 1 when
    [ticking] is set and 0 when it is not, a scroll while [ticking] is set
    requests nothing, and a frame leaves nothing requested. *)
Theorem one_tick_at_a_time (es : list RT.Event) :
  let st := RT.run RT.start es in
  RT.requested st = (if RT.ticking st then 1 else 0)%nat
  /\ (RT.ticking st = true -> RT.step st RT.Scroll = st)
  /\ RT.step st RT.Frame = RT.start.
Proof.
  intro st.
  assert (H : RT.requested st = (if RT.ticking st then 1 else 0)%nat).
  { subst st. unfold RT.run.
    assert (G : forall l s,
               RT.requested s = (if RT.ticking s then 1 else 0)%nat ->
               RT.requested (fold_left RT.step l s)
               = (if RT.ticking (fold_left RT.step l s) then 1 else 0)%nat).
    { induction l as [|e l IH]; intros s Hs; simpl; [exact Hs|].
      apply IH. destruct e; simpl.
      - unfold RT.requestTick. destruct (RT.ticking s) eqn:Et; simpl.
        + rewrite Et. exact Hs.
        + rewrite Hs. reflexivity.
      - rewrite callbacks_run. simpl.
        destruct (RT.ticking s); rewrite Hs; reflexivity. }
    apply G. reflexivity. }
  split; [exact H|]. split.
  - intro Ht. simpl. unfold RT.requestTick. rewrite Ht. reflexivity.
  - simpl. rewrite callbacks_run, H.
    destruct (RT.ticking st); reflexivity.
Qed.

(** ** The particle trail *)

Lemma spaced_snoc (l : list Z) (t x : Z) :
  PT.spaced t l -> (t + 50 <= x)%Z ->
  Forall (fun a => (a + 50 <= x)%Z) l ->
  PT.spaced t (l ++ [x]).
Proof.
  revert t. induction l as [|a l IH]; intros t Hs Ht Hall; simpl.
  - split; [exact Ht | exact I].
  - destruct Hs as [Hta Hs]. inversion Hall as [|? ? Ha Hl]; subst.
    split; [exact Hta|]. apply IH; assumption.
Qed.

Lemma onMouseMove_throttled now rnd x y st :
  throttled st -> throttled (PT.onMouseMove now rnd x y st).
Proof.
  intros (H0 & Hs & Hall). unfold PT.onMouseMove.
  destruct (negb (PT.enabled st)); [repeat split; assumption|].
  destruct (Z.ltb_spec (now - PT.lastTrailTime st) 50) as [Hlt|Hge];
    [repeat split; assumption|].
  destruct (Rgt_dec rnd 0.7); unfold throttled; simpl.
  - split; [lia|]. split.
    + rewrite map_app. simpl. apply spaced_snoc; [exact Hs | lia |].
      apply Forall_map. eapply Forall_impl; [|exact Hall].
      simpl. intros t Ht. lia.
    + apply Forall_app. split.
      * eapply Forall_impl; [|exact Hall]. simpl. intros t Ht. lia.
      * constructor; [simpl; lia | constructor].
  - split; [lia|]. split; [exact Hs|].
    eapply Forall_impl; [|exact Hall]. simpl. intros t Ht. lia.
Qed.

Lemma onMouseMove_count now rnd x y st :
  (List.length (PT.trails (PT.onMouseMove now rnd x y st))
   <= S (List.length (PT.trails st)))%nat
  /\ PT.enabled (PT.onMouseMove now rnd x y st) = PT.enabled st.
Proof.
  unfold PT.onMouseMove.
  destruct (negb (PT.enabled st)); [split; [lia | reflexivity]|].
  destruct (Z.ltb (now - PT.lastTrailTime st) 50); [split; [lia | reflexivity]|].
  destruct (Rgt_dec rnd 0.7); simpl; split; try reflexivity; try lia.
  rewrite length_app. simpl. lia.
Qed.

Lemma onMouseMove_disabled now rnd x y st :
  PT.enabled st = false -> PT.onMouseMove now rnd x y st = st.
Proof. intro H. unfold PT.onMouseMove. rewrite H. reflexivity. Qed.

(** X23.  The particle trail is throttled: whatever the clock readings, the
    random draws and the pointer positions of the [mousemove] events, the
    trail elements appended are at least 50 ms apart by the clock readings
    they were made at, the first one at least 50 ms after clock reading 0,
    none is newer than [lastTrailTime], there are no more of them than
    events, and on a window at most 768 px wide there are none at all. *)
Theorem trail_throttle (innerWidth : nat) (ms : list PT.Move) :
  let st := PT.run (PT.initParticleTrail innerWidth) ms in
  PT.spaced 0 (map PT.born (PT.trails st))
  /\ Forall (fun t => (PT.born t <= PT.lastTrailTime st)%Z) (PT.trails st)
  /\ (List.length (PT.trails st) <= List.length ms)%nat
  /\ ((innerWidth <= 768)%nat -> PT.trails st = []).
Proof.
  intro st. subst st. unfold PT.run.
  assert (G : forall l s, throttled s ->
              throttled (fold_left
                (fun s m => PT.onMouseMove (PT.at_ m) (PT.rnd m)
                                           (PT.clientX m) (PT.clientY m) s)
                l s)).
  { induction l as [|m l IH]; intros s Hs; simpl; [exact Hs|].
    apply IH. apply onMouseMove_throttled. exact Hs. }
  assert (C : forall l s,
              (List.length (PT.trails (fold_left
                (fun s m => PT.onMouseMove (PT.at_ m) (PT.rnd m)
                                           (PT.clientX m) (PT.clientY m) s)
                l s))
               <= List.length (PT.trails s) + List.length l)%nat).
  { induction l as [|m l IH]; intros s; simpl; [lia|].
    specialize (IH (PT.onMouseMove (PT.at_ m) (PT.rnd m)
                                   (PT.clientX m) (PT.clientY m) s)).
    pose proof (proj1 (onMouseMove_count (PT.at_ m) (PT.rnd m)
                                         (PT.clientX m) (PT.clientY m) s)).
    lia. }
  assert (D : forall l s, PT.enabled s = false ->
              fold_left
                (fun s m => PT.onMouseMove (PT.at_ m) (PT.rnd m)
                                           (PT.clientX m) (PT.clientY m) s)
                l s = s).
  { induction l as [|m l IH]; intros s Hs; simpl; [reflexivity|].
    rewrite onMouseMove_disabled by exact Hs. apply IH. exact Hs. }
  assert (T0 : throttled (PT.initParticleTrail innerWidth)).
  { unfold throttled. simpl. repeat split; [lia | constructor]. }
  destruct (G ms _ T0) as (_ & Hs & Hall).
  split; [exact Hs|]. split; [exact Hall|]. split.
  - specialize (C ms (PT.initParticleTrail innerWidth)). simpl in C. exact C.
  - intro Hw. rewrite D; [reflexivity|].
    simpl. apply Nat.leb_le in Hw. rewrite Hw. reflexivity.
Qed.

(** ** The card tilt *)

(** X24.  On a card of positive width and height, a pointer inside the
    card's rectangle tilts the card by at most 10 degrees about either axis
    and sets the spotlight between 0 % and 100 %; the tilt about the
    vertical axis has the sign of the pointer's offset from the centre, the
    tilt about the horizontal axis the opposite sign. *)
Theorem tilt_within_ten_degrees
  (clientX clientY left top width height : R)
  (Hw : 0 < width) (Hh : 0 < height)
  (Hx : left <= clientX <= left + width)
  (Hy : top <= clientY <= top + height) :
  let s := Tilt.onMouseMove clientX clientY left top width height in
  -10 <= Tilt.rotateX s <= 10 /\ -10 <= Tilt.rotateY s <= 10
  /\ 0 <= Tilt.mouseX s <= 100 /\ 0 <= Tilt.mouseY s <= 100
  /\ (0 <= Tilt.rotateY s <-> left + width / 2 <= clientX)
  /\ (0 <= Tilt.rotateX s <-> clientY <= top + height / 2).
Proof.
  simpl.
  set (x := clientX - left). set (y := clientY - top).
  assert (Ex : (x - width / 2) / (width / 2) = 2 * (x / width) - 1)
    by (field; lra).
  assert (Ey : (y - height / 2) / (height / 2) = 2 * (y / height) - 1)
    by (field; lra).
  assert (Bx : 0 <= x / width <= 1).
  { assert (E : x / width * width = x) by (field; lra).
    assert (0 <= x <= width) by (unfold x; lra). split; nra. }
  assert (By : 0 <= y / height <= 1).
  { assert (E : y / height * height = y) by (field; lra).
    assert (0 <= y <= height) by (unfold y; lra). split; nra. }
  assert (Cx : 1 <= 2 * (x / width) <-> left + width / 2 <= clientX).
  { assert (E : x / width * width = x) by (field; lra).
    unfold x in *. split; intro; nra. }
  assert (Cy : 2 * (y / height) <= 1 <-> clientY <= top + height / 2).
  { assert (E : y / height * height = y) by (field; lra).
    unfold y in *. split; intro; nra. }
  rewrite Ex, Ey.
  repeat split; lra.
Qed.

Lemma tilt_within_ten_degrees_witness :
  let s := Tilt.onMouseMove 150 80 100 50 200 100 in
  -10 <= Tilt.rotateX s <= 10 /\ -10 <= Tilt.rotateY s <= 10
  /\ 0 <= Tilt.mouseX s <= 100 /\ 0 <= Tilt.mouseY s <= 100
  /\ (0 <= Tilt.rotateY s <-> 100 + 200 / 2 <= 150)
  /\ (0 <= Tilt.rotateX s <-> 80 <= 50 + 100 / 2).
Proof. apply (tilt_within_ten_degrees 150 80 100 50 200 100); lra. Defined.
